(** * NeuroGrid node client: a shallow embedding of the agent core

  The development follows the four subsystems of the node client:
  - [ConnectionManager] and [CoordinatorClient]
    (src/node-client/src/utils/api_client.py),
  - [DockerEngine] (src/node-client/src/container/docker_engine.py),
  - [CryptoManager] (src/node-client/src/utils/crypto.py),
  - [NodeAgent] (src/node-client/src/core/agent.py).

  Python floats (delays, timestamps) are modelled by exact rationals
  [Qc]: their rounding is not modelled, the [OverflowError] of a float
  power is. Python ints are modelled by [Z], or by [nat] for counters that
  only grow from 0; dicts by stdpp's [gmap]; [bytes] by [list Z]; values
  parsed from JSON by an inductive type. Effects (the websocket, the
  Docker daemon, the key directory, the clock) are explicit state; a
  coroutine is modelled by the steps it takes between two suspensions. *)

From Stdlib Require Import ZArith QArith Qcanon Lia.
From stdpp Require Import gmap strings list.


(** ** Numbers *)

Module PyNum.

Open Scope Qc_scope.

Definition Qc_of_nat (n : nat) : Qc := Q2Qc (inject_Z (Z.of_nat n)).

Definition Qc_of_Z (z : Z) : Qc := Q2Qc (inject_Z z).

(** A number as a configuration file gives it: a Python [int] or a
    finite [float]. *)
Inductive number :=
| Int (z : Z)
| Float (q : Qc).

Definition value_of (x : number) : Qc :=
  match x with
  | Int z => Qc_of_Z z
  | Float q => q
  end.

(** From this magnitude on, [2^1024 - 2^970], a float result no longer
    rounds to a finite double. *)
Definition float_overflow : Qc := Qc_of_Z (2 ^ 1024 - 2 ^ 970).

Definition overflows (q : Qc) : Prop :=
  float_overflow <= q \/ q <= - float_overflow.

#[global] Instance overflows_dec q : Decision (overflows q).
Proof. unfold overflows. apply _. Defined.

(** [base ** n] for an int [n >= 0]: exact on an int base; on a float
    base [OverflowError] ([None]) when the result is out of range. The
    rounding of a float result within range is not modelled. *)
Definition py_pow (base : number) (n : nat) : option number :=
  match base with
  | Int z => Some (Int (z ^ Z.of_nat n))
  | Float q => if decide (overflows (q ^ n)) then None else Some (Float (q ^ n))
  end.

(** Python's [min(a, b)]: returns [a] unless [b < a]. *)
Definition py_min (a b : Qc) : Qc :=
  if Qclt_le_dec b a then b else a.

Lemma py_min_le_l a b : py_min a b <= a.
Proof.
  unfold py_min. destruct (Qclt_le_dec b a) as [H|H].
  - apply Qclt_le_weak, H.
  - apply Qcle_refl.
Qed.

Lemma py_min_le_r a b : py_min a b <= b.
Proof.
  unfold py_min. destruct (Qclt_le_dec b a) as [H|H].
  - apply Qcle_refl.
  - exact H.
Qed.

Lemma py_min_mono_r a b c : b <= c -> py_min a b <= py_min a c.
Proof.
  intros Hbc. unfold py_min at 2.
  destruct (Qclt_le_dec c a) as [H|H].
  - eapply Qcle_trans; [apply py_min_le_r | exact Hbc].
  - apply py_min_le_l.
Qed.

Lemma Qcpower_S_ge (b : Qc) (n : nat) : 1 <= b -> b ^ n <= b ^ S n.
Proof.
  intros Hb.
  assert (H0 : 0 <= b) by (eapply Qcle_trans; [|exact Hb]; discriminate).
  assert (Hp : 0 <= b ^ n) by (apply Qcpower_pos, H0).
  change (b ^ S n) with (b * b ^ n).
  rewrite <- (Qcmult_1_l (b ^ n)) at 1.
  apply Qcmult_le_compat_r; assumption.
Qed.

Lemma Qc_of_Z_mult (x y : Z) : Qc_of_Z (x * y) = Qc_of_Z x * Qc_of_Z y.
Proof.
  unfold Qc_of_Z. apply Qc_is_canon. cbn.
  rewrite !Qred_correct. unfold Qeq. cbn. lia.
Qed.

(** An int power is the power of the value. *)
Lemma Qc_of_Z_pow (z : Z) (n : nat) : Qc_of_Z (z ^ Z.of_nat n) = Qc_of_Z z ^ n.
Proof.
  induction n as [|n IH]; [reflexivity|].
  rewrite Nat2Z.inj_succ, Z.pow_succ_r by lia.
  rewrite Qc_of_Z_mult, IH. reflexivity.
Qed.

(** When [py_pow] returns, it returns the power. *)
Lemma py_pow_value (base p : number) (n : nat) :
  py_pow base n = Some p -> value_of p = value_of base ^ n.
Proof.
  destruct base as [z|q]; cbn.
  - intros [= <-]. apply Qc_of_Z_pow.
  - case_decide; [discriminate|]. now intros [= <-].
Qed.

End PyNum.

(** ** api_client.py: [ConnectionManager] *)

Module ConnectionManager.

Import PyNum.
Open Scope Qc_scope.

Record t := mk {
  base_url : string;
  max_retries : nat;
  backoff_factor : number;
  connected : bool;
  last_connection_attempt : Qc;
  connection_failures : nat
}.

(** [ConnectionManager.__init__] *)
Definition init (url : string) (retries : nat) (factor : number) : t :=
  {| base_url := url; max_retries := retries; backoff_factor := factor;
     connected := false; last_connection_attempt := 0;
     connection_failures := 0 |}.

(** [min(300, self.backoff_factor ** self.connection_failures)]; [None]
    stands for the [OverflowError] of the power. *)
Definition get_retry_delay (cm : t) : option Qc :=
  match py_pow (backoff_factor cm) (connection_failures cm) with
  | Some p => Some (py_min (Qc_of_nat 300) (value_of p))
  | None => None
  end.

Definition on_connection_success (cm : t) : t :=
  {| base_url := base_url cm; max_retries := max_retries cm;
     backoff_factor := backoff_factor cm;
     connected := true;
     last_connection_attempt := last_connection_attempt cm;
     connection_failures := 0 |}.

(** [now] is the value of [time.time()] at the call. *)
Definition on_connection_failure (now : Qc) (cm : t) : t :=
  {| base_url := base_url cm; max_retries := max_retries cm;
     backoff_factor := backoff_factor cm;
     connected := false;
     last_connection_attempt := now;
     connection_failures := S (connection_failures cm) |}.

(** The manager after one failure at each of the given clock readings,
    oldest first. *)
Definition after_failures (cm : t) (times : list Qc) : t :=
  fold_left (fun c now => on_connection_failure now c) times cm.

Lemma after_failures_snoc cm times now :
  after_failures cm (times ++ [now])
  = on_connection_failure now (after_failures cm times).
Proof. unfold after_failures. now rewrite fold_left_app. Qed.

Lemma after_failures_factor cm times :
  backoff_factor (after_failures cm times) = backoff_factor cm.
Proof.
  induction times as [|now times IH] using rev_ind; [reflexivity|].
  rewrite after_failures_snoc. exact IH.
Qed.

Lemma after_failures_count cm times :
  connection_failures (after_failures cm times)
  = (connection_failures cm + length times)%nat.
Proof.
  induction times as [|now times IH] using rev_ind.
  - simpl. lia.
  - rewrite after_failures_snoc, length_app. simpl. rewrite IH. lia.
Qed.

End ConnectionManager.

(** *** Retry backoff *)

Module BackoffFacts.

Import PyNum ConnectionManager.
Open Scope Qc_scope.

(** The power [base ** n] can be computed: always for an int base, for a
    float base as long as it stays within the range of floats. *)
Definition in_range (base : number) (n : nat) : Prop :=
  match base with
  | Int _ => True
  | Float q => ~ overflows (q ^ n)
  end.

Lemma py_pow_in_range base n :
  in_range base n -> py_pow base n = Some (match base with
                                           | Int z => Int (z ^ Z.of_nat n)
                                           | Float q => Float (q ^ n)
                                           end).
Proof.
  destruct base as [z|q]; cbn; [reflexivity|].
  intros Hq. now rewrite decide_False by exact Hq.
Qed.

(** Within range the delay is the capped power. *)
Lemma get_retry_delay_in_range cm :
  in_range (backoff_factor cm) (connection_failures cm) ->
  get_retry_delay cm
  = Some (py_min (Qc_of_nat 300)
                 (value_of (backoff_factor cm) ^ connection_failures cm)).
Proof.
  intros Hr. unfold get_retry_delay.
  rewrite (py_pow_in_range _ _ Hr).
  destruct (backoff_factor cm) as [z|q]; cbn [value_of]; [|reflexivity].
  now rewrite Qc_of_Z_pow.
Qed.

(** The delay never exceeds 300 seconds. *)
Lemma get_retry_delay_capped cm d :
  get_retry_delay cm = Some d -> d <= Qc_of_nat 300.
Proof.
  unfold get_retry_delay. destruct (py_pow _ _); [|discriminate].
  intros [= <-]. apply py_min_le_l.
Qed.

(** With no failure on record the delay is one second. *)
Lemma get_retry_delay_no_failures cm :
  connection_failures cm = 0%nat -> get_retry_delay cm = Some 1.
Proof.
  intros H. unfold get_retry_delay. rewrite H.
  destruct (backoff_factor cm) as [z|q]; vm_compute; reflexivity.
Qed.

(** A float power that overflows raises. *)
Lemma get_retry_delay_overflow cm q :
  backoff_factor cm = Float q ->
  overflows (q ^ connection_failures cm) ->
  get_retry_delay cm = None.
Proof.
  intros Hb Ho. unfold get_retry_delay. rewrite Hb. cbn.
  now rewrite decide_True by exact Ho.
Qed.

(** C5 (as amended): after [n] consecutive failures, and as long as the
    power [base ** n] is within the range of the arithmetic (always for an
    int base), the delay is [min(300, base^n)], never above 300 seconds;
    when the configured base is at least 1, the delay after one more
    failure, if that power is in range too, is not shorter. *)
Theorem retry_delay_is_capped_power
  (url : string) (retries : nat) (base : number) (times : list Qc) (now : Qc) :
  let cm := after_failures (init url retries base) times in
  let n := length times in
  in_range base n ->
  get_retry_delay cm = Some (py_min (Qc_of_nat 300) (value_of base ^ n))
  /\ py_min (Qc_of_nat 300) (value_of base ^ n) <= Qc_of_nat 300
  /\ (1 <= value_of base -> in_range base (S n) ->
      get_retry_delay (on_connection_failure now cm)
      = Some (py_min (Qc_of_nat 300) (value_of base ^ S n))
      /\ py_min (Qc_of_nat 300) (value_of base ^ n)
         <= py_min (Qc_of_nat 300) (value_of base ^ S n)).
Proof.
  intros cm n Hn.
  assert (Hf : backoff_factor cm = base)
    by (unfold cm; now rewrite after_failures_factor).
  assert (Hc : connection_failures cm = n)
    by (unfold cm; now rewrite after_failures_count).
  split; [|split].
  - rewrite get_retry_delay_in_range; rewrite Hf, Hc; [reflexivity | exact Hn].
  - apply py_min_le_l.
  - intros Hb HSn. split.
    + rewrite get_retry_delay_in_range;
        cbn [backoff_factor connection_failures on_connection_failure];
        rewrite Hf, Hc; [reflexivity | exact HSn].
    + apply py_min_mono_r, Qcpower_S_ge, Hb.
Qed.

Definition half : Qc := Q2Qc (1 # 2).
Definition two : Qc := Q2Qc (2 # 1).

Lemma retry_delay_is_capped_power_witness :
  let cm := after_failures (init "http://c" 5 (Float two)) [0; 0; 0] in
  get_retry_delay cm = Some (py_min (Qc_of_nat 300) (two ^ 3))
  /\ py_min (Qc_of_nat 300) (two ^ 3) <= Qc_of_nat 300
  /\ get_retry_delay (on_connection_failure 0 cm)
     = Some (py_min (Qc_of_nat 300) (two ^ 4))
  /\ py_min (Qc_of_nat 300) (two ^ 3) <= py_min (Qc_of_nat 300) (two ^ 4).
Proof.
  assert (H3 : in_range (Float two) 3) by (vm_compute; intros [H|H]; apply H; reflexivity).
  assert (H4 : in_range (Float two) 4) by (vm_compute; intros [H|H]; apply H; reflexivity).
  pose proof (retry_delay_is_capped_power "http://c" 5 (Float two) [0; 0; 0] 0 H3)
    as (H1 & H2 & Hstep).
  destruct Hstep as [Hnext Hle]; [discriminate | exact H4 |].
  split; [exact H1 | split; [exact H2 | split; [exact Hnext | exact Hle]]].
Defined.

(** C5, as stated, fails in two ways. For a base below 1 the delays
    decrease: with [retry_backoff = 0.5] the delay after one failure
    (1/2 s) is shorter than the delay after none (1 s), although the cap
    has not been reached. And for the default base 2.0 there is no delay
    at all after 1024 consecutive failures: [2.0 ** 1024] raises
    [OverflowError] before [min] is applied. *)
Lemma retry_delay_decreases_or_overflows :
  (let cm := init "http://c" 5 (Float half) in
   exists d0 d1,
     get_retry_delay cm = Some d0
     /\ get_retry_delay (on_connection_failure 0 cm) = Some d1
     /\ d1 < d0 /\ d0 < Qc_of_nat 300)
  /\ get_retry_delay
       (after_failures (init "http://c" 5 (Float two)) (replicate 1024 0))
     = None.
Proof.
  split.
  - exists 1, half. repeat split; vm_compute; reflexivity.
  - apply (get_retry_delay_overflow _ two).
    + now rewrite after_failures_factor.
    + rewrite after_failures_count, length_replicate. left.
      apply (bool_decide_unpack _). vm_compute. exact I.
Qed.

End BackoffFacts.

(** ** api_client.py: [CoordinatorClient] *)

Module CoordinatorClient.

Import PyNum.
Open Scope Qc_scope.

(** The [Retry-After] header as [int(response.headers.get('Retry-After', 60))]
    sees it: absent, a numeral, or text that [int] rejects. *)
Inductive header := NoHeader | IntHeader (z : Z) | BadHeader.

(** What [await response.json()] does: it returns the parsed body, or
    raises [json.JSONDecodeError] on a body that is not JSON, or one of
    aiohttp's own errors ([ContentTypeError], [ClientPayloadError]), which
    are subclasses of [aiohttp.ClientError]. *)
Inductive json_outcome :=
| Document (d : string)
| JSONDecodeError
| JsonClientError (msg : string).

Record response := mk_response {
  status : Z;
  retry_after : header;
  is_json : bool;          (* 'application/json' in content-type *)
  body : string;           (* await response.text() *)
  json : json_outcome      (* await response.json() *)
}.

(** What one [session.request] does. *)
Inductive net_outcome :=
| Responded (r : response)
| ClientError (msg : string)      (* aiohttp.ClientError *)
| OtherError (msg : string).      (* any other exception *)

(** The environment of the client: the clock read by [time.time()], the
    coordinator (the k-th network call takes some time and has some
    outcome), the log of the network calls started so far, and the clock
    readings at which a response came back. *)
Record world := mk_world {
  clock : Qc;
  net : nat -> Qc * net_outcome;
  net_log : list (string * string);
  answered : list Qc
}.

Record t := mk {
  connection_manager : ConnectionManager.t;
  request_count : nat;
  rate_limit_requests : Z;
  request_timestamps : list Qc
}.

(** [CoordinatorClient.__init__], for the configuration values it reads. *)
Definition init (url : string) (retries : nat) (backoff : number) (limit : Z) : t :=
  {| connection_manager := ConnectionManager.init url retries backoff;
     request_count := 0;
     rate_limit_requests := limit;
     request_timestamps := [] |}.

(** The exceptions [_make_request] raises, by message. *)
Inductive error :=
| RateLimitExceeded                         (* "Rate limit exceeded" *)
| AuthenticationFailed                      (* 401 *)
| AccessForbidden                           (* 403 *)
| RateLimitMaxRetries                       (* 429, retries exhausted *)
| ServerError (st : Z) (text : string)      (* 5xx, retries exhausted *)
| RequestFailed (st : Z) (text : string)    (* any other status *)
| NetworkError (retries : nat) (msg : string)
| OverflowError                             (* from [get_retry_delay] *)
| Reraised (msg : string).

Inductive payload := Json (text : string) | Text (text : string).

Inductive result := Return (p : payload) | Raise (e : error).

Definition set_timestamps (ts : list Qc) (c : t) : t :=
  {| connection_manager := connection_manager c;
     request_count := request_count c;
     rate_limit_requests := rate_limit_requests c;
     request_timestamps := ts |}.

Definition set_manager (cm : ConnectionManager.t) (c : t) : t :=
  {| connection_manager := cm;
     request_count := request_count c;
     rate_limit_requests := rate_limit_requests c;
     request_timestamps := request_timestamps c |}.

Definition incr_request_count (c : t) : t :=
  {| connection_manager := connection_manager c;
     request_count := S (request_count c);
     rate_limit_requests := rate_limit_requests c;
     request_timestamps := request_timestamps c |}.

(** A timestamp is kept when [now - ts < 60]. *)
Definition in_window (now ts : Qc) : Prop := now - ts < Qc_of_nat 60.

#[global] Instance in_window_dec now ts : Decision (in_window now ts).
Proof. unfold in_window. apply _. Defined.

(** [_check_rate_limit]: prune, then compare the length with the limit. *)
Definition _check_rate_limit (now : Qc) (c : t) : bool * t :=
  let kept := filter (in_window now) (request_timestamps c) in
  let c := set_timestamps kept c in
  if bool_decide (rate_limit_requests c <= Z.of_nat (length kept))%Z
  then (false, c)
  else (true, c).

(** [_track_request_time] *)
Definition _track_request_time (now : Qc) (c : t) : t :=
  set_timestamps (request_timestamps c ++ [now]) c.

(** [asyncio.sleep(delay)]: a delay that is not positive returns at once. *)
Definition sleep (delay : Qc) (w : world) : world :=
  {| clock := if Qclt_le_dec 0 delay then clock w + delay else clock w;
     net := net w;
     net_log := net_log w;
     answered := answered w |}.

(** [session.request(...)] is entered: the call is logged and gets its
    number. The coroutine is then suspended. *)
Definition start_call (method endpoint : string) (w : world) : nat * world :=
  (length (net_log w),
   {| clock := clock w; net := net w;
      net_log := net_log w ++ [(method, endpoint)];
      answered := answered w |}).

(** The coroutine is resumed with the coordinator's outcome for call [k],
    after the time the call took. *)
Definition await_call (k : nat) (w : world) : net_outcome * world :=
  let '(latency, out) := net w k in
  let now := clock w + latency in
  (out, {| clock := now; net := net w; net_log := net_log w;
           answered := match out with
                       | Responded _ => answered w ++ [now]
                       | _ => answered w
                       end |}).

(** How one attempt ends: with the result of the request, or with a sleep
    before the next attempt; after the sleep of a 5xx the failure is
    recorded. *)
Inductive action :=
| Finish (r : result)
| Retry (delay : Qc) (failure_after_sleep : bool).

Definition retries_left (retry_count : nat) (c : t) : bool :=
  bool_decide (retry_count < ConnectionManager.max_retries
                               (connection_manager c))%nat.

(** Lines 218-228, the handler of [aiohttp.ClientError]; an exception of
    [get_retry_delay] leaves the handler as it is. *)
Definition on_client_error (retry_count : nat) (msg : string) (c : t)
    (w : world) : action * t :=
  let c := set_manager (ConnectionManager.on_connection_failure
                          (clock w) (connection_manager c)) c in
  if retries_left retry_count c then
    match ConnectionManager.get_retry_delay (connection_manager c) with
    | Some delay => (Retry delay false, c)
    | None => (Finish (Raise OverflowError), c)
    end
  else (Finish (Raise (NetworkError retry_count msg)), c).

(** Lines 162-232: from the outcome of [session.request] to the end of
    the attempt. Only a call that was answered is counted and tracked. *)
Definition settle (retry_count : nat) (out : net_outcome) (c : t) (w : world)
  : action * t :=
  match out with
  | ClientError msg => on_client_error retry_count msg c w
  | OtherError msg => (Finish (Raise (Reraised msg)), c)
  | Responded r =>
      let c := _track_request_time (clock w) (incr_request_count c) in
      if bool_decide (status r = 200)%Z then
        let c := set_manager (ConnectionManager.on_connection_success
                                (connection_manager c)) c in
        if is_json r then
          match json r with
          | Document d => (Finish (Return (Json d)), c)
          | JSONDecodeError => (Finish (Raise (Reraised "JSONDecodeError")), c)
          | JsonClientError msg => on_client_error retry_count msg c w
          end
        else (Finish (Return (Text (body r))), c)
      else if bool_decide (status r = 401)%Z then
        (Finish (Raise AuthenticationFailed), c)
      else if bool_decide (status r = 403)%Z then
        (Finish (Raise AccessForbidden), c)
      else if bool_decide (status r = 429)%Z then
        match retry_after r with
        | BadHeader => (Finish (Raise (Reraised "ValueError")), c)
        | hdr =>
            let secs := match hdr with IntHeader z => z | _ => 60%Z end in
            if retries_left retry_count c
            then (Retry (Qc_of_Z secs) false, c)
            else (Finish (Raise RateLimitMaxRetries), c)
        end
      else if bool_decide (500 <= status r)%Z then
        if retries_left retry_count c then
          match ConnectionManager.get_retry_delay (connection_manager c) with
          | Some delay => (Retry delay true, c)
          | None => (Finish (Raise OverflowError), c)
          end
        else (Finish (Raise (ServerError (status r) (body r))), c)
      else (Finish (Raise (RequestFailed (status r) (body r))), c)
  end.

(** What follows a [Retry]: the sleep and, after a 5xx,
    [on_connection_failure]. *)
Definition pause (delay : Qc) (failure_after_sleep : bool) (c : t) (w : world)
  : t * world :=
  let w := sleep delay w in
  (if failure_after_sleep
   then set_manager (ConnectionManager.on_connection_failure
                       (clock w) (connection_manager c)) c
   else c, w).

(** [_make_request] for a request that runs on its own: between the
    check of the limiter and the handling of the response the coroutine
    is suspended, and here no other coroutine touches the client
    meanwhile. [fuel] bounds the depth of the recursion on [retry_count]. *)
Fixpoint make_request_fuel (fuel : nat) (method endpoint : string)
    (retry_count : nat) (c : t) (w : world) : option (result * t * world) :=
  match fuel with
  | O => None
  | S fuel =>
    let '(ok, c) := _check_rate_limit (clock w) c in
    if negb ok then Some (Raise RateLimitExceeded, c, w) else
    let '(k, w) := start_call method endpoint w in
    let '(out, w) := await_call k w in
    let '(act, c) := settle retry_count out c w in
    match act with
    | Finish r => Some (r, c, w)
    | Retry delay failure_after_sleep =>
        let '(c, w) := pause delay failure_after_sleep c w in
        make_request_fuel fuel method endpoint (S retry_count) c w
    end
  end.

(** [_make_request]: at most [max_retries - retry_count] retries follow
    the first attempt. *)
Definition _make_request (method endpoint : string) (retry_count : nat)
    (c : t) (w : world) : option (result * t * world) :=
  make_request_fuel
    (S (ConnectionManager.max_retries (connection_manager c) - retry_count))
    method endpoint retry_count c w.

(** Two requests of one client in flight together, as the heartbeat and
    the metrics loop can have them: the second passes the limiter while
    the first is suspended in [session.request]; then the first is
    answered, then the second. [None] when the limiter refuses one of
    them. *)
Definition overlapping (m1 e1 m2 e2 : string) (c : t) (w : world)
  : option (action * action * t * world) :=
  let '(ok1, c) := _check_rate_limit (clock w) c in
  if negb ok1 then None else
  let '(k1, w) := start_call m1 e1 w in
  let '(ok2, c) := _check_rate_limit (clock w) c in
  if negb ok2 then None else
  let '(k2, w) := start_call m2 e2 w in
  let '(out1, w) := await_call k1 w in
  let '(act1, c) := settle 0 out1 c w in
  let '(out2, w) := await_call k2 w in
  let '(act2, c) := settle 0 out2 c w in
  Some (act1, act2, c, w).

End CoordinatorClient.

(** *** The sliding-window rate limiter *)

Module RateLimitFacts.

Import PyNum CoordinatorClient.
Open Scope Qc_scope.

Abbreviation max_retries_of c :=
  (ConnectionManager.max_retries (connection_manager c)).

Lemma sleep_log d w : net_log (sleep d w) = net_log w.
Proof. reflexivity. Qed.

(** The outcome of the check, read off the pruned window. *)
Lemma check_rate_limit_spec now c :
  let kept := filter (in_window now) (request_timestamps c) in
  _check_rate_limit now c
  = (negb (bool_decide (rate_limit_requests c <= Z.of_nat (length kept))%Z),
     set_timestamps kept c).
Proof. unfold _check_rate_limit. cbn. now case_bool_decide. Qed.

(** An attempt keeps the configuration of the client. *)
Lemma on_client_error_config rc msg c w :
  max_retries_of (snd (on_client_error rc msg c w)) = max_retries_of c
  /\ rate_limit_requests (snd (on_client_error rc msg c w)) = rate_limit_requests c
  /\ request_timestamps (snd (on_client_error rc msg c w)) = request_timestamps c.
Proof.
  unfold on_client_error. destruct (retries_left _ _); [|now cbn].
  now destruct (ConnectionManager.get_retry_delay _).
Qed.

Lemma settle_config rc out c w :
  max_retries_of (snd (settle rc out c w)) = max_retries_of c
  /\ rate_limit_requests (snd (settle rc out c w)) = rate_limit_requests c
  /\ request_timestamps (snd (settle rc out c w))
     = match out with
       | Responded _ => request_timestamps c ++ [clock w]
       | _ => request_timestamps c
       end.
Proof.
  destruct out as [r|msg|msg]; cbn -[on_client_error];
    [|apply on_client_error_config | now cbn].
  repeat case_bool_decide; try (now cbn).
  - destruct (is_json r); [|now cbn].
    destruct (json r); try (now cbn).
    match goal with
    | |- context [on_client_error rc ?m ?c1 w] =>
        destruct (on_client_error_config rc m c1 w) as (H1 & H2 & H3)
    end.
    rewrite H1, H2, H3. now cbn.
  - destruct (retry_after r); try (now cbn);
      destruct (retries_left _ _); now cbn.
  - destruct (retries_left _ _); [|now cbn].
    now destruct (ConnectionManager.get_retry_delay _).
Qed.

(** A retry is decided only while retries are left. *)
Lemma on_client_error_retry rc msg c w d f :
  fst (on_client_error rc msg c w) = Retry d f -> (rc < max_retries_of c)%nat.
Proof.
  unfold on_client_error, retries_left. cbn.
  case_bool_decide; [auto | discriminate].
Qed.

Lemma settle_retry rc out c w d f :
  fst (settle rc out c w) = Retry d f -> (rc < max_retries_of c)%nat.
Proof.
  destruct out as [r|msg|msg]; cbn -[on_client_error];
    [|apply on_client_error_retry | discriminate].
  repeat case_bool_decide; try discriminate.
  - destruct (is_json r); [|discriminate].
    destruct (json r); try discriminate.
    intros Hact. now apply on_client_error_retry in Hact.
  - unfold retries_left. cbn.
    destruct (retry_after r); try discriminate;
      case_bool_decide; auto; discriminate.
  - unfold retries_left. cbn. case_bool_decide; auto; discriminate.
Qed.

Lemma pause_config d f c w :
  max_retries_of (fst (pause d f c w)) = max_retries_of c
  /\ rate_limit_requests (fst (pause d f c w)) = rate_limit_requests c
  /\ request_timestamps (fst (pause d f c w)) = request_timestamps c
  /\ net_log (snd (pause d f c w)) = net_log w
  /\ net (snd (pause d f c w)) = net w
  /\ answered (snd (pause d f c w)) = answered w.
Proof. unfold pause. now destruct f. Qed.

(** One attempt, from the call to the decision. *)
Definition attempt (m e : string) (rc : nat) (c : t) (w : world)
  : action * t * world :=
  let '(k, w) := start_call m e w in
  let '(out, w) := await_call k w in
  let '(act, c) := settle rc out c w in
  (act, c, w).

Lemma make_request_fuel_unfold fuel m e rc c w :
  make_request_fuel (S fuel) m e rc c w
  = let '(ok, c) := _check_rate_limit (clock w) c in
    if negb ok then Some (Raise RateLimitExceeded, c, w) else
    let '(act, c, w) := attempt m e rc c w in
    match act with
    | Finish r => Some (r, c, w)
    | Retry d f =>
        make_request_fuel fuel m e (S rc) (fst (pause d f c w))
          (snd (pause d f c w))
    end.
Proof.
  cbn [make_request_fuel]. destruct (_check_rate_limit (clock w) c) as [ok c1].
  destruct (negb ok); [reflexivity|]. unfold attempt.
  destruct (start_call m e w) as [k w1].
  destruct (await_call k w1) as [out w2].
  destruct (settle rc out c1 w2) as [act c2].
  destruct act as [r|d f]; [reflexivity|].
  now destruct (pause d f c2 w2).
Qed.

Lemma attempt_spec m e rc c w :
  let out := snd (net w (length (net_log w))) in
  let now := clock w + fst (net w (length (net_log w))) in
  let w' := snd (attempt m e rc c w) in
  let c' := snd (fst (attempt m e rc c w)) in
  net_log w' = net_log w ++ [(m, e)]
  /\ net w' = net w
  /\ clock w' = now
  /\ answered w' = match out with
                   | Responded _ => answered w ++ [now]
                   | _ => answered w
                   end
  /\ max_retries_of c' = max_retries_of c
  /\ rate_limit_requests c' = rate_limit_requests c
  /\ request_timestamps c' = match out with
                             | Responded _ => request_timestamps c ++ [now]
                             | _ => request_timestamps c
                             end
  /\ (forall d f, fst (fst (attempt m e rc c w)) = Retry d f ->
        (rc < max_retries_of c)%nat).
Proof.
  unfold attempt, start_call, await_call. cbn [net net_log clock].
  destruct (net w (length (net_log w))) as [lat out]. cbn [fst snd].
  match goal with
  | |- context [settle rc out c ?w2] =>
      pose proof (settle_config rc out c w2) as (H1 & H2 & H3);
      pose proof (settle_retry rc out c w2) as H4;
      destruct (settle rc out c w2) as [act c2]
  end.
  cbn [fst snd clock] in *. repeat split; auto.
Qed.

(** Every run of [_make_request] with enough fuel returns. A request the
    limiter refuses raises at once and leaves the world as it was; any
    other run starts with a network call for this very request. *)
Lemma make_request_fuel_total fuel : forall m e rc c w,
  (max_retries_of c - rc < fuel)%nat ->
  if fst (_check_rate_limit (clock w) c) then
    exists r c' w' rest,
      make_request_fuel fuel m e rc c w = Some (r, c', w')
      /\ net_log w' = net_log w ++ (m, e) :: rest
  else
    make_request_fuel fuel m e rc c w
    = Some (Raise RateLimitExceeded, snd (_check_rate_limit (clock w) c), w).
Proof.
  induction fuel as [|fuel IH]; intros m e rc c w Hfuel; [lia|].
  rewrite make_request_fuel_unfold.
  rewrite check_rate_limit_spec. cbn [fst snd].
  set (kept := filter _ _). set (c1 := set_timestamps kept c).
  destruct (negb (bool_decide _)); cbn [negb]; [|reflexivity].
  pose proof (attempt_spec m e rc c1 w) as (Hlog & _ & _ & _ & Hr & _ & _ & Hretry).
  destruct (attempt m e rc c1 w) as [[act c2] w2]. cbn [fst snd] in *.
  destruct act as [r|d f].
  { exists r, c2, w2, []. split; [reflexivity | exact Hlog]. }
  specialize (Hretry d f eq_refl).
  pose proof (pause_config d f c2 w2) as (Hp1 & _ & _ & Hp4 & _).
  specialize (IH m e (S rc) (fst (pause d f c2 w2)) (snd (pause d f c2 w2))).
  change (max_retries_of c1) with (max_retries_of c) in *.
  destruct (fst (_check_rate_limit _ _)).
  - destruct IH as (r & c' & w' & rest & Hrun & Hlog'); [rewrite Hp1, Hr; lia|].
    exists r, c', w', ((m, e) :: rest). split; [exact Hrun|].
    rewrite Hlog', Hp4, Hlog. now rewrite <- app_assoc.
  - rewrite IH by (rewrite Hp1, Hr; lia).
    eexists _, _, _, []. split; [reflexivity|]. now rewrite Hp4.
Qed.

(** A window in which every timestamp is at least 60 seconds old is
    pruned to nothing. *)
Lemma filter_all_expired now (ts : list Qc) :
  Forall (fun x => Qc_of_nat 60 <= now - x) ts ->
  filter (in_window now) ts = [].
Proof.
  induction 1 as [|x ts Hx _ IH]; [reflexivity|].
  rewrite filter_cons, IH. case_decide as Hin; [|reflexivity].
  exfalso. unfold in_window in Hin.
  exact (Qclt_not_le _ _ Hin Hx).
Qed.

(** The window is full: the request is refused before the network. *)
Lemma make_request_window_full (c : t) (w : world) (m e : string) (rc : nat) :
  let kept := filter (in_window (clock w)) (request_timestamps c) in
  (rate_limit_requests c <= Z.of_nat (length kept))%Z ->
  _make_request m e rc c w
  = Some (Raise RateLimitExceeded, set_timestamps kept c, w).
Proof.
  intros kept Hfull.
  pose proof (make_request_fuel_total (S (max_retries_of c - rc)) m e rc c w)
    as Hrun.
  rewrite check_rate_limit_spec in Hrun. cbn [fst snd] in Hrun.
  fold kept in Hrun. rewrite bool_decide_true in Hrun by exact Hfull.
  apply Hrun. lia.
Qed.

(** The window is below the limit: the request goes to the network. *)
Lemma make_request_window_open (c : t) (w : world) (m e : string) (rc : nat) :
  let kept := filter (in_window (clock w)) (request_timestamps c) in
  (Z.of_nat (length kept) < rate_limit_requests c)%Z ->
  exists r c' w' rest,
    _make_request m e rc c w = Some (r, c', w')
    /\ net_log w' = net_log w ++ (m, e) :: rest.
Proof.
  intros kept Hopen.
  pose proof (make_request_fuel_total (S (max_retries_of c - rc)) m e rc c w)
    as Hrun.
  rewrite check_rate_limit_spec in Hrun. cbn [fst snd] in Hrun.
  fold kept in Hrun. rewrite bool_decide_false in Hrun by lia.
  apply Hrun. lia.
Qed.

(** *** Requests over time *)

(** What the client does over time: requests made one after another,
    each awaited before the next, and pauses between them. *)
Inductive step :=
| Request (method endpoint : string)
| Wait (seconds : Qc).

Definition run_step (s : step) (cw : t * world) : t * world :=
  match s with
  | Request m e =>
      match _make_request m e 0 (fst cw) (snd cw) with
      | Some (_, c, w) => (c, w)
      | None => cw
      end
  | Wait d => (fst cw, sleep d (snd cw))
  end.

Definition run (steps : list step) (cw : t * world) : t * world :=
  fold_left (fun cw s => run_step s cw) steps cw.

(** No call takes a negative time. *)
Definition patient (w : world) : Prop := forall k, 0 <= fst (net w k).

(** From now on the tracked timestamps and the answered calls fill every
    window alike. *)
Definition tracks (c : t) (w : world) : Prop :=
  forall now, clock w <= now ->
    filter (in_window now) (request_timestamps c)
    = filter (in_window now) (answered w).

Lemma Qcle_plus_nonneg (x d : Qc) : 0 <= d -> x <= x + d.
Proof.
  intros Hd. rewrite <- (Qcplus_0_r x) at 1.
  apply Qcplus_le_compat; [apply Qcle_refl | exact Hd].
Qed.

Lemma sleep_clock d w : clock w <= clock (sleep d w).
Proof.
  cbn. destruct (Qclt_le_dec 0 d) as [Hd|Hd]; [|apply Qcle_refl].
  apply Qcle_plus_nonneg, Qclt_le_weak, Hd.
Qed.

Lemma in_window_earlier (now0 now x : Qc) :
  now0 <= now -> in_window now x -> in_window now0 x.
Proof.
  unfold in_window. intros Hle Hin.
  eapply Qcle_lt_trans; [|exact Hin].
  apply Qcplus_le_compat; [exact Hle | apply Qcle_refl].
Qed.

(** Pruning at an earlier time loses nothing a later window holds. *)
Lemma filter_window_pruned (now0 now : Qc) (ts : list Qc) :
  now0 <= now ->
  filter (in_window now) (filter (in_window now0) ts)
  = filter (in_window now) ts.
Proof.
  intros Hle. induction ts as [|x ts IH]; [reflexivity|].
  rewrite !filter_cons. destruct (decide (in_window now0 x)) as [H0|H0].
  - rewrite filter_cons, IH. reflexivity.
  - rewrite IH. rewrite decide_False; [reflexivity|].
    intros Hin. apply H0. exact (in_window_earlier _ _ _ Hle Hin).
Qed.

Lemma tracks_check c w :
  tracks c w -> tracks (snd (_check_rate_limit (clock w) c)) w.
Proof.
  intros Ht now Hnow. rewrite check_rate_limit_spec. cbn.
  rewrite filter_window_pruned by exact Hnow. now apply Ht.
Qed.

Lemma tracks_later c w c' w' :
  tracks c w -> clock w <= clock w' ->
  request_timestamps c' = request_timestamps c ->
  answered w' = answered w ->
  tracks c' w'.
Proof.
  intros Ht Hle Hts Ha now Hnow. rewrite Hts, Ha. apply Ht.
  eapply Qcle_trans; [exact Hle | exact Hnow].
Qed.

Lemma tracks_attempt m e rc c w :
  patient w -> tracks c w ->
  tracks (snd (fst (attempt m e rc c w))) (snd (attempt m e rc c w))
  /\ clock w <= clock (snd (attempt m e rc c w)).
Proof.
  intros Hp Ht.
  pose proof (attempt_spec m e rc c w) as (_ & _ & Hclock & Ha & _ & _ & Hts & _).
  cbv zeta in *.
  assert (Hle : clock w <= clock (snd (attempt m e rc c w)))
    by (rewrite Hclock; apply Qcle_plus_nonneg, Hp).
  split; [|exact Hle].
  intros now Hnow. rewrite Hts, Ha.
  assert (Hw : clock w <= now) by (eapply Qcle_trans; [exact Hle | exact Hnow]).
  destruct (snd (net w (length (net_log w)))); [|now apply Ht..].
  rewrite !filter_app. now rewrite (Ht now Hw).
Qed.

(** A run keeps the agreement, the coordinator and the limit, and takes
    no time back. *)
Lemma make_request_fuel_tracks fuel : forall m e rc c w r c' w',
  patient w -> tracks c w ->
  make_request_fuel fuel m e rc c w = Some (r, c', w') ->
  tracks c' w' /\ net w' = net w /\ clock w <= clock w'
  /\ rate_limit_requests c' = rate_limit_requests c.
Proof.
  induction fuel as [|fuel IH]; intros m e rc c w r c' w' Hp Ht; [discriminate|].
  rewrite make_request_fuel_unfold.
  pose proof (tracks_check c w Ht) as Ht1.
  rewrite check_rate_limit_spec in *. cbn [fst snd] in *.
  set (c1 := set_timestamps _ c) in *.
  destruct (negb (bool_decide _)); cbn [negb].
  2:{ intros [= <- <- <-]. repeat split; auto; apply Qcle_refl. }
  pose proof (tracks_attempt m e rc c1 w Hp Ht1) as [Ht2 Hle2].
  pose proof (attempt_spec m e rc c1 w) as (_ & Hnet & _ & _ & _ & Hlim & _ & _).
  destruct (attempt m e rc c1 w) as [[act c2] w2]. cbn [fst snd] in *.
  destruct act as [r0|d f].
  { intros [= <- <- <-]. repeat split; auto. }
  pose proof (pause_config d f c2 w2) as (_ & Hl3 & Hts3 & _ & Hnet3 & Ha3).
  assert (Hle3 : clock w2 <= clock (snd (pause d f c2 w2)))
    by (unfold pause; cbn [snd]; apply sleep_clock).
  intros Hrun.
  apply IH in Hrun as (Ht' & Hnet' & Hle' & Hlim').
  - change (rate_limit_requests c1) with (rate_limit_requests c) in Hlim.
    split; [exact Ht'|]. split; [congruence|]. split; [|congruence].
    eapply Qcle_trans; [exact Hle2|].
    eapply Qcle_trans; [exact Hle3 | exact Hle'].
  - intros k. rewrite Hnet3, Hnet. apply Hp.
  - exact (tracks_later c2 w2 _ _ Ht2 Hle3 Hts3 Ha3).
Qed.

Lemma run_step_tracks s c w :
  patient w -> tracks c w ->
  patient (snd (run_step s (c, w)))
  /\ tracks (fst (run_step s (c, w))) (snd (run_step s (c, w)))
  /\ rate_limit_requests (fst (run_step s (c, w))) = rate_limit_requests c.
Proof.
  intros Hp Ht. destruct s as [m e|d]; cbn [run_step fst snd].
  - destruct (_make_request m e 0 c w) as [[[r c'] w']|] eqn:Hrun; [|auto].
    apply make_request_fuel_tracks in Hrun as (Ht' & Hnet & _ & Hlim); auto.
    cbn [fst snd]. split; [|auto]. intros k. rewrite Hnet. apply Hp.
  - split; [exact Hp|]. split; [|reflexivity].
    exact (tracks_later c w c (sleep d w) Ht (sleep_clock d w) eq_refl eq_refl).
Qed.

Lemma run_tracks steps : forall c w,
  patient w -> tracks c w ->
  tracks (fst (run steps (c, w))) (snd (run steps (c, w)))
  /\ rate_limit_requests (fst (run steps (c, w))) = rate_limit_requests c.
Proof.
  induction steps as [|s steps IH]; intros c w Hp Ht; [now cbn|].
  cbn [run fold_left]. fold (run steps (run_step s (c, w))).
  pose proof (run_step_tracks s c w Hp Ht) as (Hp1 & Ht1 & Hl1).
  destruct (run_step s (c, w)) as [c1 w1]. cbn [fst snd] in *.
  destruct (IH c1 w1 Hp1 Ht1) as [Ht' Hl']. split; [exact Ht' | congruence].
Qed.

(** C6 (as amended): a client with a limit of 60 per minute that makes
    its requests one after another counts a request when its response
    arrives. A request made when 60 or more responses arrived within the
    last 60 seconds raises "Rate limit exceeded" with no network call (the
    world, and so the call log, is unchanged); with fewer, and so once the
    responses are 60 seconds old, the request is admitted and goes to the
    network. *)
Theorem rate_limit_sliding_window
  (url : string) (retries : nat) (backoff : number) (w0 : world)
  (steps : list step) (m e : string) (rc : nat) :
  answered w0 = [] ->
  patient w0 ->
  let c := fst (run steps (init url retries backoff 60, w0)) in
  let w := snd (run steps (init url retries backoff 60, w0)) in
  let recent := filter (in_window (clock w)) (answered w) in
  ((60 <= length recent)%nat ->
     _make_request m e rc c w
     = Some (Raise RateLimitExceeded, set_timestamps recent c, w))
  /\ ((length recent < 60)%nat ->
      exists r c' w' rest,
        _make_request m e rc c w = Some (r, c', w')
        /\ net_log w' = net_log w ++ (m, e) :: rest).
Proof.
  intros Hfresh Hp c w recent.
  assert (Ht0 : tracks (init url retries backoff 60) w0)
    by (intros now _; cbn; now rewrite Hfresh).
  destruct (run_tracks steps _ _ Hp Ht0) as [Ht Hl].
  fold c w in Ht, Hl. change (rate_limit_requests c = 60%Z) in Hl.
  assert (Hrecent : filter (in_window (clock w)) (request_timestamps c) = recent)
    by (apply Ht, Qcle_refl).
  split.
  - intros Hfull. rewrite <- Hrecent. apply make_request_window_full.
    rewrite Hrecent, Hl. lia.
  - intros Hopen. apply make_request_window_open. rewrite Hrecent, Hl. lia.
Qed.

(** A coordinator that answers every call with 200 after half a second,
    and one that cannot be reached. *)
Definition steady_net (k : nat) : Qc * net_outcome :=
  (Q2Qc (1 # 2),
   Responded (mk_response 200 NoHeader false "ok" JSONDecodeError)).

Definition dead_net (k : nat) : Qc * net_outcome :=
  (Q2Qc (1 # 10), ClientError "Cannot connect to host").

Definition fresh_client : t := init "http://c" 5 (Float BackoffFacts.two) 60.
Definition fresh_world : world := mk_world 0 steady_net [] [].
Definition dead_world : world := mk_world 0 dead_net [] [].

(** Sixty requests back to back. *)
Definition burst : list step := replicate 60 (Request "GET" "/health").

Definition busy_client : t := fst (run burst (fresh_client, fresh_world)).
Definition busy_world : world := snd (run burst (fresh_client, fresh_world)).

Lemma rate_limit_sliding_window_witness :
  (exists c',
     _make_request "GET" "/health" 0 busy_client busy_world
     = Some (Raise RateLimitExceeded, c', busy_world))
  /\ length (net_log busy_world) = 60%nat
  /\ exists r c' w' rest,
       _make_request "GET" "/health" 0
         (fst (run (burst ++ [Wait (Qc_of_nat 60)]) (fresh_client, fresh_world)))
         (snd (run (burst ++ [Wait (Qc_of_nat 60)]) (fresh_client, fresh_world)))
       = Some (r, c', w')
       /\ net_log w' = net_log busy_world ++ ("GET", "/health") :: rest.
Proof.
  assert (Hp : patient fresh_world) by (intros k; discriminate).
  split; [|split].
  - eexists.
    apply (rate_limit_sliding_window "http://c" 5 (Float BackoffFacts.two)
             fresh_world burst "GET" "/health" 0 eq_refl Hp).
    vm_compute. lia.
  - vm_compute. reflexivity.
  - apply (rate_limit_sliding_window "http://c" 5 (Float BackoffFacts.two)
             fresh_world (burst ++ [Wait (Qc_of_nat 60)]) "GET" "/health" 0
             eq_refl Hp).
    vm_compute. lia.
Defined.

(** A client that does not retry. *)
Definition single_shot : t := init "http://c" 0 (Float BackoffFacts.two) 60.

(** C6, as stated, fails for requests that get no response: sixty
    requests in six seconds to a coordinator that cannot be reached are
    sixty network calls, none of them tracked, and the sixty-first
    request, still within the same minute, goes to the network as well.
    It also fails for requests in flight together: after 59 answered
    requests, a heartbeat and a metrics report that overlap both pass the
    check, so that 61 calls reach the network and are answered within 31
    seconds. *)
Lemma limit_passed_unanswered_or_in_flight :
  (let c := fst (run burst (single_shot, dead_world)) in
   let w := snd (run burst (single_shot, dead_world)) in
   length (net_log w) = 60%nat
   /\ clock w = Qc_of_nat 6
   /\ request_timestamps c = []
   /\ exists c' w',
        _make_request "GET" "/health" 0 c w
        = Some (Raise (NetworkError 0 "Cannot connect to host"), c', w')
        /\ length (net_log w') = 61%nat)
  /\ (let steps := replicate 59 (Request "GET" "/health") in
      let c := fst (run steps (fresh_client, fresh_world)) in
      let w := snd (run steps (fresh_client, fresh_world)) in
      exists act1 act2 c' w',
        overlapping "POST" "/api/nodes/heartbeat" "POST" "/api/nodes/metrics"
          c w = Some (act1, act2, c', w')
        /\ length (net_log w') = 61%nat
        /\ length (answered w') = 61%nat
        /\ length (request_timestamps c') = 61%nat
        /\ clock w' < Qc_of_nat 31).
Proof.
  cbv zeta. split.
  - split; [vm_compute; reflexivity|].
    split; [apply Qc_is_canon; vm_compute; reflexivity|].
    split; [vm_compute; reflexivity|].
    eexists _, _. split; vm_compute; reflexivity.
  - eexists _, _, _, _. split; [vm_compute; reflexivity|].
    repeat split; vm_compute; reflexivity.
Qed.

End RateLimitFacts.

(** ** Python exceptions and results *)

Module Py.

Inductive exn :=
| Exception (msg : string)
| RuntimeError (msg : string)
| ValueError (msg : string)
| KeyError (key : string)
| TypeError (msg : string)
| NameError (name : string)
| ConnectionClosed
| DockerException (msg : string).

Inductive res (A : Type) :=
| Ok (a : A)
| Raise (e : exn).

Arguments Ok {A} a.
Arguments Raise {A} e.

End Py.

(** ** docker_engine.py: [DockerEngine] *)

Module DockerEngine.

Import Py.

(** The bookkeeping entry [container_stats[id]]. *)
Record stats := mk_stats {
  created_at : Qc;
  task_id : option string;
  status : string;
  started_at : option Qc;
  stopped_at : option Qc;
  last_execution : option Qc
}.

(** The handle [docker.models.containers.Container] kept per container. *)
Record container := mk_container {
  name : string;
  image : string
}.

Record t := mk {
  max_containers : Z;
  active_containers : gmap string container;
  container_stats : gmap string stats
}.

(** Calls that reach the Docker daemon. *)
Inductive daemon_call :=
| ContainersCreate (name : string)
| ContainerStart (id : string)
| ContainerStop (id : string)
| ContainerRemove (id : string) (force : bool)
| ContainerExec (id : string)
| RemoveStale.

(** [DockerEngine.__init__] for [max_concurrent_containers = max]. *)
Definition init (max : Z) : t :=
  {| max_containers := max; active_containers := ∅; container_stats := ∅ |}.

Definition set_tracking (a : gmap string container) (s : gmap string stats)
    (e : t) : t :=
  {| max_containers := max_containers e;
     active_containers := a; container_stats := s |}.

(** [create_container]. [daemon] is what [self.client.containers.create]
    does when it is called: the id of the new container, or an error;
    [stamp] is [int(time.time())] in decimal, the name's suffix for a
    task without an id. *)
Definition create_container (task : option string) (stamp : string) (now : Qc)
    (img : string) (daemon : res string) (e : t) (log : list daemon_call)
  : res string * t * list daemon_call :=
  if bool_decide (max_containers e <= Z.of_nat (size (active_containers e)))%Z
  then (Raise (RuntimeError "Maximum number of containers reached"), e, log)
  else
    let container_name := "neurogrid-task-" +:+ default stamp task in
    let log := log ++ [ContainersCreate container_name] in
    match daemon with
    | Raise err => (Raise err, e, log)
    | Ok id =>
        let e := set_tracking
          (<[id := mk_container container_name img]> (active_containers e))
          (<[id := mk_stats now task "created" None None None]>
             (container_stats e)) e in
        (Ok id, e, log)
    end.

(** [start_container]; [daemon_ok] tells whether [container.start()]
    returns. A missing stats entry is a [KeyError] caught by the handler. *)
Definition start_container (id : string) (now : Qc) (daemon_ok : bool)
    (e : t) (log : list daemon_call) : res bool * t * list daemon_call :=
  match active_containers e !! id with
  | None => (Raise (ValueError ("Container not found: " +:+ id)), e, log)
  | Some _ =>
      let log := log ++ [ContainerStart id] in
      if daemon_ok then
        match container_stats e !! id with
        | Some s =>
            let s := mk_stats (created_at s) (task_id s) "running" (Some now)
                       (stopped_at s) (last_execution s) in
            (Ok true,
             set_tracking (active_containers e) (<[id := s]> (container_stats e)) e,
             log)
        | None => (Ok false, e, log)
        end
      else (Ok false, e, log)
  end.

(** [stop_container] *)
Definition stop_container (id : string) (now : Qc) (daemon_ok : bool)
    (e : t) (log : list daemon_call) : bool * t * list daemon_call :=
  match active_containers e !! id with
  | None => (true, e, log)
  | Some _ =>
      let log := log ++ [ContainerStop id] in
      if daemon_ok then
        match container_stats e !! id with
        | Some s =>
            let s := mk_stats (created_at s) (task_id s) "stopped" (started_at s)
                       (Some now) (last_execution s) in
            (true,
             set_tracking (active_containers e) (<[id := s]> (container_stats e)) e,
             log)
        | None => (false, e, log)
        end
      else (false, e, log)
  end.

(** What the daemon does during one [remove_container]: whether the
    handle says ['running'], whether [stop] and [remove] return. *)
Record removal := mk_removal {
  is_running : bool;
  stop_ok : bool;
  remove_ok : bool
}.

(** [remove_container] *)
Definition remove_container (id : string) (force : bool) (now : Qc)
    (d : removal) (e : t) (log : list daemon_call)
  : bool * t * list daemon_call :=
  match active_containers e !! id with
  | None => (true, e, log)
  | Some _ =>
      let '(e, log) :=
        if is_running d
        then let '(_, e, log) := stop_container id now (stop_ok d) e log in (e, log)
        else (e, log) in
      let log := log ++ [ContainerRemove id force] in
      if remove_ok d then
        (true,
         set_tracking (delete id (active_containers e))
                      (delete id (container_stats e)) e,
         log)
      else (false, e, log)
  end.

(** [execute_in_container], as far as the engine's own state goes:
    [daemon] is the parsed result or the error of the run. *)
Definition execute_in_container (id : string) (now : Qc) (daemon : res string)
    (e : t) (log : list daemon_call) : res string * t * list daemon_call :=
  match active_containers e !! id with
  | None => (Raise (ValueError ("Container not found: " +:+ id)), e, log)
  | Some _ =>
      let log := log ++ [ContainerExec id] in
      match container_stats e !! id with
      | Some s =>
          let s := mk_stats (created_at s) (task_id s) (status s) (started_at s)
                     (stopped_at s) (Some now) in
          (daemon,
           set_tracking (active_containers e) (<[id := s]> (container_stats e)) e,
           log)
      | None => (Raise (KeyError id), e, log)
      end
  end.

(** The loop of [cleanup] over [list(self.active_containers.keys())]. *)
Fixpoint remove_all (ids : list string) (now : Qc) (d : string -> removal)
    (e : t) (log : list daemon_call) : t * list daemon_call :=
  match ids with
  | [] => (e, log)
  | id :: ids =>
      let '(_, e, log) := remove_container id true now (d id) e log in
      remove_all ids now d e log
  end.

(** [cleanup] *)
Definition cleanup (now : Qc) (d : string -> removal)
    (e : t) (log : list daemon_call) : t * list daemon_call :=
  let '(e, log) :=
    remove_all (map fst (map_to_list (active_containers e))) now d e log in
  (e, log ++ [RemoveStale]).

(** One call of the engine's interface, with what the daemon does. *)
Inductive op :=
| Create (task : option string) (stamp img : string) (daemon : res string)
| Start (id : string) (daemon_ok : bool)
| Stop (id : string) (daemon_ok : bool)
| Remove (id : string) (force : bool) (d : removal)
| Execute (id : string) (daemon : res string)
| Cleanup (d : string -> removal).

Definition step (now : Qc) (o : op) (st : t * list daemon_call)
  : t * list daemon_call :=
  let '(e, log) := st in
  match o with
  | Create task stamp img daemon =>
      let '(_, e, log) := create_container task stamp now img daemon e log in
      (e, log)
  | Start id ok => let '(_, e, log) := start_container id now ok e log in (e, log)
  | Stop id ok => let '(_, e, log) := stop_container id now ok e log in (e, log)
  | Remove id force d =>
      let '(_, e, log) := remove_container id force now d e log in (e, log)
  | Execute id daemon =>
      let '(_, e, log) := execute_in_container id now daemon e log in (e, log)
  | Cleanup d => cleanup now d e log
  end.

(** A history of calls, each at its clock reading. *)
Definition run (ops : list (Qc * op)) (st : t * list daemon_call)
  : t * list daemon_call :=
  fold_left (fun st '(now, o) => step now o st) ops st.

(** The number of live instances is the size of [active_containers]. *)
Definition live (e : t) : Z := Z.of_nat (size (active_containers e)).

Definition bounded (e : t) : Prop := (live e <= max_containers e)%Z.

End DockerEngine.

(** *** The cap on live containers *)

Module DockerFacts.

Import Py DockerEngine.

(** An operation that keeps the maximum and does not add a container. *)
Definition no_growth (e e' : t) : Prop :=
  max_containers e' = max_containers e
  /\ (size (active_containers e') <= size (active_containers e))%nat.

Lemma no_growth_refl e : no_growth e e.
Proof. split; [reflexivity | lia]. Qed.

Lemma no_growth_trans e1 e2 e3 :
  no_growth e1 e2 -> no_growth e2 e3 -> no_growth e1 e3.
Proof. intros [? ?] [? ?]. split; [congruence | lia]. Qed.

Lemma no_growth_bounded e e' : no_growth e e' -> bounded e -> bounded e'.
Proof. unfold bounded, live. intros [-> ?] ?. lia. Qed.

Lemma start_container_no_growth id now ok e log :
  no_growth e (snd (fst (start_container id now ok e log))).
Proof.
  unfold start_container.
  destruct (active_containers e !! id), ok, (container_stats e !! id);
    (split; [reflexivity | cbn; lia]).
Qed.

Lemma stop_container_no_growth id now ok e log :
  no_growth e (snd (fst (stop_container id now ok e log))).
Proof.
  unfold stop_container.
  destruct (active_containers e !! id), ok, (container_stats e !! id);
    (split; [reflexivity | cbn; lia]).
Qed.

Lemma execute_in_container_no_growth id now d e log :
  no_growth e (snd (fst (execute_in_container id now d e log))).
Proof.
  unfold execute_in_container.
  destruct (active_containers e !! id), (container_stats e !! id);
    (split; [reflexivity | cbn; lia]).
Qed.

Lemma remove_container_no_growth id force now d e log :
  no_growth e (snd (fst (remove_container id force now d e log))).
Proof.
  unfold remove_container.
  destruct (active_containers e !! id) as [c|]; [|apply no_growth_refl].
  pose proof (stop_container_no_growth id now (stop_ok d) e log) as Hstop.
  destruct (is_running d).
  - destruct (stop_container id now (stop_ok d) e log) as [[b e1] log1].
    cbn [fst snd] in *. destruct (remove_ok d); [|exact Hstop].
    eapply no_growth_trans; [exact Hstop|]. split; [reflexivity|].
    cbn. rewrite map_size_delete. destruct (_ !! _); cbn; lia.
  - destruct (remove_ok d); [|apply no_growth_refl].
    split; [reflexivity|].
    cbn. rewrite map_size_delete. destruct (_ !! _); cbn; lia.
Qed.

Lemma remove_all_no_growth ids now d : forall e log,
  no_growth e (fst (remove_all ids now d e log)).
Proof.
  induction ids as [|id ids IH]; intros e log; [apply no_growth_refl|].
  cbn [remove_all].
  pose proof (remove_container_no_growth id true now (d id) e log) as Hrm.
  destruct (remove_container id true now (d id) e log) as [[b e1] log1].
  eapply no_growth_trans; [exact Hrm | apply IH].
Qed.

Lemma cleanup_no_growth now d e log :
  no_growth e (fst (cleanup now d e log)).
Proof.
  unfold cleanup.
  pose proof (remove_all_no_growth
    (map fst (map_to_list (active_containers e))) now d e log) as Hall.
  destruct (remove_all _ now d e log) as [e1 log1]. exact Hall.
Qed.

(** At the cap [create_container] raises, changes nothing and does not
    reach the daemon. *)
Lemma create_container_at_cap task stamp now img daemon e log :
  (max_containers e <= live e)%Z ->
  create_container task stamp now img daemon e log
  = (Raise (RuntimeError "Maximum number of containers reached"), e, log).
Proof.
  intros Hcap. unfold create_container, live in *.
  now rewrite bool_decide_true by exact Hcap.
Qed.

Lemma create_container_bounded task stamp now img daemon e log :
  bounded e ->
  bounded (snd (fst (create_container task stamp now img daemon e log))).
Proof.
  unfold bounded, live, create_container. intros Hb.
  case_bool_decide as Hcap; [exact Hb|].
  destruct daemon as [id|err]; [|exact Hb].
  cbn. rewrite map_size_insert. destruct (_ !! _); cbn; lia.
Qed.

Lemma step_bounded now o e log :
  bounded e -> bounded (fst (step now o (e, log))).
Proof.
  intros Hb. destruct o as [task stamp img d|id ok|id ok|id force d|id d|d];
    cbn [step].
  - pose proof (create_container_bounded task stamp now img d e log Hb) as H.
    destruct (create_container _ _ _ _ _ _ _) as [[r e1] log1]. exact H.
  - pose proof (start_container_no_growth id now ok e log) as H.
    destruct (start_container _ _ _ _ _) as [[r e1] log1].
    exact (no_growth_bounded _ _ H Hb).
  - pose proof (stop_container_no_growth id now ok e log) as H.
    destruct (stop_container _ _ _ _ _) as [[r e1] log1].
    exact (no_growth_bounded _ _ H Hb).
  - pose proof (remove_container_no_growth id force now d e log) as H.
    destruct (remove_container _ _ _ _ _ _) as [[r e1] log1].
    exact (no_growth_bounded _ _ H Hb).
  - pose proof (execute_in_container_no_growth id now d e log) as H.
    destruct (execute_in_container _ _ _ _ _) as [[r e1] log1].
    exact (no_growth_bounded _ _ H Hb).
  - exact (no_growth_bounded _ _ (cleanup_no_growth now d e log) Hb).
Qed.

Lemma run_bounded ops : forall e log,
  bounded e -> bounded (fst (run ops (e, log))).
Proof.
  induction ops as [|[now o] ops IH]; intros e log Hb; [exact Hb|].
  unfold run. cbn [fold_left].
  pose proof (step_bounded now o e log Hb) as Hstep.
  destruct (step now o (e, log)) as [e1 log1]. apply IH, Hstep.
Qed.

Lemma init_bounded max : (0 <= max)%Z -> bounded (init max).
Proof. unfold bounded, live. cbn. rewrite map_size_empty. lia. Qed.

(** C7: the engine starts within the cap, every history of engine calls
    (whatever the daemon does) keeps the number of tracked containers within
    it, and a [create_container] made when the count has reached the
    maximum raises at once: the engine is unchanged and the daemon is
    not called. *)
Theorem live_containers_never_exceed_max
  (max : Z) (ops : list (Qc * op)) :
  (0 <= max)%Z ->
  let st := run ops (init max, []) in
  bounded (fst st)
  /\ max_containers (fst st) = max
  /\ (forall now o, bounded (fst (step now o st)))
  /\ (forall task stamp now img daemon,
        live (fst st) = max ->
        create_container task stamp now img daemon (fst st) (snd st)
        = (Raise (RuntimeError "Maximum number of containers reached"),
           fst st, snd st)).
Proof.
  intros Hmax st.
  assert (Hb : bounded (fst st)) by (apply run_bounded, init_bounded, Hmax).
  assert (Hm : max_containers (fst st) = max).
  { unfold st. clear. generalize (@nil daemon_call).
    change max with (max_containers (init max)) at 2.
    generalize (init max).
    induction ops as [|[now o] ops IH]; intros e log; [reflexivity|].
    unfold run. cbn [fold_left]. fold (run ops (step now o (e, log))).
    destruct (step now o (e, log)) as [e1 log1] eqn:Hs.
    rewrite IH. 
    destruct o; cbn [step] in Hs.
    - unfold create_container in Hs. case_bool_decide; [congruence|].
      destruct daemon; inversion Hs; reflexivity.
    - pose proof (start_container_no_growth id now daemon_ok e log) as [H _].
      destruct (start_container _ _ _ _ _) as [[r e2] l2]. inversion Hs; subst.
      exact H.
    - pose proof (stop_container_no_growth id now daemon_ok e log) as [H _].
      destruct (stop_container _ _ _ _ _) as [[r e2] l2]. inversion Hs; subst.
      exact H.
    - pose proof (remove_container_no_growth id force now d e log) as [H _].
      destruct (remove_container _ _ _ _ _ _) as [[r e2] l2]. inversion Hs; subst.
      exact H.
    - pose proof (execute_in_container_no_growth id now daemon e log) as [H _].
      destruct (execute_in_container _ _ _ _ _) as [[r e2] l2].
      inversion Hs; subst. exact H.
    - pose proof (cleanup_no_growth now d e log) as [H _].
      rewrite Hs in H. exact H. }
  split; [exact Hb|]. split; [exact Hm|]. split.
  - intros now o. destruct st as [e log]. apply step_bounded, Hb.
  - intros task stamp now img daemon Hlive.
    apply create_container_at_cap. rewrite Hm, Hlive. lia.
Qed.

Definition three_creates : list (Qc * op) :=
  [ (Q2Qc 1, Create (Some "t1") "1" "neurogrid/ai-worker:latest" (Ok "c1"));
    (Q2Qc 2, Create (Some "t2") "2" "neurogrid/ai-worker:latest" (Ok "c2"));
    (Q2Qc 3, Create None "3" "neurogrid/ai-worker:latest" (Ok "c3")) ].

Lemma live_containers_never_exceed_max_witness :
  let st := run three_creates (init 3, []) in
  (0 <= 3)%Z
  /\ bounded (fst st)
  /\ live (fst st) = 3%Z
  /\ snd st = [ContainersCreate "neurogrid-task-t1";
               ContainersCreate "neurogrid-task-t2";
               ContainersCreate "neurogrid-task-3"]
  /\ create_container (Some "t4") "4" (Q2Qc 4) "neurogrid/ai-worker:latest"
        (Ok "c4") (fst st) (snd st)
      = (Raise (RuntimeError "Maximum number of containers reached"),
         fst st, snd st).
Proof.
  intros st.
  assert (H3 : (0 <= 3)%Z) by lia.
  assert (Hlive : live (fst st) = 3%Z) by (vm_compute; reflexivity).
  pose proof (live_containers_never_exceed_max 3 three_creates H3)
    as (Hb & _ & _ & Hcap).
  split; [exact H3|]. split; [exact Hb|]. split; [exact Hlive|].
  split; [vm_compute; reflexivity|].
  apply Hcap, Hlive.
Defined.

End DockerFacts.

(** ** crypto.py: [CryptoManager] *)

(** *** Byte strings *)

Module Bytes.

(** [bytes]: a list of integers in [0, 256). *)
Abbreviation bytes := (list Z).

(** The slice [b[lo:hi]] for [0 <= lo]. *)
Definition slice (lo hi : nat) (b : bytes) : bytes := take (hi - lo) (drop lo b).

(** [n.to_bytes(4, 'big')]; [OverflowError] when [n] needs more than 4 bytes. *)
Definition to_bytes4 (n : nat) : option bytes :=
  let z := Z.of_nat n in
  if bool_decide (z < 2 ^ 32)%Z then
    Some [ (z / 2 ^ 24) `mod` 256; (z / 2 ^ 16) `mod` 256;
           (z / 2 ^ 8) `mod` 256; z `mod` 256 ]%Z
  else None.

(** [int.from_bytes(b, 'big')] *)
Definition from_bytes (b : bytes) : nat :=
  Z.to_nat (fold_left (fun acc x => acc * 256 + x)%Z b 0%Z).

(** [os.urandom]: the source of randomness is an endless stream of bytes;
    [urandom n] takes the next [n] of them. *)
Definition entropy := nat -> Z.

Definition urandom (n : nat) (e : entropy) : bytes * entropy :=
  (map e (seq 0 n), fun k => e (n + k)%nat).

Lemma urandom_length n e : length (fst (urandom n e)) = n.
Proof. cbn. now rewrite length_map, length_seq. Qed.

Lemma from_to_bytes4 n b : to_bytes4 n = Some b -> from_bytes b = n.
Proof.
  unfold to_bytes4. case_bool_decide as Hn; [|discriminate].
  intros [= <-]. unfold from_bytes. cbn [fold_left].
  set (z := Z.of_nat n) in *.
  assert (Hz : (0 <= z)%Z) by (unfold z; lia).
  assert (H : (((((0 * 256 + (z / 2 ^ 24) `mod` 256) * 256
             + (z / 2 ^ 16) `mod` 256) * 256
             + (z / 2 ^ 8) `mod` 256) * 256 + z `mod` 256) = z)%Z).
  { assert (z / 2 ^ 24 < 256)%Z by (apply Z.div_lt_upper_bound; lia).
    rewrite (Z.mod_small (z / 2 ^ 24)) by (split; [apply Z.div_pos|]; lia).
    change (2 ^ 24)%Z with (256 * 256 * 256)%Z.
    change (2 ^ 16)%Z with (256 * 256)%Z.
    change (2 ^ 8)%Z with 256%Z.
    rewrite <- !Z.div_div by lia.
    pose proof (Z.div_mod z 256). pose proof (Z.div_mod (z / 256) 256).
    pose proof (Z.div_mod (z / 256 / 256) 256). lia. }
  rewrite H. unfold z. lia.
Qed.

Lemma to_bytes4_length n b : to_bytes4 n = Some b -> length b = 4%nat.
Proof.
  unfold to_bytes4. case_bool_decide; [|discriminate]. now intros [= <-].
Qed.

End Bytes.

(** *** The libraries behind crypto.py *)

Module CryptoLibs.

Import Py Bytes.

(** A value of a JWT claims dict. *)
Inductive jvalue :=
| JNum (q : Qc)
| JStr (s : string)
| JOther (repr : string).

(** What [jwt.decode] does with a token. *)
Inductive decode_result :=
| Decoded (claims : gmap string jvalue)
| ExpiredSignatureError
| InvalidTokenError (msg : string)     (* any other [InvalidTokenError] *)
| DecodeRaised (e : exn).              (* an exception outside that class *)

(** The operations crypto.py takes from [cryptography] (RSA-OAEP with
    MGF1/SHA-256 on 2048-bit keys, AES-GCM, PEM), [jwt], [json], [base64]
    and [str]/[bytes] conversion. *)
Class Libs := {
  PrivKey : Type;
  PubKey : Type;
  PyObj : Type;                      (* dicts and parsed JSON values *)
  Token : Type;                      (* what [jwt.encode] returns *)
  public_key_of : PrivKey -> PubKey;
  rsa_generate : entropy -> PrivKey * entropy;
  rsa_encrypt : PubKey -> bytes -> bytes -> res bytes;   (* key, seed, data *)
  rsa_decrypt : PrivKey -> bytes -> res bytes;
  aes_gcm_encrypt : bytes -> bytes -> bytes -> bytes * bytes;
                                     (* key, iv, data: ciphertext and tag *)
  aes_gcm_decrypt : bytes -> bytes -> bytes -> bytes -> res bytes;
                                     (* key, iv, tag, ciphertext *)
  pem_private : PrivKey -> bytes;
  pem_public : PubKey -> bytes;
  load_pem_private : bytes -> option PrivKey;
  load_pem_public : bytes -> option PubKey;
  jwt_encode : gmap string jvalue -> string -> Token;
  jwt_decode : Token -> string -> Qc -> decode_result;  (* token, key, now *)
  json_dumps : PyObj -> res string;
  json_loads : string -> option PyObj;
  b64encode : bytes -> string;
  b64decode : string -> res bytes;
  utf8_encode : string -> bytes;
  utf8_decode : bytes -> res string
}.

(** The contract of RSA-OAEP(SHA-256) on a 2048-bit key pair and of
    AES-256-GCM with a 16-byte IV. *)
Class CipherLaws (L : Libs) : Prop := {
  rsa_roundtrip : forall (priv : PrivKey) (seed m : bytes),
    (length m <= 190)%nat ->
    exists c, rsa_encrypt (public_key_of priv) seed m = Ok c
              /\ length c = 256%nat
              /\ rsa_decrypt priv c = Ok m;
  aes_roundtrip : forall (key iv m : bytes),
    length key = 32%nat -> length iv = 16%nat ->
    length (snd (aes_gcm_encrypt key iv m)) = 16%nat
    /\ aes_gcm_decrypt key iv (snd (aes_gcm_encrypt key iv m))
         (fst (aes_gcm_encrypt key iv m)) = Ok m
}.

(** The contract of [jwt.decode(..., options={"verify_exp": True})] on a
    token whose signature verifies and whose expiry is past: it is
    refused, with [ExpiredSignatureError] or, when a claim that is
    checked before the expiry is at fault, another [InvalidTokenError]. *)
Class JwtLaws (L : Libs) : Prop := {
  decode_expired : forall claims key now exp,
    claims !! "exp" = Some (JNum exp) ->
    (exp < now)%Qc ->
    jwt_decode (jwt_encode claims key) key now = ExpiredSignatureError
    \/ exists msg,
         jwt_decode (jwt_encode claims key) key now = InvalidTokenError msg
}.

(** [hmac.new(key, msg, digest).digest()] for a digest with 64-byte
    blocks (RFC 2104): a key longer than a block is hashed first, a
    shorter one is filled up with zero bytes. *)
Definition hmac (digest : bytes -> bytes) (key msg : bytes) : bytes :=
  let key := if bool_decide (64 < length key)%nat then digest key else key in
  let block := key ++ replicate (64 - length key) 0%Z in
  digest (map (Z.lxor 92) block ++ digest (map (Z.lxor 54) block ++ msg)).


(** HS256 as PyJWT signs and verifies: the signature of a token is the
    HMAC-SHA256, under the UTF-8 bytes of the key, of its signing input
    (header and claims); [jwt.encode] depends on the key through the
    signature only, and [jwt.decode] refuses a token whose signature is
    not the one its own key gives. [usable_key] holds of the strings
    PyJWT takes as an HMAC secret (it turns down PEM and SSH keys). *)
Class Hs256 (L : Libs) := {
  sha256 : bytes -> bytes;
  signing_input : gmap string jvalue -> bytes;
  usable_key : string -> Prop;
  encode_signature : forall claims key key',
    hmac sha256 (utf8_encode key) (signing_input claims)
    = hmac sha256 (utf8_encode key') (signing_input claims) ->
    jwt_encode claims key = jwt_encode claims key';
  decode_bad_signature : forall claims key key' now,
    usable_key key' ->
    hmac sha256 (utf8_encode key) (signing_input claims)
    <> hmac sha256 (utf8_encode key') (signing_input claims) ->
    exists msg,
      jwt_decode (jwt_encode claims key) key' now = InvalidTokenError msg
}.


End CryptoLibs.

(** *** [CryptoManager] *)

Module CryptoManager.

Import Py Bytes CryptoLibs.

Section WithLibs.

Context {L : Libs}.

Record t := mk {
  encryption_enabled : bool;
  symmetric_key : option bytes;
  private_key : option PrivKey;
  public_key : option PubKey;
  jwt_secret : string;
  jwt_expiry_hours : Z
}.

(** The argument of [encrypt_data]: [Union[str, bytes, Dict]]. *)
Inductive data :=
| DStr (s : string)
| DBytes (b : bytes)
| DDict (d : PyObj).

(** [json.dumps] refuses [bytes]. *)
Definition bytes_not_serializable : exn :=
  TypeError "Object of type bytes is not JSON serializable".

Inductive method := Symmetric | Asymmetric | Unknown (name : string).

(** [_encrypt_symmetric]: IV + tag + ciphertext. *)
Definition _encrypt_symmetric (cm : t) (e : entropy) (d : bytes)
  : res bytes * entropy :=
  match symmetric_key cm with
  | Some (k0 :: k) =>
      let '(iv, e) := urandom 16 e in
      let '(ciphertext, tag) := aes_gcm_encrypt (k0 :: k) iv d in
      (Ok (iv ++ tag ++ ciphertext), e)
  | _ => (Raise (RuntimeError "Symmetric key not available"), e)
  end.

(** [_decrypt_symmetric] *)
Definition _decrypt_symmetric (cm : t) (c : bytes) : res bytes :=
  match symmetric_key cm with
  | Some (k0 :: k) =>
      aes_gcm_decrypt (k0 :: k) (slice 0 16 c) (slice 16 32 c) (drop 32 c)
  | _ => Raise (RuntimeError "Symmetric key not available")
  end.

(** [_hybrid_encrypt]: a one-time AES key and IV, the key wrapped with
    RSA-OAEP (which draws its own 32-byte seed). *)
Definition _hybrid_encrypt (pub : PubKey) (e : entropy) (d : bytes)
  : res bytes * entropy :=
  let '(aes_key, e) := urandom 32 e in
  let '(iv, e) := urandom 16 e in
  let '(ciphertext, tag) := aes_gcm_encrypt aes_key iv d in
  let '(seed, e) := urandom 32 e in
  match rsa_encrypt pub seed aes_key with
  | Raise err => (Raise err, e)
  | Ok encrypted_key =>
      match to_bytes4 (length encrypted_key) with
      | None => (Raise (Exception "OverflowError"), e)
      | Some len4 => (Ok (len4 ++ encrypted_key ++ iv ++ tag ++ ciphertext), e)
      end
  end.

(** [_encrypt_asymmetric] *)
Definition _encrypt_asymmetric (cm : t) (e : entropy) (d : bytes)
  : res bytes * entropy :=
  match public_key cm with
  | None => (Raise (RuntimeError "Public key not available"), e)
  | Some pub =>
      if bool_decide (190 < length d)%nat then _hybrid_encrypt pub e d
      else
        let '(seed, e) := urandom 32 e in
        (rsa_encrypt pub seed d, e)
  end.

(** [_hybrid_decrypt] *)
Definition _hybrid_decrypt (priv : PrivKey) (c : bytes) : res bytes :=
  let key_length := from_bytes (slice 0 4 c) in
  let encrypted_key := slice 4 (4 + key_length) c in
  let iv := slice (4 + key_length) (4 + key_length + 16) c in
  let tag := slice (4 + key_length + 16) (4 + key_length + 32) c in
  let ciphertext := drop (4 + key_length + 32) c in
  match rsa_decrypt priv encrypted_key with
  | Raise err => Raise err
  | Ok aes_key => aes_gcm_decrypt aes_key iv tag ciphertext
  end.

(** [_decrypt_asymmetric] *)
Definition _decrypt_asymmetric (cm : t) (c : bytes) : res bytes :=
  match private_key cm with
  | None => Raise (RuntimeError "Private key not available")
  | Some priv =>
      if bool_decide (256 < length c)%nat then _hybrid_decrypt priv c
      else rsa_decrypt priv c
  end.

(** [encrypt_data] *)
Definition encrypt_data (cm : t) (e : entropy) (d : data) (m : method)
  : res string * entropy :=
  if negb (encryption_enabled cm) then
    (match d with
     | DStr s => Ok s
     | DBytes _ => Raise bytes_not_serializable     (* json.dumps(data) *)
     | DDict o => json_dumps o
     end, e)
  else
    let data_bytes :=
      match d with
      | DDict o => match json_dumps o with
                   | Ok s => Ok (utf8_encode s)
                   | Raise err => Raise err
                   end
      | DStr s => Ok (utf8_encode s)
      | DBytes b => Ok b
      end in
    match data_bytes with
    | Raise err => (Raise err, e)
    | Ok b =>
        let '(encrypted, e) :=
          match m with
          | Symmetric => _encrypt_symmetric cm e b
          | Asymmetric => _encrypt_asymmetric cm e b
          | Unknown name =>
              (Raise (ValueError ("Unknown encryption method: " +:+ name)), e)
          end in
        match encrypted with
        | Raise err => (Raise err, e)
        | Ok c => (Ok (b64encode c), e)
        end
    end.

(** What [decrypt_data] returns: [Union[str, Dict]]. *)
Inductive plain :=
| PStr (s : string)
| PObj (o : PyObj).

(** [decrypt_data] *)
Definition decrypt_data (cm : t) (encrypted_data : string) (m : method)
  : res plain :=
  if negb (encryption_enabled cm) then Ok (PStr encrypted_data)
  else
    match b64decode encrypted_data with
    | Raise err => Raise err
    | Ok encrypted_bytes =>
        let decrypted :=
          match m with
          | Symmetric => _decrypt_symmetric cm encrypted_bytes
          | Asymmetric => _decrypt_asymmetric cm encrypted_bytes
          | Unknown name =>
              Raise (ValueError ("Unknown decryption method: " +:+ name))
          end in
        match decrypted with
        | Raise err => Raise err
        | Ok b =>
            match utf8_decode b with
            | Raise err => Raise err
            | Ok s => match json_loads s with
                      | Some o => Ok (PObj o)
                      | None => Ok (PStr s)
                      end
            end
        end
    end.

(** [create_jwt_token]: the caller's claims override the standard ones. *)
Definition create_jwt_token (cm : t) (payload : gmap string jvalue)
    (expiry_hours : option Z) (now : Qc) : Token :=
  let hours := default (jwt_expiry_hours cm) expiry_hours in
  let jwt_payload : gmap string jvalue :=
    payload ∪ {[ "iat" := JNum now;
                 "exp" := JNum (now + Q2Qc (inject_Z (hours * 3600)))%Qc;
                 "iss" := JStr "neurogrid-node" ]} in
  jwt_encode jwt_payload (jwt_secret cm).

(** [verify_jwt_token]: [None] for an expired or otherwise invalid token. *)
Definition verify_jwt_token (cm : t) (token : Token) (now : Qc)
  : res (option (gmap string jvalue)) :=
  match jwt_decode token (jwt_secret cm) now with
  | Decoded claims => Ok (Some claims)
  | ExpiredSignatureError => Ok None
  | InvalidTokenError _ => Ok None
  | DecodeRaised err => Raise err
  end.

(** The key directory: its files by name, its [backup_<timestamp>]
    subdirectories, and whether it can be written to. *)
Record fs := mk_fs {
  files : gmap string bytes;
  backups : gmap Z (gmap string bytes);
  writable : bool
}.

Definition write_files (new : gmap string bytes) (f : fs) : fs :=
  {| files := new ∪ files f; backups := backups f; writable := writable f |}.

(** [_load_or_generate_symmetric_key]: an existing 32-byte file is
    reused; otherwise a key is drawn and saved, a failure to save being
    logged only. *)
Definition _load_or_generate_symmetric_key (f : fs) (e : entropy)
  : bytes * fs * entropy :=
  let generate :=
    let '(key, e) := urandom 32 e in
    (key,
     if writable f then write_files {[ "symmetric.key" := key ]} f else f,
     e) in
  match files f !! "symmetric.key" with
  | Some key_data =>
      if bool_decide (length key_data = 32%nat) then (key_data, f, e)
      else generate
  | None => generate
  end.

(** [_load_or_generate_rsa_keys] *)
Definition _load_or_generate_rsa_keys (f : fs) (e : entropy)
  : (PrivKey * PubKey) * fs * entropy :=
  let generate :=
    let '(private, e) := rsa_generate e in
    let public := public_key_of private in
    ((private, public),
     if writable f
     then write_files {[ "private.pem" := pem_private private;
                         "public.pem" := pem_public public ]} f
     else f,
     e) in
  match files f !! "private.pem", files f !! "public.pem" with
  | Some priv_pem, Some pub_pem =>
      match load_pem_private priv_pem, load_pem_public pub_pem with
      | Some private, Some public => ((private, public), f, e)
      | _, _ => generate
      end
  | _, _ => generate
  end.

(** Whether [name] matches the pattern [*suffix]. *)
Definition ends_with (suffix name : string) : bool :=
  (String.length suffix <=? String.length name)%nat
  && String.eqb
       (String.substring (String.length name - String.length suffix)
                  (String.length suffix) name)
       suffix.

(** [self.crypto_dir.glob('*' + suffix)] *)
Definition glob (suffix : string) (f : fs) : list string :=
  filter (fun name => ends_with suffix name = true)
         (map fst (map_to_list (files f))).

(** [int(time.time())] *)
Definition py_int (q : Qc) : Z := Z.quot (Qnum q) (Z.pos (Qden q)).

(** [rotate_keys]. crypto.py never imports [shutil], so the first
    [shutil.copy2] of either loop raises [NameError]; the handler logs
    and re-raises. *)
Definition rotate_keys (cm : t) (now : Qc) (f : fs) (e : entropy)
  : res unit * t * fs * entropy :=
  if negb (writable f) then (Raise (Exception "PermissionError"), cm, f, e)
  else
    let stamp := py_int now in
    let f := {| files := files f;
                backups := match backups f !! stamp with
                           | Some _ => backups f
                           | None => <[stamp := ∅]> (backups f)
                           end;
                writable := writable f |} in
    match glob ".key" f, glob ".pem" f with
    | _ :: _, _ => (Raise (NameError "shutil"), cm, f, e)
    | [], _ :: _ => (Raise (NameError "shutil"), cm, f, e)
    | [], [] =>
        let '(key, f, e) := _load_or_generate_symmetric_key f e in
        let '((private, public), f, e) := _load_or_generate_rsa_keys f e in
        (Ok tt,
         {| encryption_enabled := encryption_enabled cm;
            symmetric_key := Some key;
            private_key := Some private;
            public_key := Some public;
            jwt_secret := jwt_secret cm;
            jwt_expiry_hours := jwt_expiry_hours cm |},
         f, e)
    end.

End WithLibs.

Arguments t L : clear implicits.
Arguments data L : clear implicits.
Arguments plain L : clear implicits.

End CryptoManager.

(** *** A small instance of the library interface *)

Module ToyLibs.

Import Py Bytes CryptoLibs.

(** "RSA": one length byte, the message, zero padding up to 256 bytes. *)
Definition toy_rsa_encrypt (_ : unit) (seed m : bytes) : res bytes :=
  if bool_decide (length m <= 190)%nat then
    Ok (Z.of_nat (length m) :: m ++ replicate (255 - length m) 0%Z)
  else Raise (ValueError "Encryption failed").

Definition toy_rsa_decrypt (_ : unit) (c : bytes) : res bytes :=
  match c with
  | n :: rest =>
      if bool_decide (length c = 256%nat) then Ok (take (Z.to_nat n) rest)
      else Raise (ValueError "Decryption failed")
  | [] => Raise (ValueError "Decryption failed")
  end.

(** "AES-GCM": the identity, with a tag of sixteen zero bytes. *)
Definition toy_aes_encrypt (key iv m : bytes) : bytes * bytes :=
  (m, replicate 16 0%Z).

Definition toy_aes_decrypt (key iv tag c : bytes) : res bytes :=
  if bool_decide (tag = replicate 16 0%Z) then Ok c
  else Raise (Exception "InvalidTag").

(** "JWT": the claims next to the signing key. *)
Definition toy_jwt_decode (token : gmap string jvalue * string) (key : string)
    (now : Qc) : decode_result :=
  if bool_decide (snd token = key) then
    match fst token !! "exp" with
    | Some (JNum exp) =>
        if bool_decide (exp < now)%Qc then ExpiredSignatureError
        else Decoded (fst token)
    | _ => Decoded (fst token)
    end
  else InvalidTokenError "Signature verification failed".

#[global] Instance toy : Libs := {|
  PrivKey := unit;
  PubKey := unit;
  PyObj := string;
  Token := gmap string jvalue * string;
  public_key_of := fun _ => tt;
  rsa_generate := fun e => (tt, e);
  rsa_encrypt := toy_rsa_encrypt;
  rsa_decrypt := toy_rsa_decrypt;
  aes_gcm_encrypt := toy_aes_encrypt;
  aes_gcm_decrypt := toy_aes_decrypt;
  pem_private := fun _ => [];
  pem_public := fun _ => [];
  load_pem_private := fun _ => Some tt;
  load_pem_public := fun _ => Some tt;
  jwt_encode := fun claims key => (claims, key);
  jwt_decode := toy_jwt_decode;
  json_dumps := fun o => Ok o;
  json_loads := fun s => Some s;
  b64encode := fun b => "";
  b64decode := fun s => Ok [];
  utf8_encode := fun s => [];
  utf8_decode := fun b => Ok ""
|}.

#[global] Instance toy_cipher_laws : CipherLaws toy.
Proof.
  split.
  - intros [] seed m Hm. cbn. unfold toy_rsa_encrypt.
    rewrite bool_decide_true by exact Hm.
    eexists. split; [reflexivity|]. split.
    + cbn. rewrite length_app, length_replicate. lia.
    + unfold toy_rsa_decrypt. rewrite bool_decide_true.
      * rewrite Nat2Z.id. now rewrite take_app_length.
      * cbn. rewrite length_app, length_replicate. lia.
  - intros key iv m _ _. cbn. split; [reflexivity|].
    unfold toy_aes_decrypt. now rewrite bool_decide_true.
Qed.

#[global] Instance toy_jwt_laws : JwtLaws toy.
Proof.
  split. intros claims key now exp Hexp Hlt. left. cbn.
  unfold toy_jwt_decode. cbn.
  rewrite bool_decide_true by reflexivity. rewrite Hexp.
  now rewrite bool_decide_true by exact Hlt.
Qed.

(** "UTF-8" for keys: one byte per character. *)
Definition key_bytes (s : string) : bytes :=
  map (fun a => Z.of_nat (Ascii.nat_of_ascii a)) (String.list_ascii_of_string s).

(** "SHA-256": the identity. The signing input: the names of the claims. *)
Definition toy_sha256 (b : bytes) : bytes := b.

Definition toy_signing_input (claims : gmap string jvalue) : bytes :=
  flat_map (fun kv => key_bytes (fst kv)) (map_to_list claims).

(** "JWT", signed: the claims next to their HS256 signature. *)
Definition signed_jwt_encode (claims : gmap string jvalue) (key : string)
  : gmap string jvalue * bytes :=
  (claims, hmac toy_sha256 (key_bytes key) (toy_signing_input claims)).

Definition signed_jwt_decode (token : gmap string jvalue * bytes)
    (key : string) (now : Qc) : decode_result :=
  if bool_decide (snd token = hmac toy_sha256 (key_bytes key)
                                (toy_signing_input (fst token))) then
    match fst token !! "exp" with
    | Some (JNum exp) =>
        if bool_decide (exp < now)%Qc then ExpiredSignatureError
        else Decoded (fst token)
    | _ => Decoded (fst token)
    end
  else InvalidTokenError "Signature verification failed".

Definition signed : Libs := {|
  PrivKey := unit;
  PubKey := unit;
  PyObj := string;
  Token := gmap string jvalue * bytes;
  public_key_of := fun _ => tt;
  rsa_generate := fun e => (tt, e);
  rsa_encrypt := toy_rsa_encrypt;
  rsa_decrypt := toy_rsa_decrypt;
  aes_gcm_encrypt := toy_aes_encrypt;
  aes_gcm_decrypt := toy_aes_decrypt;
  pem_private := fun _ => [];
  pem_public := fun _ => [];
  load_pem_private := fun _ => Some tt;
  load_pem_public := fun _ => Some tt;
  jwt_encode := signed_jwt_encode;
  jwt_decode := signed_jwt_decode;
  json_dumps := fun o => Ok o;
  json_loads := fun s => Some s;
  b64encode := fun b => "";
  b64decode := fun s => Ok [];
  utf8_encode := key_bytes;
  utf8_decode := fun b => Ok ""
|}.

#[global] Instance signed_jwt_laws : JwtLaws signed.
Proof.
  split. intros claims key now exp Hexp Hlt. left. cbn.
  unfold signed_jwt_decode, signed_jwt_encode. cbn [fst snd].
  rewrite bool_decide_true by reflexivity. rewrite Hexp.
  now rewrite bool_decide_true by exact Hlt.
Qed.

#[global] Instance signed_hs256 : Hs256 signed.
Proof.
  refine {| sha256 := toy_sha256; signing_input := toy_signing_input;
            usable_key := fun _ => True |}.
  - intros claims key key' Hmac. cbn in *. unfold signed_jwt_encode.
    now rewrite Hmac.
  - intros claims key key' now _ Hmac. cbn in *.
    unfold signed_jwt_decode, signed_jwt_encode. cbn [fst snd].
    rewrite bool_decide_false by exact Hmac. eauto.
Defined.

End ToyLibs.

(** *** Encryption switched off, and the asymmetric round trip *)

Module CryptoFacts.

Import Py Bytes CryptoLibs CryptoManager.

Lemma slice_app_l (a b : bytes) n : length a = n -> slice 0 n (a ++ b) = a.
Proof.
  intros <-. unfold slice. rewrite Nat.sub_0_r. cbn [drop].
  apply take_app_length.
Qed.

Lemma slice_app_skip (a b : bytes) lo hi :
  length a = lo -> slice lo hi (a ++ b) = take (hi - lo) b.
Proof. intros <-. unfold slice. now rewrite drop_app_length. Qed.

Lemma take_app_exact (a b : bytes) n : length a = n -> take n (a ++ b) = a.
Proof. intros <-. apply take_app_length. Qed.

Section WithLibs.

Context {L : Libs}.

(** X28: with [enable_encryption] false, [encrypt_data] returns a [str]
    argument itself and hands a dict to [json.dumps], whose result (or
    error) is what the caller gets, drawing no randomness;
    [decrypt_data] returns its argument. *)
Theorem encryption_disabled_passthrough
  (cm : t L) (e : entropy) (s : string) (o : PyObj) (m : method) :
  encryption_enabled cm = false ->
  encrypt_data cm e (DStr s) m = (Ok s, e)
  /\ encrypt_data cm e (DDict o) m = (json_dumps o, e)
  /\ decrypt_data cm s m = Ok (PStr s).
Proof.
  intros Hoff. unfold encrypt_data, decrypt_data. rewrite Hoff. cbn [negb].
  repeat split.
Qed.

(** With encryption off a [bytes] argument reaches [json.dumps], which
    raises. *)
Lemma encrypt_data_disabled_bytes (cm : t L) (e : entropy) (b : bytes) (m : method) :
  encryption_enabled cm = false ->
  encrypt_data cm e (DBytes b) m = (Raise bytes_not_serializable, e).
Proof. intros Hoff. unfold encrypt_data. now rewrite Hoff. Qed.

Context {HL : CipherLaws L}.

(** The layout [_hybrid_decrypt] reads back. *)
Lemma hybrid_decrypt_layout (priv : PrivKey)
    (len4 wrapped iv tag ciphertext aes_key : bytes) :
  to_bytes4 (length wrapped) = Some len4 ->
  length iv = 16%nat -> length tag = 16%nat ->
  rsa_decrypt priv wrapped = Ok aes_key ->
  _hybrid_decrypt priv (len4 ++ wrapped ++ iv ++ tag ++ ciphertext)
  = aes_gcm_decrypt aes_key iv tag ciphertext.
Proof.
  intros Hlen Hiv Htag Hrsa.
  pose proof (to_bytes4_length _ _ Hlen) as H4.
  pose proof (from_to_bytes4 _ _ Hlen) as Hfrom.
  unfold _hybrid_decrypt.
  rewrite (slice_app_l len4 _ 4 H4), Hfrom.
  set (n := length wrapped).
  rewrite (slice_app_skip len4 _ 4 (4 + n) H4).
  replace (4 + n - 4)%nat with n by lia.
  rewrite (take_app_exact wrapped _ n eq_refl), Hrsa.
  assert (H1 : length (len4 ++ wrapped) = (4 + n)%nat)
    by (rewrite length_app; unfold n; lia).
  assert (H2 : length (len4 ++ wrapped ++ iv) = (4 + n + 16)%nat)
    by (rewrite !length_app; unfold n; lia).
  assert (H3 : length (len4 ++ wrapped ++ iv ++ tag) = (4 + n + 32)%nat)
    by (rewrite !length_app; unfold n; lia).
  replace (len4 ++ wrapped ++ iv ++ tag ++ ciphertext)
    with ((len4 ++ wrapped) ++ iv ++ tag ++ ciphertext) at 1
    by now rewrite <- app_assoc.
  rewrite (slice_app_skip _ _ _ _ H1).
  replace (4 + n + 16 - (4 + n))%nat with 16%nat by lia.
  rewrite (take_app_exact iv _ 16 Hiv).
  replace (len4 ++ wrapped ++ iv ++ tag ++ ciphertext)
    with ((len4 ++ wrapped ++ iv) ++ tag ++ ciphertext) at 1
    by now rewrite <- !app_assoc.
  rewrite (slice_app_skip _ _ _ _ H2).
  replace (4 + n + 32 - (4 + n + 16))%nat with 16%nat by lia.
  rewrite (take_app_exact tag _ 16 Htag).
  replace (len4 ++ wrapped ++ iv ++ tag ++ ciphertext)
    with ((len4 ++ wrapped ++ iv ++ tag) ++ ciphertext)
    by now rewrite <- !app_assoc.
  rewrite <- H3. now rewrite drop_app_length.
Qed.

(** C2: for a manager holding a matching RSA-2048 key pair, decrypting
    what [_encrypt_asymmetric] returns gives the payload back, whatever
    its size and the random bytes drawn. Up to 190 bytes the ciphertext is
    the RSA-OAEP encryption of the payload; above, it is the 4-byte
    big-endian length of the wrapped one-time key, the wrapped key, the
    16-byte IV, the 16-byte tag and the AES-GCM ciphertext. *)
Theorem asymmetric_roundtrip
  (cm : t L) (priv : PrivKey) (e : entropy) (x : bytes) :
  private_key cm = Some priv ->
  public_key cm = Some (public_key_of priv) ->
  exists c,
    fst (_encrypt_asymmetric cm e x) = Ok c
    /\ _decrypt_asymmetric cm c = Ok x
    /\ ((length x <= 190)%nat ->
        exists seed, rsa_encrypt (public_key_of priv) seed x = Ok c)
    /\ ((190 < length x)%nat ->
        exists aes_key iv seed wrapped len4,
          length aes_key = 32%nat /\ length iv = 16%nat
          /\ rsa_encrypt (public_key_of priv) seed aes_key = Ok wrapped
          /\ to_bytes4 (length wrapped) = Some len4
          /\ length len4 = 4%nat
          /\ length (snd (aes_gcm_encrypt aes_key iv x)) = 16%nat
          /\ c = len4 ++ wrapped ++ iv
                 ++ snd (aes_gcm_encrypt aes_key iv x)
                 ++ fst (aes_gcm_encrypt aes_key iv x)).
Proof.
  intros Hpriv Hpub. unfold _encrypt_asymmetric, _decrypt_asymmetric.
  rewrite Hpriv, Hpub. case_bool_decide as Hsize.
  - (* hybrid *)
    unfold _hybrid_encrypt.
    destruct (urandom 32 e) as [aes_key e1] eqn:Hk.
    destruct (urandom 16 e1) as [iv e2] eqn:Hi.
    assert (Hklen : length aes_key = 32%nat)
      by (pose proof (urandom_length 32 e) as H; now rewrite Hk in H).
    assert (Hilen : length iv = 16%nat)
      by (pose proof (urandom_length 16 e1) as H; now rewrite Hi in H).
    destruct (aes_roundtrip aes_key iv x Hklen Hilen) as [Htag Haes].
    destruct (aes_gcm_encrypt aes_key iv x) as [ciphertext tag] eqn:Henc.
    cbn [fst snd] in Htag, Haes.
    destruct (urandom 32 e2) as [seed e3].
    destruct (rsa_roundtrip priv seed aes_key) as (wrapped & Hw & Hwlen & Hdec);
      [lia|].
    rewrite Hw.
    assert (Hlen4 : exists len4, to_bytes4 (length wrapped) = Some len4).
    { rewrite Hwlen. eexists. reflexivity. }
    destruct Hlen4 as [len4 Hlen4]. rewrite Hlen4. cbn [fst].
    pose proof (to_bytes4_length _ _ Hlen4) as H4.
    eexists. split; [reflexivity|]. split; [|split].
    + rewrite bool_decide_true by (rewrite !length_app; lia).
      rewrite (hybrid_decrypt_layout priv len4 wrapped iv tag ciphertext aes_key);
        auto.
    + intros Hle. lia.
    + intros _. exists aes_key, iv, seed, wrapped, len4.
      rewrite Henc. cbn [fst snd]. repeat split; auto.
  - (* direct *)
    destruct (urandom 32 e) as [seed e1].
    destruct (rsa_roundtrip priv seed x) as (c & Hc & Hclen & Hdec); [lia|].
    exists c. cbn [fst]. split; [exact Hc|]. split; [|split].
    + rewrite bool_decide_false by lia. exact Hdec.
    + intros _. now exists seed.
    + intros Hgt. lia.
Qed.

End WithLibs.

(** A constant source of "random" bytes. *)
Definition e0 : entropy := fun _ => 7%Z.

Definition plain_manager : t ToyLibs.toy :=
  mk false None None None "secret" 1.

Definition keyed_manager : t ToyLibs.toy :=
  mk true (Some (replicate 32 7%Z)) (Some tt) (Some tt) "secret" 1.

Lemma encryption_disabled_passthrough_witness :
  encrypt_data plain_manager e0 (DStr "result") Symmetric = (Ok "result", e0)
  /\ encrypt_data plain_manager e0 (DDict "{}") Symmetric = (Ok "{}", e0)
  /\ decrypt_data plain_manager "result" Symmetric = Ok (PStr "result").
Proof.
  exact (encryption_disabled_passthrough plain_manager e0 "result" "{}"
           Symmetric eq_refl).
Defined.

(** C10 at a [bytes] argument, which the signature of [encrypt_data]
    admits: with encryption off the call raises the [TypeError] of
    [json.dumps] instead of passing the data through, while a [str] is
    passed through and, with encryption on, the same [bytes] are taken
    and encrypted. *)
Theorem encrypt_data_disabled_raises_on_bytes :
  encrypt_data plain_manager e0 (DBytes [104; 105]%Z) Symmetric
  = (Raise (TypeError "Object of type bytes is not JSON serializable"), e0)
  /\ encrypt_data plain_manager e0 (DStr "hi") Symmetric = (Ok "hi", e0)
  /\ exists token e,
       encrypt_data keyed_manager e0 (DBytes [104; 105]%Z) Symmetric
       = (Ok token, e).
Proof.
  split; [reflexivity|]. split; [reflexivity|].
  eexists _, _. vm_compute. reflexivity.
Qed.

Lemma asymmetric_roundtrip_witness :
  let small := replicate 190 1%Z in
  let large := replicate 191 1%Z in
  (exists c, fst (_encrypt_asymmetric keyed_manager e0 small) = Ok c
             /\ _decrypt_asymmetric keyed_manager c = Ok small)
  /\ (exists c, fst (_encrypt_asymmetric keyed_manager e0 large) = Ok c
                /\ _decrypt_asymmetric keyed_manager c = Ok large).
Proof.
  intros small large. split.
  - destruct (asymmetric_roundtrip keyed_manager tt e0 small eq_refl eq_refl)
      as (c & Henc & Hdec & _).
    exists c. split; [exact Henc | exact Hdec].
  - destruct (asymmetric_roundtrip keyed_manager tt e0 large eq_refl eq_refl)
      as (c & Henc & Hdec & _).
    exists c. split; [exact Henc | exact Hdec].
Defined.

(** The two paths on the toy instance: 256 bytes for a 190-byte payload,
    4 + 256 + 16 + 16 + 191 bytes for a 191-byte one. *)
Lemma asymmetric_ciphertext_lengths :
  (exists c, fst (_encrypt_asymmetric keyed_manager e0 (replicate 190 1%Z)) = Ok c
             /\ length c = 256%nat)
  /\ (exists c, fst (_encrypt_asymmetric keyed_manager e0 (replicate 191 1%Z)) = Ok c
                /\ length c = 483%nat).
Proof. split; eexists; (split; [vm_compute; reflexivity | reflexivity]). Qed.

End CryptoFacts.

(** *** Token verification *)

Module TokenFacts.

Import Py Bytes CryptoLibs CryptoManager.

Section WithLibs.

Context {L : Libs}.

(** Whatever the library, the two [except] clauses turn both kinds of
    [InvalidTokenError] into [None]. *)
Lemma verify_jwt_token_none (cm : t L) (token : Token) (now : Qc) :
  jwt_decode token (jwt_secret cm) now = ExpiredSignatureError
  \/ (exists msg, jwt_decode token (jwt_secret cm) now = InvalidTokenError msg) ->
  verify_jwt_token cm token now = Ok None.
Proof.
  unfold verify_jwt_token. intros [Hexp | [msg Hinv]].
  - now rewrite Hexp.
  - now rewrite Hinv.
Qed.


Context {HS : Hs256 L}.


Context {HJ : JwtLaws L}.


End WithLibs.


Definition node_payload : gmap string jvalue := {[ "node_id" := JStr "n1" ]}.

(** Two managers on the signed instance of the libraries: the secret of
    the second is the secret of the first with a NUL character added. *)
Definition signing_manager : t ToyLibs.signed :=
  mk (L := ToyLibs.signed) true (Some (replicate 32 7%Z)) (Some tt) (Some tt)
     "secret" 1.





(** The same token is still accepted at the very second it expires. *)
Lemma verify_jwt_token_accepts_fresh :
  let cm := signing_manager in
  exists claims,
    verify_jwt_token cm (create_jwt_token cm node_payload (Some 1%Z) (Q2Qc 0))
      (Q2Qc 3600) = Ok (Some claims).
Proof. eexists. vm_compute. reflexivity. Qed.

End TokenFacts.

(** *** Key rotation *)

Module KeyRotationFacts.

Import Py Bytes CryptoLibs CryptoManager.

Section WithLibs.

Context {L : Libs}.

Lemma glob_elem (suffix name : string) (f : fs) :
  is_Some (files f !! name) -> ends_with suffix name = true ->
  name ∈ glob suffix f.
Proof.
  intros [content Hname] Hsuffix. unfold glob.
  apply list_elem_of_filter. split; [exact Hsuffix|].
  apply list_elem_of_fmap. exists (name, content). split; [reflexivity|].
  now apply elem_of_map_to_list.
Qed.

(** With a key file in the directory, [rotate_keys] stops at the first
    [shutil.copy2]: the manager keeps its keys, no file is copied or
    written, and the new backup directory stays empty. *)
Lemma rotate_keys_name_error (cm : t L) (now : Qc) (f : fs) (e : entropy)
    (name : string) :
  writable f = true ->
  is_Some (files f !! name) ->
  ends_with ".key" name = true \/ ends_with ".pem" name = true ->
  exists f',
    rotate_keys cm now f e = (Raise (NameError "shutil"), cm, f', e)
    /\ files f' = files f
    /\ (backups f !! py_int now = None -> backups f' !! py_int now = Some ∅).
Proof.
  intros Hw Hfile Hsuffix. unfold rotate_keys. rewrite Hw. cbn [negb].
  set (f1 := {| files := files f; backups := _; writable := _ |}).
  assert (Hbackup : backups f !! py_int now = None ->
                    backups f1 !! py_int now = Some ∅).
  { intros Hnone. unfold f1. cbn. rewrite Hnone. apply lookup_insert_eq. }
  assert (Hglob : glob ".key" f1 <> [] \/ glob ".pem" f1 <> []).
  { destruct Hsuffix as [Hs|Hs]; [left|right];
      (intros Hnil; pose proof (glob_elem _ name f1 Hfile Hs) as Hin;
       rewrite Hnil in Hin; inversion Hin). }
  exists f1.
  destruct (glob ".key" f1) as [|k ks], (glob ".pem" f1) as [|p ps];
    try (split; [reflexivity | split; [reflexivity | exact Hbackup]]).
  destruct Hglob as [H|H]; contradiction.
Qed.

(** The step commented "Generate new keys" reuses a valid key file. *)
Lemma load_or_generate_reuses_file (f : fs) (e : entropy) (key : bytes) :
  files f !! "symmetric.key" = Some key -> length key = 32%nat ->
  _load_or_generate_symmetric_key f e = (key, f, e).
Proof.
  intros Hfile Hlen. unfold _load_or_generate_symmetric_key.
  rewrite Hfile. now rewrite bool_decide_true by exact Hlen.
Qed.

End WithLibs.

(** The key directory as [CryptoManager.__init__] leaves it. *)
Definition initialised_dir : fs :=
  mk_fs {[ "symmetric.key" := replicate 32 7%Z;
           "private.pem" := [1%Z]; "public.pem" := [2%Z] ]}
        ∅ true.

(** C9 at an initialised key directory: [rotate_keys] raises
    [NameError], archives nothing (the backup directory of that second
    is created empty), leaves the key files and the manager's keys as
    they were; and the generation step it did not reach would have read
    the old symmetric key back from its file. *)
Theorem rotate_keys_on_initialised_directory :
  let now := Q2Qc 1000 in
  let out := rotate_keys CryptoFacts.keyed_manager now initialised_dir
               CryptoFacts.e0 in
  fst (fst (fst out)) = Raise (NameError "shutil")
  /\ snd (fst (fst out)) = CryptoFacts.keyed_manager
  /\ files (snd (fst out)) = files initialised_dir
  /\ backups (snd (fst out)) = {[ 1000%Z := ∅ ]}
  /\ fst (fst (_load_or_generate_symmetric_key (snd (fst out)) (snd out)))
     = replicate 32 7%Z.
Proof.
  intros now out.
  assert (Hout : out = (Raise (NameError "shutil"), CryptoFacts.keyed_manager,
                        mk_fs (files initialised_dir) {[ 1000%Z := ∅ ]} true,
                        CryptoFacts.e0))
    by (vm_compute; reflexivity).
  rewrite Hout. cbn [fst snd files backups].
  repeat split.
Qed.

End KeyRotationFacts.

(** ** agent.py: [NodeAgent] *)

Module NodeAgent.

Import Py.

(** A value held in a task dict, as [json.loads] builds it: [None], a
    bool, an int, a float (finite, or one of the three special values
    [json.loads] accepts), a string, a list, or a dict with its items in
    order, each key once. *)
#[local] Set Warnings "-register-all".

Inductive value :=
| VNone
| VBool (b : bool)
| VInt (z : Z)
| VNum (q : Qc)
| VInf
| VNegInf
| VNaN
| VStr (s : string)
| VList (items : list value)
| VDict (items : list (string * value)).

Fixpoint value_eq (x y : value) {struct x} : {x = y} + {x <> y}.
Proof.
  decide equality.
  - apply bool_eq_dec.
  - apply Z.eq_dec.
  - apply Qc_eq_dec.
  - apply (_ : EqDecision string).
  - apply (List.list_eq_dec value_eq).
  - apply List.list_eq_dec. intros [k1 v1] [k2 v2].
    destruct (decide (k1 = k2)) as [->|Hk]; [|right; congruence].
    destruct (value_eq v1 v2) as [->|Hv];
      [left; reflexivity | right; congruence].
Defined.

#[global] Instance value_eq_dec : EqDecision value := value_eq.

(** The number a value stands for in a comparison: a bool counts as 0
    or 1. *)
Inductive numeric :=
| Finite (q : Qc)
| PosInf
| NegInf
| NotANumber.

Definition as_number (v : value) : option numeric :=
  match v with
  | VBool b => Some (Finite (if b then 1 else 0)%Qc)
  | VInt z => Some (Finite (PyNum.Qc_of_Z z))
  | VNum q => Some (Finite q)
  | VInf => Some PosInf
  | VNegInf => Some NegInf
  | VNaN => Some NotANumber
  | _ => None
  end.

(** [x == y] on numbers: by value, and never for a NaN. *)
Definition numeric_eq (x y : numeric) : bool :=
  match x, y with
  | Finite p, Finite q => bool_decide (p = q)
  | PosInf, PosInf | NegInf, NegInf => true
  | _, _ => false
  end.

(** [x > q] on numbers; every comparison with a NaN is false. *)
Definition numeric_gt (x : numeric) (q : Qc) : bool :=
  match x with
  | Finite p => bool_decide (q < p)%Qc
  | PosInf => true
  | NegInf | NotANumber => false
  end.

(** The first value stored under [key]. *)
Fixpoint assoc (key : string) (items : list (string * value)) : option value :=
  match items with
  | [] => None
  | (k, v) :: items => if String.eqb k key then Some v else assoc key items
  end.

(** Python's [x == y] on values that come from two messages: numbers by
    value across bool, int and float, strings and [None] as they are,
    lists item by item, dicts key by key; values of different kinds are
    unequal. *)
Fixpoint py_eq (x y : value) {struct x} : bool :=
  match as_number x, as_number y with
  | Some p, Some q => numeric_eq p q
  | Some _, None | None, Some _ => false
  | None, None =>
      match x, y with
      | VNone, VNone => true
      | VStr s, VStr s' => String.eqb s s'
      | VList xs, VList ys =>
          (fix items_eq (xs ys : list value) {struct xs} : bool :=
             match xs, ys with
             | [], [] => true
             | x :: xs, y :: ys => py_eq x y && items_eq xs ys
             | _, _ => false
             end) xs ys
      | VDict xs, VDict ys =>
          (length xs =? length ys)%nat
          && (fix entries_eq (xs : list (string * value)) {struct xs} : bool :=
                match xs with
                | [] => true
                | (k, v) :: xs =>
                    match assoc k ys with
                    | Some v' => py_eq v v'
                    | None => false
                    end && entries_eq xs
                end) xs
      | _, _ => false
      end
  end.

(** [type(v).__name__] *)
Definition type_name (v : value) : string :=
  match v with
  | VNone => "NoneType"
  | VBool _ => "bool"
  | VInt _ => "int"
  | VNum _ | VInf | VNegInf | VNaN => "float"
  | VStr _ => "str"
  | VList _ => "list"
  | VDict _ => "dict"
  end.

Definition number_type_name (x : PyNum.number) : string :=
  match x with
  | PyNum.Int _ => "int"
  | PyNum.Float _ => "float"
  end.

(** [v > ceiling] for a configured number [ceiling]; a value that is
    not a number raises [TypeError]. *)
Definition py_gt (v : value) (ceiling : PyNum.number) : res bool :=
  match as_number v with
  | Some x => Ok (numeric_gt x (PyNum.value_of ceiling))
  | None =>
      Raise (TypeError ("'>' not supported between instances of '"
                        +:+ type_name v +:+ "' and '"
                        +:+ number_type_name ceiling +:+ "'"))
  end.

(** [v in models] for a list of strings. *)
Definition py_in (v : value) (models : list string) : bool :=
  existsb (fun model => py_eq v (VStr model)) models.

(** A task as it arrives: the payload dict of a [task_assignment]. *)
Abbreviation task_data := (gmap string value).

(** The configuration entries the task state machine reads. *)
Record config := mk_config {
  supported_models : list string;
  max_vram_gb : PyNum.number
}.

(** Outgoing messages, by [type]; node id and timestamp are left out. *)
Inductive message :=
| task_accepted (task_id : value)
| task_rejected (task_id : value) (reason : string)
| task_status (task_id : value) (status : string)
| task_result (task_id : value) (result : string)
| task_error (task_id : value) (error : string).

(** What the agent does, in order: messages handed to the websocket,
    assignments to [self.current_task], coroutines put on the event loop. *)
Inductive event :=
| Sent (m : message)            (* [websocket.send] returned *)
| SendFailed (m : message)      (* [websocket.send] raised *)
| SlotTaken (t : task_data)     (* [self.current_task = task_data] *)
| SlotReleased                  (* [self.current_task = None] *)
| Spawned (t : task_data).      (* [asyncio.create_task(self._execute_task(t))] *)

Record t := mk {
  cfg : config;
  current_task : option task_data;
  tasks_completed : nat;
  tasks_failed : nat
}.

(** The surroundings of the agent: the trace so far, the websocket (does
    its k-th [send] go through?), the model loader, executor and
    encryption taken together ([work]: the result string of a task, or the
    exception raised on the way), and the coroutines waiting to run. *)
Record world := mk_world {
  trace : list event;
  ws_up : nat -> bool;
  sends : nat;
  work : task_data -> res string;
  pending : list task_data
}.

(** Computations over the agent and its surroundings that may raise. *)
Definition M (A : Type) : Type := t * world -> res A * (t * world).

#[global] Instance M_ret : MRet M := fun A x s => (Ok x, s).

#[global] Instance M_bind : MBind M := fun A B f m s =>
  match m s with
  | (Ok x, s) => f x s
  | (Raise e, s) => (Raise e, s)
  end.

Definition raise {A} (e : exn) : M A := fun s => (Raise e, s).

(** [try: body except Exception as e: handler(e)] *)
Definition try_except {A} (body : M A) (handler : exn -> M A) : M A :=
  fun s =>
    match body s with
    | (Ok x, s) => (Ok x, s)
    | (Raise e, s) => handler e s
    end.

(** [try: body finally: cleanup]; an exception of [cleanup] wins. *)
Definition try_finally {A} (body : M A) (cleanup : M unit) : M A :=
  fun s =>
    let '(r, s) := body s in
    match cleanup s with
    | (Ok _, s) => (r, s)
    | (Raise e, s) => (Raise e, s)
    end.

Definition get_agent : M t := fun s => (Ok (fst s), s).

Definition emit (ev : event) (w : world) : world :=
  {| trace := trace w ++ [ev]; ws_up := ws_up w; sends := sends w;
     work := work w; pending := pending w |}.

(** [self.current_task = v] *)
Definition set_current_task (v : option task_data) : M unit := fun '(a, w) =>
  (Ok tt,
   ({| cfg := cfg a; current_task := v;
       tasks_completed := tasks_completed a; tasks_failed := tasks_failed a |},
    emit (match v with Some task => SlotTaken task | None => SlotReleased end) w)).

Definition incr_completed : M unit := fun '(a, w) =>
  (Ok tt,
   ({| cfg := cfg a; current_task := current_task a;
       tasks_completed := S (tasks_completed a);
       tasks_failed := tasks_failed a |}, w)).

Definition incr_failed : M unit := fun '(a, w) =>
  (Ok tt,
   ({| cfg := cfg a; current_task := current_task a;
       tasks_completed := tasks_completed a;
       tasks_failed := S (tasks_failed a) |}, w)).

(** [await self.websocket.send(json.dumps(message))] *)
Definition send (m : message) : M unit := fun '(a, w) =>
  let up := ws_up w (sends w) in
  let w := {| trace := trace w ++ [if up then Sent m else SendFailed m];
              ws_up := ws_up w; sends := S (sends w);
              work := work w; pending := pending w |} in
  (if up then Ok tt else Raise ConnectionClosed, (a, w)).

(** [asyncio.create_task(self._execute_task(task_data))] *)
Definition create_task (task : task_data) : M unit := fun '(a, w) =>
  (Ok tt,
   (a, {| trace := trace w ++ [Spawned task]; ws_up := ws_up w;
          sends := sends w; work := work w;
          pending := pending w ++ [task] |})).

(** [task_data[key]] *)
Definition getitem (task : task_data) (key : string) : M value :=
  match task !! key with
  | Some v => mret v
  | None => raise (KeyError key)
  end.

(** [str(e)] *)
Definition str (e : exn) : string :=
  match e with
  | Exception m | RuntimeError m | ValueError m | TypeError m
  | DockerException m => m
  | KeyError k => "'" +:+ k +:+ "'"
  | NameError n => "name '" +:+ n +:+ "' is not defined"
  | ConnectionClosed => "connection closed"
  end.

(** Truth value of [self.current_task]: [None] and the empty dict are false. *)
Definition busy (a : t) : bool :=
  match current_task a with
  | Some task => negb (bool_decide (task = ∅))
  | None => false
  end.

Definition _send_task_acceptance (task_id : value) : M unit :=
  send (task_accepted task_id).

Definition _send_task_rejection (task_id : value) (reason : string) : M unit :=
  send (task_rejected task_id reason).

Definition _send_task_status (task_id : value) (status : string) : M unit :=
  send (task_status task_id status).

Definition _send_task_result (task_id : value) (result : string) : M unit :=
  send (task_result task_id result).

Definition _send_task_error (task_id : value) (error : string) : M unit :=
  send (task_error task_id error).

(** [_validate_task] *)
Definition _validate_task (task : task_data) : M bool :=
  a ← get_agent;
  let model_type := default VNone (task !! "model_type") in
  if negb (py_in model_type (supported_models (cfg a))) then mret false
  else
    let required_vram := default (VInt 0) (task !! "required_vram_gb") in
    match py_gt required_vram (max_vram_gb (cfg a)) with
    | Ok above => mret (negb above)
    | Raise e => raise e
    end.

(** [_handle_task_assignment] *)
Definition _handle_task_assignment (task : task_data) : M unit :=
  a ← get_agent;
  if busy a then
    task_id ← getitem task "id";
    _send_task_rejection task_id "Node busy"
  else
    _ ← getitem task "id";      (* the f-string of [logger.info] *)
    try_except
      (valid ← _validate_task task;
       if negb valid then
         task_id ← getitem task "id";
         _send_task_rejection task_id "Task validation failed"
       else
         set_current_task (Some task);;
         task_id ← getitem task "id";
         _send_task_acceptance task_id;;
         create_task task)
      (fun e =>
         task_id ← getitem task "id";
         _send_task_rejection task_id (str e)).

(** The model loader, the executor and the encryption of the result. *)
Definition run_work (task : task_data) : M string := fun '(a, w) =>
  (work w task, (a, w)).

(** Lines 376-392 of [_execute_task]: the model is looked up, loaded and
    run, the result encrypted. *)
Definition compute (task : task_data) : M string :=
  getitem task "model";; run_work task.

(** [_execute_task] *)
Definition _execute_task (task : task_data) : M unit :=
  task_id ← getitem task "id";
  try_finally
    (try_except
       (_send_task_status task_id "running";;
        result ← compute task;
        _send_task_result task_id result;;
        incr_completed)
       (fun e =>
          _send_task_error task_id (str e);;
          incr_failed))
    (set_current_task None).

(** [_handle_task_cancellation] *)
Definition _handle_task_cancellation (payload : task_data) : M unit :=
  a ← get_agent;
  let task_id := default VNone (payload !! "task_id") in
  match current_task a with
  | Some task =>
      if busy a then
        current_id ← getitem task "id";
        if py_eq current_id task_id
        then set_current_task None
        else mret tt
      else mret tt
  | None => mret tt
  end.

(** [self.current_task] replaced, the rest of the agent as it is. *)
Definition with_task (v : option task_data) (a : t) : t :=
  {| cfg := cfg a; current_task := v;
     tasks_completed := tasks_completed a; tasks_failed := tasks_failed a |}.

(** The event loop runs the coroutine that has waited longest, to its
    end. *)
Definition run_next : M unit := fun '(a, w) =>
  match pending w with
  | [] => (Ok tt, (a, w))
  | task :: rest =>
      _execute_task task
        (a, {| trace := trace w; ws_up := ws_up w; sends := sends w;
               work := work w; pending := rest |})
  end.

(** What happens to the agent over time: [_handle_websocket_message]
    dispatches a [task_assignment] or a [task_cancel], or a scheduled
    [_execute_task] runs. *)
Inductive op :=
| Assign (task : task_data)
| Cancel (payload : task_data)
| Complete.

(** An exception of a handler is logged by the message loop, one of
    [_execute_task] stays in its asyncio task: the agent goes on. *)
Definition apply_op (o : op) (s : t * world) : t * world :=
  snd (match o with
       | Assign task => _handle_task_assignment task s
       | Cancel payload => _handle_task_cancellation payload s
       | Complete => run_next s
       end).

Definition history (ops : list op) (s : t * world) : t * world :=
  fold_left (fun s o => apply_op o s) ops s.

Definition is_cancel (o : op) : bool :=
  match o with
  | Cancel _ => true
  | _ => false
  end.

End NodeAgent.

(** *** The task state machine *)

Module AgentFacts.

Import Py NodeAgent.

(** Unfolds the combinators of [M] down to the pairs they compute. *)
Ltac run_M :=
  unfold _send_task_acceptance, _send_task_rejection, _send_task_status,
    _send_task_result, _send_task_error, compute, run_work, getitem,
    try_except, try_finally, set_current_task, incr_completed, incr_failed,
    create_task, send, raise, get_agent, emit,
    mbind, M_bind, mret, M_ret in *;
  cbn [fst snd trace ws_up sends work pending current_task cfg
       tasks_completed tasks_failed] in *.

(** No execution is scheduled by the listed events. *)
Ltac no_spawn :=
  let t := fresh "t" in
  let Hin := fresh "Hin" in
  intros t Hin;
  repeat match type of Hin with
         | _ ∈ [] => inversion Hin
         | _ ∈ _ :: _ => apply elem_of_cons in Hin as [Hin|Hin]
         | _ = (if ?b then _ else _) => destruct b; discriminate
         | _ = _ => discriminate
         end.

(** [_validate_task] reads; it changes nothing. *)
Lemma validate_task_state (task : task_data) (s : t * world) :
  snd (_validate_task task s) = s.
Proof.
  unfold _validate_task. run_M.
  destruct (negb _); [reflexivity|].
  now destruct (py_gt _ _).
Qed.

(** A task that carries an id is not the empty dict. *)
Lemma task_with_id_nonempty (task : task_data) (task_id : value) :
  task !! "id" = Some task_id -> negb (bool_decide (task = ∅)) = true.
Proof.
  intros Hid. rewrite negb_true_iff, bool_decide_eq_false. intros ->.
  now rewrite lookup_empty in Hid.
Qed.

(** What a busy agent does with an assignment that carries an id. *)
Lemma busy_assignment_steps (a : t) (w : world) (task : task_data)
    (task_id : value) :
  busy a = true ->
  task !! "id" = Some task_id ->
  _handle_task_assignment task (a, w)
  = _send_task_rejection task_id "Node busy" (a, w).
Proof.
  intros Hbusy Hid. unfold _handle_task_assignment. run_M.
  now rewrite Hbusy, Hid.
Qed.

(** The steps of [_handle_task_assignment] once the node is idle, the
    task has an id and validation has answered. *)
Lemma idle_assignment_steps (a : t) (w : world) (task : task_data)
    (task_id : value) (valid : bool) :
  busy a = false ->
  task !! "id" = Some task_id ->
  fst (_validate_task task (a, w)) = Ok valid ->
  _handle_task_assignment task (a, w)
  = try_except
      (if valid then
         set_current_task (Some task);;
         _send_task_acceptance task_id;;
         create_task task
       else _send_task_rejection task_id "Task validation failed")
      (fun e => _send_task_rejection task_id (str e)) (a, w).
Proof.
  intros Hidle Hid Hvalid.
  pose proof (validate_task_state task (a, w)) as Hstate.
  unfold _handle_task_assignment.
  unfold mbind at 1, M_bind at 1, get_agent at 1. cbn [fst].
  rewrite Hidle.
  unfold mbind at 1, M_bind at 1, getitem at 1. rewrite Hid.
  unfold mret at 1, M_ret at 1.
  unfold try_except. unfold mbind at 1, M_bind at 1.
  destruct (_validate_task task (a, w)) as [r s]. cbn [fst snd] in *.
  subst r s. unfold getitem. rewrite Hid.
  destruct valid; cbn [negb]; unfold mbind, M_bind, mret, M_ret; reflexivity.
Qed.

(** When validation raises, the handler answers with the exception's
    text. *)
Lemma failed_validation_steps (a : t) (w : world) (task : task_data)
    (task_id : value) (e : exn) :
  busy a = false ->
  task !! "id" = Some task_id ->
  fst (_validate_task task (a, w)) = Raise e ->
  _handle_task_assignment task (a, w)
  = _send_task_rejection task_id (str e) (a, w).
Proof.
  intros Hidle Hid Hvalid.
  pose proof (validate_task_state task (a, w)) as Hstate.
  unfold _handle_task_assignment.
  unfold mbind at 1, M_bind at 1, get_agent at 1. cbn [fst].
  rewrite Hidle.
  unfold mbind at 1, M_bind at 1, getitem at 1. rewrite Hid.
  unfold mret at 1, M_ret at 1.
  unfold try_except. unfold mbind at 1, M_bind at 1.
  destruct (_validate_task task (a, w)) as [r s]. cbn [fst snd] in *.
  subst r s. unfold mbind, M_bind, getitem. now rewrite Hid.
Qed.

(** A message sent changes neither the agent nor what is scheduled. *)
Lemma send_effect (m : message) (a : t) (w : world) :
  fst (snd (send m (a, w))) = a
  /\ pending (snd (snd (send m (a, w)))) = pending w
  /\ trace (snd (snd (send m (a, w))))
     = trace w ++ [if ws_up w (sends w) then Sent m else SendFailed m]
  /\ fst (send m (a, w))
     = if ws_up w (sends w) then Ok tt else Raise ConnectionClosed.
Proof. unfold send. now destruct (ws_up w (sends w)). Qed.

(** The ways [_handle_task_assignment] can leave the agent: as it was,
    with nothing scheduled; or, from an idle agent and for a task with an
    id, holding the task, which is then scheduled unless the
    acknowledgement could not be sent. *)
Lemma assignment_effect (a : t) (w : world) (task : task_data) :
  let out := _handle_task_assignment task (a, w) in
  (fst (snd out) = a /\ pending (snd (snd out)) = pending w)
  \/ (busy a = false /\ is_Some (task !! "id")
      /\ fst (snd out) = with_task (Some task) a
      /\ (pending (snd (snd out)) = pending w
          \/ pending (snd (snd out)) = pending w ++ [task])).
Proof.
  intros out. unfold out.
  destruct (task !! "id") as [task_id|] eqn:Hid.
  2:{ left. unfold _handle_task_assignment. run_M. rewrite Hid.
      now destruct (busy a). }
  destruct (busy a) eqn:Hbusy.
  { left. rewrite (busy_assignment_steps a w task task_id Hbusy Hid).
    unfold _send_task_rejection.
    destruct (send_effect (task_rejected task_id "Node busy") a w)
      as (H1 & H2 & _). now split. }
  destruct (fst (_validate_task task (a, w))) as [valid|e] eqn:Hvalid.
  2:{ left. rewrite (failed_validation_steps a w task task_id e Hbusy Hid Hvalid).
      unfold _send_task_rejection.
      destruct (send_effect (task_rejected task_id (str e)) a w)
        as (H1 & H2 & _). now split. }
  rewrite (idle_assignment_steps a w task task_id valid Hbusy Hid Hvalid).
  destruct valid.
  - right. split; [reflexivity|]. split; [now exists task_id|].
    run_M. destruct (ws_up w (sends w)); cbn;
      [|destruct (ws_up w (S (sends w)))]; cbn; auto.
  - left. run_M. destruct (ws_up w (sends w)); cbn;
      [|destruct (ws_up w (S (sends w)))]; cbn; auto.
Qed.

(** A run of [_execute_task] schedules nothing; on a task with an id it
    ends with the slot released. *)
Lemma execute_effect (a : t) (w : world) (task : task_data) :
  pending (snd (snd (_execute_task task (a, w)))) = pending w.
Proof.
  unfold _execute_task. run_M.
  destruct (task !! "id"); cbn; [|reflexivity].
  destruct (ws_up w (sends w)); cbn;
    destruct (task !! "model"); cbn;
    try (destruct (work w task); cbn);
    try (destruct (ws_up w (S (sends w))); cbn);
    try (destruct (ws_up w (S (S (sends w)))); cbn);
    reflexivity.
Qed.

Lemma cancellation_pending (payload : task_data) (a : t) (w : world) :
  pending (snd (snd (_handle_task_cancellation payload (a, w)))) = pending w.
Proof.
  unfold _handle_task_cancellation, busy. run_M.
  destruct (current_task a) as [task|]; [|reflexivity].
  destruct (negb _); [|reflexivity].
  destruct (task !! "id"); cbn; [|reflexivity].
  now destruct (py_eq _ _).
Qed.

(** At most one accepted task has not finished, and it is the one in
    the slot. *)
Definition slot_tracks_run (s : t * world) : Prop :=
  pending (snd s) = []
  \/ exists task,
       pending (snd s) = [task]
       /\ current_task (fst s) = Some task
       /\ is_Some (task !! "id").

Lemma slot_tracks_run_busy (s : t * world) :
  slot_tracks_run s -> pending (snd s) <> [] -> busy (fst s) = true.
Proof.
  intros [Hnil | (task & _ & Hcur & [task_id Hid])] Hrun; [contradiction|].
  unfold busy. rewrite Hcur. exact (task_with_id_nonempty task task_id Hid).
Qed.

Lemma apply_op_slot_tracks_run (o : op) (s : t * world) :
  is_cancel o = false -> slot_tracks_run s -> slot_tracks_run (apply_op o s).
Proof.
  destruct s as [a w]. destruct o as [task|payload|]; [|discriminate|];
    intros _ Hinv; unfold apply_op.
  - destruct (assignment_effect a w task)
      as [[Ha Hp] | (Hidle & Hid & Ha & Hp)];
      destruct (_handle_task_assignment task (a, w)) as [r [a' w']];
      cbn [fst snd] in *.
    + subst a'. destruct Hinv as [Hnil | (t0 & Hp0 & Hcur & Hid0)].
      * left. cbn in *. congruence.
      * right. exists t0. cbn in *. split; [congruence | auto].
    + assert (Hnil : pending w = []).
      { destruct (pending w) eqn:Hw; [reflexivity|].
        pose proof (slot_tracks_run_busy (a, w) Hinv) as Hb. cbn in Hb.
        rewrite Hw in Hb. rewrite Hb in Hidle by discriminate. discriminate. }
      rewrite Hnil in Hp. cbn [app] in Hp. destruct Hp as [Hp|Hp].
      * now left.
      * right. exists task. cbn. subst a'. auto.
  - unfold run_next. destruct (pending w) as [|task rest] eqn:Hw.
    + left. exact Hw.
    + left. rewrite execute_effect. cbn.
      destruct Hinv as [Hnil | (t0 & Hp0 & _)]; cbn in *; congruence.
Qed.

Lemma history_slot_tracks_run (ops : list op) : forall s,
  Forall (fun o => is_cancel o = false) ops ->
  slot_tracks_run s -> slot_tracks_run (history ops s).
Proof.
  induction ops as [|o ops IH]; intros s Hops Hinv; [exact Hinv|].
  apply Forall_cons in Hops as [Ho Hops]. cbn [history fold_left].
  apply IH; [exact Hops|]. now apply apply_op_slot_tracks_run.
Qed.

(** C1 (as amended): in a history of assignments and task runs that
    handled no [task_cancel], an assignment that carries an id and
    arrives while an accepted task has not finished is answered with
    [task_rejected], reason "Node busy", and nothing else happens: the
    agent, its running task included, is as before and no execution is
    scheduled. *)
Theorem busy_agent_rejects_assignment
  (a0 : t) (w0 : world) (ops : list op) (task : task_data) (task_id : value) :
  pending w0 = [] ->
  Forall (fun o => is_cancel o = false) ops ->
  let a := fst (history ops (a0, w0)) in
  let w := snd (history ops (a0, w0)) in
  pending w <> [] ->
  task !! "id" = Some task_id ->
  let out := _handle_task_assignment task (a, w) in
  fst (snd out) = a
  /\ pending (snd (snd out)) = pending w
  /\ trace (snd (snd out))
     = trace w ++ [if ws_up w (sends w)
                   then Sent (task_rejected task_id "Node busy")
                   else SendFailed (task_rejected task_id "Node busy")]
  /\ (ws_up w (sends w) = true -> fst out = Ok tt).
Proof.
  intros Hstart Hops a w Hrun Hid out.
  assert (Hbusy : busy a = true).
  { apply (slot_tracks_run_busy (history ops (a0, w0))); [|exact Hrun].
    apply history_slot_tracks_run; [exact Hops | now left]. }
  unfold out. rewrite (busy_assignment_steps a w task task_id Hbusy Hid).
  unfold _send_task_rejection.
  destruct (send_effect (task_rejected task_id "Node busy") a w)
    as (H1 & H2 & H3 & H4).
  split; [exact H1|]. split; [exact H2|]. split; [exact H3|].
  intros Hup. now rewrite H4, Hup.
Qed.

(** A node that takes text models up to 8 GB. *)
Definition node_config : config := mk_config ["text"] (PyNum.Int 8).

Definition task1 : task_data :=
  {[ "id" := VStr "t1"; "model" := VStr "text"; "model_type" := VStr "text";
     "input" := VStr "hello"; "required_vram_gb" := VInt 2 ]}.

Definition task2 : task_data :=
  {[ "id" := VStr "t2"; "model" := VStr "text"; "model_type" := VStr "text";
     "input" := VStr "again"; "required_vram_gb" := VInt 2 ]}.

Definition idle_agent : t := mk node_config None 0 0.
Definition busy_agent : t := mk node_config (Some task1) 0 0.

(** A live websocket and a worker that answers "out". *)
Definition calm_world : world :=
  mk_world [] (fun _ => true) 0 (fun _ => Ok "out") [].

Lemma busy_agent_rejects_assignment_witness :
  let a := fst (history [Assign task1] (idle_agent, calm_world)) in
  let w := snd (history [Assign task1] (idle_agent, calm_world)) in
  let out := _handle_task_assignment task2 (a, w) in
  pending w = [task1]
  /\ fst (snd out) = a
  /\ pending (snd (snd out)) = pending w
  /\ trace (snd (snd out))
     = trace w ++ [Sent (task_rejected (VStr "t2") "Node busy")]
  /\ fst out = Ok tt.
Proof.
  intros a w out.
  assert (Hw : pending w = [task1]) by (vm_compute; reflexivity).
  assert (Hops : Forall (fun o => is_cancel o = false) [Assign task1])
    by (repeat constructor).
  assert (Hrun : pending w <> []) by (rewrite Hw; discriminate).
  destruct (busy_agent_rejects_assignment idle_agent calm_world [Assign task1]
              task2 (VStr "t2") eq_refl Hops Hrun eq_refl)
    as (Ha & Hp & Ht & Hr).
  split; [exact Hw|]. split; [exact Ha|]. split; [exact Hp|].
  split; [exact Ht | apply Hr; reflexivity].
Defined.

(** C1, as stated, fails twice over. The reason sent reads "Node busy",
    not "node busy". And a running task does not always block an
    assignment: [task_cancel] clears the slot without stopping the
    coroutine, so after it the next assignment is accepted while the
    cancelled task has not finished. *)
Lemma rejection_wording_and_cancelled_run :
  (let out := _handle_task_assignment task2 (busy_agent, calm_world) in
   trace (snd (snd out)) = [Sent (task_rejected (VStr "t2") "Node busy")]
   /\ trace (snd (snd out)) <> [Sent (task_rejected (VStr "t2") "node busy")])
  /\ (let s := history [Assign task1; Cancel {[ "task_id" := VStr "t1" ]}]
                 (idle_agent, calm_world) in
      let out := _handle_task_assignment task2 s in
      pending (snd s) = [task1]
      /\ fst out = Ok tt
      /\ trace (snd (snd out))
         = trace (snd s) ++ [SlotTaken task2; Sent (task_accepted (VStr "t2"));
                             Spawned task2]
      /\ pending (snd (snd out)) = [task1; task2]).
Proof.
  split.
  - assert (H : trace (snd (snd (_handle_task_assignment task2
                                   (busy_agent, calm_world))))
                = [Sent (task_rejected (VStr "t2") "Node busy")])
      by (vm_compute; reflexivity).
    cbv zeta. rewrite H. split; [reflexivity | discriminate].
  - cbv zeta. repeat split; vm_compute; reflexivity.
Qed.

(** C4: whatever the agent's state, the task and the websocket do,
    [_handle_task_assignment] either schedules no execution at all, or its
    last three steps are: take the slot, send [task_accepted] (and the
    send went through), schedule the execution. *)
Theorem acceptance_sent_before_execution
  (a : t) (w : world) (task : task_data) :
  let out := _handle_task_assignment task (a, w) in
  let w' := snd (snd out) in
  (exists new, trace w' = trace w ++ new
               /\ (forall t, Spawned t ∉ new)
               /\ pending w' = pending w)
  \/ (exists task_id,
        task !! "id" = Some task_id
        /\ fst out = Ok tt
        /\ trace w' = trace w ++ [SlotTaken task;
                                  Sent (task_accepted task_id);
                                  Spawned task]
        /\ pending w' = pending w ++ [task]).
Proof.
  intros out w'. unfold w', out, _handle_task_assignment, _validate_task.
  run_M.
  destruct (busy a); cbn;
    destruct (task !! "id") as [task_id|] eqn:Hid; cbn;
    try (destruct (negb _); cbn);
    try (destruct (py_gt _ _) as [[|]|]; cbn);
    try rewrite Hid; cbn;
    try (destruct (ws_up w (sends w)) eqn:Hup; cbn);
    try rewrite Hid; cbn;
    rewrite <- ?app_assoc; cbn [app];
    first
      [ right; exists task_id; repeat split; reflexivity
      | left; eexists; split;
        [ first [ reflexivity | symmetry; apply app_nil_r ] |];
        split; [no_spawn | reflexivity] ].
Qed.







(** An assignment within the node's limits: accepted, executed, reported
    once, and the node is idle again. *)
Lemma assignment_scenario :
  let out := (_handle_task_assignment task1;; run_next)
               (idle_agent, calm_world) in
  fst out = Ok tt
  /\ trace (snd (snd out))
     = [SlotTaken task1;
        Sent (task_accepted (VStr "t1"));
        Spawned task1;
        Sent (task_status (VStr "t1") "running");
        Sent (task_result (VStr "t1") "out");
        SlotReleased]
  /\ busy (fst (snd out)) = false.
Proof. repeat split; vm_compute; reflexivity. Qed.

End AgentFacts.

(** * Further properties of the modelled code *)

(** ** [_make_request]: status-code policy and retry budget *)

Module RequestFacts.

Import PyNum CoordinatorClient.
Import RateLimitFacts.
Open Scope Qc_scope.

Abbreviation manager_of c := (connection_manager c).
Abbreviation retries_of c := (ConnectionManager.max_retries (connection_manager c)).
Abbreviation failures_of c :=
  (ConnectionManager.connection_failures (connection_manager c)).

(** The window as [_check_rate_limit] prunes it at clock reading [now]. *)
Definition window (now : Qc) (c : t) : list Qc :=
  filter (in_window now) (request_timestamps c).

Lemma check_passes now c :
  (Z.of_nat (length (window now c)) < rate_limit_requests c)%Z ->
  _check_rate_limit now c = (true, set_timestamps (window now c) c).
Proof.
  intros Hroom. unfold _check_rate_limit, window in *. cbn.
  now rewrite bool_decide_false by lia.
Qed.

Lemma window_length_le now c :
  (length (window now c) <= length (request_timestamps c))%nat.
Proof. apply length_filter. Qed.

(** What one run keeps fixed and how far it can go: the retry budget and
    the limit stay as configured, at most [max_retries - retry_count + 1]
    network calls are made, and the list of tracked timestamps does not
    outgrow the limit. *)
Lemma make_request_fuel_budget fuel : forall m e rc c w,
  (retries_of c - rc < fuel)%nat ->
  exists r c' w',
    make_request_fuel fuel m e rc c w = Some (r, c', w')
    /\ retries_of c' = retries_of c
    /\ rate_limit_requests c' = rate_limit_requests c
    /\ (length (net_log w') <= length (net_log w) + S (retries_of c - rc))%nat
    /\ ((Z.of_nat (length (request_timestamps c)) <= rate_limit_requests c)%Z ->
        (Z.of_nat (length (request_timestamps c')) <= rate_limit_requests c)%Z).
Proof.
  induction fuel as [|fuel IH]; intros m e rc c w Hfuel; [lia|].
  rewrite make_request_fuel_unfold, check_rate_limit_spec.
  fold (window (clock w) c).
  pose proof (window_length_le (clock w) c) as Hwin.
  set (c1 := set_timestamps (window (clock w) c) c).
  case_bool_decide as Hlim; cbn [negb].
  { exists (Raise RateLimitExceeded), c1, w. split; [reflexivity|].
    cbn. repeat split; lia. }
  pose proof (attempt_spec m e rc c1 w)
    as (Hlog & _ & _ & _ & Hr & Hl & Hts & Hretry).
  destruct (attempt m e rc c1 w) as [[act c2] w2]. cbn [fst snd] in *.
  change (retries_of c1) with (retries_of c) in *.
  change (rate_limit_requests c1) with (rate_limit_requests c) in *.
  assert (Hts2 : (Z.of_nat (length (request_timestamps c2))
                  <= rate_limit_requests c)%Z).
  { rewrite Hts. destruct (snd (net w (length (net_log w))));
      rewrite ?length_app; cbn; lia. }
  assert (Hlog2 : length (net_log w2) = S (length (net_log w)))
    by (rewrite Hlog, length_app; cbn; lia).
  destruct act as [r|d f].
  { exists r, c2, w2. split; [reflexivity|]. repeat split; auto; lia. }
  specialize (Hretry d f eq_refl).
  pose proof (pause_config d f c2 w2) as (Hp1 & Hp2 & Hp3 & Hp4 & _).
  destruct (IH m e (S rc) (fst (pause d f c2 w2)) (snd (pause d f c2 w2)))
    as (r & c' & w' & Hrun & Hr' & Hl' & Hn & Hb); [rewrite Hp1, Hr; lia|].
  exists r, c', w'. split; [exact Hrun|].
  split; [congruence|]. split; [congruence|]. split.
  - rewrite Hp4, Hp1, Hr in Hn. lia.
  - intros _. rewrite Hp2, Hl, Hp3 in Hb. apply Hb, Hts2.
Qed.

(** X1: whatever the coordinator answers, one [_make_request] returns
    after at most [max_retries - retry_count + 1] network calls. *)
Theorem make_request_call_budget (m e : string) (rc : nat) (c : t) (w : world) :
  exists r c' w',
    _make_request m e rc c w = Some (r, c', w')
    /\ (length (net_log w') <= length (net_log w) + S (retries_of c - rc))%nat
    /\ retries_of c' = retries_of c.
Proof.
  destruct (make_request_fuel_budget (S (retries_of c - rc)) m e rc c w)
    as (r & c' & w' & Hrun & Hr & _ & Hn & _); [lia|].
  now exists r, c', w'.
Qed.

(** Requests made one after another keep the tracked list within the
    limit. *)
Lemma run_within_limit steps : forall c w,
  (Z.of_nat (length (request_timestamps c)) <= rate_limit_requests c)%Z ->
  rate_limit_requests (fst (run steps (c, w))) = rate_limit_requests c
  /\ (Z.of_nat (length (request_timestamps (fst (run steps (c, w)))))
      <= rate_limit_requests c)%Z.
Proof.
  induction steps as [|s steps IH]; intros c w Hts; [now cbn|].
  cbn [run fold_left]. fold (run steps (run_step s (c, w))).
  destruct s as [m e|d]; cbn [run_step fst snd].
  - unfold _make_request.
    destruct (make_request_fuel_budget (S (retries_of c - 0)) m e 0 c w)
      as (r & c' & w' & -> & _ & Hl & _ & Hb); [lia|].
    destruct (IH c' w') as [Hl' Hts']; [rewrite Hl; auto|].
    rewrite Hl', Hl. split; [reflexivity|]. now rewrite <- Hl.
  - now apply IH.
Qed.

(** Two answered requests in flight together are both tracked. *)
Lemma overlapping_tracks_both (m1 e1 m2 e2 : string) (c : t) (w : world)
    (lat1 lat2 : Qc) (r1 r2 : response) :
  (Z.of_nat (length (window (clock w) c)) < rate_limit_requests c)%Z ->
  net w (length (net_log w)) = (lat1, Responded r1) ->
  net w (S (length (net_log w))) = (lat2, Responded r2) ->
  exists act1 act2 c' w',
    overlapping m1 e1 m2 e2 c w = Some (act1, act2, c', w')
    /\ rate_limit_requests c' = rate_limit_requests c
    /\ request_timestamps c'
       = window (clock w) c ++ [clock w + lat1; clock w + lat1 + lat2].
Proof.
  intros Hroom Hnet1 Hnet2. unfold overlapping.
  rewrite (check_passes _ _ Hroom). cbn [negb start_call clock].
  assert (Hsame : window (clock w) (set_timestamps (window (clock w) c) c)
                  = window (clock w) c).
  { unfold window. cbn. apply filter_window_pruned, Qcle_refl. }
  rewrite check_passes by (rewrite Hsame; exact Hroom).
  rewrite Hsame. cbn [negb]. unfold await_call.
  cbn [net net_log clock answered]. rewrite Hnet1.
  cbn [net net_log clock answered].
  replace (length (net_log w ++ [(m1, e1)])) with (S (length (net_log w)))
    by (rewrite length_app; cbn; lia).
  rewrite Hnet2.
  match goal with
  | |- context [settle 0 (Responded r1) ?c1 ?w1] =>
      pose proof (settle_config 0 (Responded r1) c1 w1) as (_ & Hl1 & Hts1);
      destruct (settle 0 (Responded r1) c1 w1) as [act1 c2]
  end.
  match goal with
  | |- context [settle 0 (Responded r2) c2 ?w2] =>
      pose proof (settle_config 0 (Responded r2) c2 w2) as (_ & Hl2 & Hts2);
      destruct (settle 0 (Responded r2) c2 w2) as [act2 c3]
  end.
  cbn [fst snd clock request_timestamps rate_limit_requests set_timestamps] in *.
  eexists _, _, _, _. split; [reflexivity|]. split; [congruence|].
  rewrite Hts2, Hts1, <- app_assoc. reflexivity.
Qed.

(** X2: as long as its requests are made one after another, a client
    whose list of tracked timestamps is within the limit keeps it within
    the limit, retries included. The limiter does not bound requests in
    flight together: with one place left in the window, two requests that
    are both answered leave one timestamp more than the limit. *)
Theorem tracked_requests_stay_within_limit
  (steps : list step) (m1 e1 m2 e2 : string) (c : t) (w : world)
  (lat1 lat2 : Qc) (r1 r2 : response) :
  (Z.of_nat (length (request_timestamps c)) <= rate_limit_requests c)%Z ->
  (Z.of_nat (length (request_timestamps (fst (run steps (c, w)))))
   <= rate_limit_requests (fst (run steps (c, w))))%Z
  /\ (Z.of_nat (length (window (clock w) c)) + 1 = rate_limit_requests c ->
      net w (length (net_log w)) = (lat1, Responded r1) ->
      net w (S (length (net_log w))) = (lat2, Responded r2) ->
      exists act1 act2 c' w',
        overlapping m1 e1 m2 e2 c w = Some (act1, act2, c', w')
        /\ Z.of_nat (length (request_timestamps c'))
           = rate_limit_requests c' + 1)%Z.
Proof.
  intros Hts. split.
  - destruct (run_within_limit steps c w Hts) as [Hl Hb]. now rewrite Hl.
  - intros Hone Hnet1 Hnet2.
    destruct (overlapping_tracks_both m1 e1 m2 e2 c w lat1 lat2 r1 r2)
      as (act1 & act2 & c' & w' & Hrun & Hl & Hts'); [lia | auto | auto |].
    exists act1, act2, c', w'. split; [exact Hrun|].
    rewrite Hts', Hl, length_app. cbn [length]. lia.
Qed.

(** What [_make_request] returns for a 200, lines 166-174. *)
Definition ok_result (r : response) : result :=
  if is_json r then
    match json r with
    | Document d => Return (Json d)
    | _ => Raise (Reraised "JSONDecodeError")
    end
  else Return (Text (body r)).

(** X3: a 200 answer to an admitted request ends the request with this
    one call, with the document [response.json()] parsed, or with the
    text for another content type, or with the [JSONDecodeError] of a
    body that is not JSON; in each case the call is counted and tracked
    and the failure state is cleared first, so the next retry delay is
    back to one second whatever it was. *)
Theorem ok_response_clears_backoff
  (m e : string) (rc : nat) (c : t) (w : world) (lat : Qc) (r : response) :
  (Z.of_nat (length (window (clock w) c)) < rate_limit_requests c)%Z ->
  net w (length (net_log w)) = (lat, Responded r) ->
  status r = 200%Z ->
  (is_json r = true -> forall msg, json r <> JsonClientError msg) ->
  exists c',
    _make_request m e rc c w
    = Some (ok_result r, c',
            {| clock := clock w + lat; net := net w;
               net_log := net_log w ++ [(m, e)];
               answered := answered w ++ [clock w + lat] |})
    /\ request_count c' = S (request_count c)
    /\ request_timestamps c' = window (clock w) c ++ [clock w + lat]
    /\ failures_of c' = 0%nat
    /\ ConnectionManager.connected (manager_of c') = true
    /\ ConnectionManager.get_retry_delay (manager_of c') = Some 1.
Proof.
  intros Hroom Hnet Hok Hread. unfold _make_request. cbn [make_request_fuel].
  rewrite (check_passes _ _ Hroom). cbn [negb].
  unfold start_call, await_call. cbn [net net_log clock]. rewrite Hnet.
  cbn [settle]. rewrite bool_decide_true by exact Hok.
  unfold ok_result. destruct (is_json r).
  - destruct (json r) as [d| |msg] eqn:Hjson.
    + eexists. split; [reflexivity|]. repeat split.
      now apply BackoffFacts.get_retry_delay_no_failures.
    + eexists. split; [reflexivity|]. repeat split.
      now apply BackoffFacts.get_retry_delay_no_failures.
    + now destruct (Hread eq_refl msg).
  - eexists. split; [reflexivity|]. repeat split.
    now apply BackoffFacts.get_retry_delay_no_failures.
Qed.

(** X4: a 401, a 403 and every other status below 500 apart from 200 and
    429 is raised after this one call: no retry, no sleep, and the
    failure state of the connection is left as it was. *)
Theorem client_error_is_not_retried
  (m e : string) (rc : nat) (c : t) (w : world) (lat : Qc) (r : response) :
  (Z.of_nat (length (window (clock w) c)) < rate_limit_requests c)%Z ->
  net w (length (net_log w)) = (lat, Responded r) ->
  status r <> 200%Z -> status r <> 429%Z -> (status r < 500)%Z ->
  exists c',
    _make_request m e rc c w
    = Some (Raise (if bool_decide (status r = 401%Z) then AuthenticationFailed
                   else if bool_decide (status r = 403%Z) then AccessForbidden
                   else RequestFailed (status r) (body r)),
            c',
            {| clock := clock w + lat; net := net w;
               net_log := net_log w ++ [(m, e)];
               answered := answered w ++ [clock w + lat] |})
    /\ manager_of c' = manager_of c
    /\ request_count c' = S (request_count c).
Proof.
  intros Hroom Hnet H200 H429 H500. unfold _make_request.
  cbn [make_request_fuel].
  rewrite (check_passes _ _ Hroom). cbn [negb].
  unfold start_call, await_call. cbn [net net_log clock]. rewrite Hnet.
  cbn [settle].
  rewrite (bool_decide_false (status r = 200%Z)) by exact H200.
  destruct (bool_decide (status r = 401%Z));
    [eexists; split; [reflexivity|]; split; reflexivity|].
  destruct (bool_decide (status r = 403%Z));
    [eexists; split; [reflexivity|]; split; reflexivity|].
  rewrite (bool_decide_false (status r = 429%Z)) by exact H429.
  rewrite (bool_decide_false (500 <= status r)%Z) by lia.
  eexists; split; [reflexivity|]; split; reflexivity.
Qed.

(** One attempt that fails at network level. *)
Lemma attempt_client_error (m e msg : string) (rc : nat) (c : t) (w : world)
    (lat : Qc) :
  net w (length (net_log w)) = (lat, ClientError msg) ->
  attempt m e rc c w
  = (fst (on_client_error rc msg c
            {| clock := clock w + lat; net := net w;
               net_log := net_log w ++ [(m, e)]; answered := answered w |}),
     snd (on_client_error rc msg c
            {| clock := clock w + lat; net := net w;
               net_log := net_log w ++ [(m, e)]; answered := answered w |}),
     {| clock := clock w + lat; net := net w;
        net_log := net_log w ++ [(m, e)]; answered := answered w |}).
Proof.
  intros Hnet. unfold attempt, start_call, await_call.
  cbn [net net_log clock answered]. rewrite Hnet. cbn [settle].
  now destruct (on_client_error _ _ _ _).
Qed.

Lemma network_failure_fuel (m e msg : string) (n : nat) : forall rc c w fuel,
  fuel = S n ->
  (retries_of c - rc = n)%nat -> (rc <= retries_of c)%nat ->
  (Z.of_nat (length (request_timestamps c)) < rate_limit_requests c)%Z ->
  (forall k, snd (net w k) = ClientError msg) ->
  (forall j, (0 < j <= n)%nat ->
     BackoffFacts.in_range (ConnectionManager.backoff_factor (manager_of c))
       (failures_of c + j)) ->
  exists c' w',
    make_request_fuel fuel m e rc c w
    = Some (Raise (NetworkError (retries_of c) msg), c', w')
    /\ length (net_log w') = (length (net_log w) + S n)%nat
    /\ failures_of c' = (failures_of c + S n)%nat
    /\ ConnectionManager.connected (manager_of c') = false.
Proof.
  induction n as [|n IH]; intros rc c w fuel -> Hn Hrc Hroom Hnet Hrange;
    rewrite make_request_fuel_unfold;
    pose proof (window_length_le (clock w) c) as Hwin;
    (rewrite check_passes by lia); cbn [negb];
    pose proof (Hnet (length (net_log w))) as Hout;
    destruct (net w (length (net_log w))) as [lat out] eqn:Hcall;
    cbn [snd] in Hout; subst out;
    rewrite (attempt_client_error m e msg rc _ w lat Hcall);
    unfold on_client_error, retries_left;
    cbn [connection_manager set_manager set_timestamps
         ConnectionManager.max_retries ConnectionManager.on_connection_failure].
  - rewrite bool_decide_false by lia. cbn [fst snd].
    eexists _, _. split; [replace rc with (retries_of c) by lia; reflexivity|].
    cbn. rewrite length_app. cbn. repeat split; lia.
  - rewrite bool_decide_true by lia.
    rewrite BackoffFacts.get_retry_delay_in_range.
    2:{ change (BackoffFacts.in_range
                  (ConnectionManager.backoff_factor (manager_of c))
                  (S (failures_of c))).
        replace (S (failures_of c)) with (failures_of c + 1)%nat by lia.
        apply Hrange. lia. }
    cbn [fst snd pause].
    match goal with
    | |- context [make_request_fuel (S n) m e (S rc) ?c1 ?w1] =>
        destruct (IH (S rc) c1 w1 (S n) eq_refl)
          as (c' & w' & Hrun & Hlog & Hfail & Hconn)
    end.
    + cbn. lia.
    + cbn. lia.
    + cbn. lia.
    + intros k. cbn. apply Hnet.
    + intros j Hj.
      change (BackoffFacts.in_range
                (ConnectionManager.backoff_factor (manager_of c))
                (S (failures_of c) + j)).
      replace (S (failures_of c) + j)%nat with (failures_of c + S j)%nat by lia.
      apply Hrange. lia.
    + exists c', w'. split; [exact Hrun|].
      cbn in Hlog, Hfail. rewrite length_app in Hlog. cbn in Hlog.
      repeat split; [lia | lia | exact Hconn].
Qed.

(** X5: while the coordinator cannot be reached, an admitted request is
    tried [max_retries - retry_count + 1] times and then raises the
    network error, naming [max_retries] retries; every attempt adds one to
    the failure counter. This is so as long as the backoff delays of the
    retries can be computed (the powers stay within the range of
    floats). *)
Theorem network_failure_exhausts_retries
  (m e msg : string) (rc : nat) (c : t) (w : world) :
  (rc <= retries_of c)%nat ->
  (Z.of_nat (length (request_timestamps c)) < rate_limit_requests c)%Z ->
  (forall k, snd (net w k) = ClientError msg) ->
  (forall j, (0 < j <= retries_of c - rc)%nat ->
     BackoffFacts.in_range (ConnectionManager.backoff_factor (manager_of c))
       (failures_of c + j)) ->
  exists c' w',
    _make_request m e rc c w
    = Some (Raise (NetworkError (retries_of c) msg), c', w')
    /\ length (net_log w')
       = (length (net_log w) + S (retries_of c - rc))%nat
    /\ failures_of c' = (failures_of c + S (retries_of c - rc))%nat
    /\ ConnectionManager.connected (manager_of c') = false.
Proof.
  intros Hrc Hroom Hnet Hrange.
  exact (network_failure_fuel m e msg (retries_of c - rc) rc c w _ eq_refl
           eq_refl Hrc Hroom Hnet Hrange).
Qed.

(** X27: when the power of the next backoff delay is out of the range of
    floats, a request that fails at network level is not retried although
    retries are left: the [OverflowError] of [get_retry_delay] leaves the
    handler after this one call, the failure having been recorded. *)
Theorem overflow_ends_request
  (m e msg : string) (rc : nat) (c : t) (w : world) (lat q : Qc) :
  (Z.of_nat (length (window (clock w) c)) < rate_limit_requests c)%Z ->
  net w (length (net_log w)) = (lat, ClientError msg) ->
  (rc < retries_of c)%nat ->
  ConnectionManager.backoff_factor (manager_of c) = Float q ->
  overflows (q ^ S (failures_of c)) ->
  exists c',
    _make_request m e rc c w
    = Some (Raise OverflowError, c',
            {| clock := clock w + lat; net := net w;
               net_log := net_log w ++ [(m, e)]; answered := answered w |})
    /\ failures_of c' = S (failures_of c)
    /\ request_timestamps c' = window (clock w) c.
Proof.
  intros Hroom Hnet Hrc Hbase Hover. unfold _make_request.
  rewrite make_request_fuel_unfold, (check_passes _ _ Hroom). cbn [negb].
  rewrite (attempt_client_error m e msg rc _ w lat Hnet).
  unfold on_client_error, retries_left.
  cbn [connection_manager set_manager set_timestamps
       ConnectionManager.max_retries ConnectionManager.on_connection_failure].
  rewrite bool_decide_true by lia.
  rewrite (BackoffFacts.get_retry_delay_overflow _ q); [| exact Hbase | exact Hover].
  eexists. split; [reflexivity|]. split; reflexivity.
Qed.

(** A coordinator that answers 404. *)
Definition lost_net (k : nat) : Qc * net_outcome :=
  (Q2Qc (1 # 10),
   Responded (mk_response 404 NoHeader false "not found" JSONDecodeError)).

Definition lost_world : world := mk_world 0 lost_net [] [].

(** One that answers every call at once with 200 and an empty text. *)
Definition quick_net (k : nat) : Qc * net_outcome :=
  (0, Responded (mk_response 200 NoHeader false "" JSONDecodeError)).

(** A client with a limit of two requests per minute, one of them used. *)
Definition small_client : t :=
  set_timestamps [0] (init "http://c" 5 (Float BackoffFacts.two) 2).

Lemma tracked_requests_stay_within_limit_witness :
  (Z.of_nat (length (request_timestamps
                       (fst (run burst (small_client, fresh_world)))))
   <= rate_limit_requests (fst (run burst (small_client, fresh_world))))%Z
  /\ exists act1 act2 c' w',
       overlapping "POST" "/api/nodes/heartbeat" "POST" "/api/nodes/metrics"
         small_client (mk_world 0 quick_net [] [])
       = Some (act1, act2, c', w')
       /\ (Z.of_nat (length (request_timestamps c'))
           = rate_limit_requests c' + 1)%Z.
Proof.
  destruct (tracked_requests_stay_within_limit burst
              "POST" "/api/nodes/heartbeat" "POST" "/api/nodes/metrics"
              small_client fresh_world (Q2Qc (1 # 2)) (Q2Qc (1 # 2))
              (mk_response 200 NoHeader false "ok" JSONDecodeError)
              (mk_response 200 NoHeader false "ok" JSONDecodeError))
    as [Hseq _]; [cbn; lia|].
  split; [exact Hseq|].
  destruct (tracked_requests_stay_within_limit []
              "POST" "/api/nodes/heartbeat" "POST" "/api/nodes/metrics"
              small_client (mk_world 0 quick_net [] []) 0 0
              (mk_response 200 NoHeader false "" JSONDecodeError)
              (mk_response 200 NoHeader false "" JSONDecodeError))
    as [_ Hrace]; [cbn; lia|].
  apply Hrace; reflexivity.
Defined.

Lemma network_failure_exhausts_retries_witness :
  exists c' w',
    _make_request "POST" "/api/nodes/heartbeat" 0 fresh_client dead_world
    = Some (Raise (NetworkError 5 "Cannot connect to host"), c', w')
    /\ length (net_log w') = 6%nat
    /\ failures_of c' = 6%nat
    /\ ConnectionManager.connected (manager_of c') = false.
Proof.
  apply (network_failure_exhausts_retries "POST" "/api/nodes/heartbeat"
           "Cannot connect to host" 0 fresh_client dead_world).
  - cbn. lia.
  - cbn. lia.
  - intros k. reflexivity.
  - intros j Hj. cbn in Hj.
    assert (Hcases : j = 1%nat \/ j = 2%nat \/ j = 3%nat \/ j = 4%nat \/ j = 5%nat)
      by lia.
    destruct Hcases as [-> | [-> | [-> | [-> | ->]]]];
      vm_compute; intros [H|H]; apply H; reflexivity.
Defined.

Lemma ok_response_clears_backoff_witness :
  let c := ConnectionManager.after_failures (manager_of fresh_client) [0; 0; 0] in
  let failing := set_manager c fresh_client in
  ConnectionManager.get_retry_delay (manager_of failing) = Some (Q2Qc 8)
  /\ exists c',
       _make_request "GET" "/api/health" 0 failing fresh_world
       = Some (Return (Text "ok"), c',
               mk_world (0 + Q2Qc (1 # 2)) steady_net [("GET", "/api/health")]
                        [0 + Q2Qc (1 # 2)])
       /\ request_count c' = 1%nat
       /\ request_timestamps c' = [] ++ [0 + Q2Qc (1 # 2)]
       /\ failures_of c' = 0%nat
       /\ ConnectionManager.connected (manager_of c') = true
       /\ ConnectionManager.get_retry_delay (manager_of c') = Some 1.
Proof.
  intros c failing. split; [vm_compute; reflexivity|].
  apply (ok_response_clears_backoff "GET" "/api/health" 0 failing fresh_world
           (Q2Qc (1 # 2))
           (mk_response 200 NoHeader false "ok" JSONDecodeError));
    [cbn; lia | reflexivity | reflexivity | discriminate].
Defined.

Lemma client_error_is_not_retried_witness :
  exists c',
    _make_request "GET" "/api/tasks/t9" 0 fresh_client lost_world
    = Some (Raise (RequestFailed 404 "not found"), c',
            mk_world (0 + Q2Qc (1 # 10)) lost_net [("GET", "/api/tasks/t9")]
                     [0 + Q2Qc (1 # 10)])
    /\ manager_of c' = manager_of fresh_client
    /\ request_count c' = 1%nat.
Proof.
  apply (client_error_is_not_retried "GET" "/api/tasks/t9" 0 fresh_client
           lost_world (Q2Qc (1 # 10))
           (mk_response 404 NoHeader false "not found" JSONDecodeError));
    [cbn; lia | reflexivity | discriminate | discriminate | cbn; lia].
Defined.

(** A client that has seen 1023 failures in a row. *)
Definition worn_client : t :=
  set_manager (ConnectionManager.after_failures (manager_of fresh_client)
                 (replicate 1023 0))
              fresh_client.

Lemma overflow_ends_request_witness :
  exists c',
    _make_request "POST" "/api/nodes/heartbeat" 0 worn_client dead_world
    = Some (Raise OverflowError, c',
            mk_world (0 + Q2Qc (1 # 10)) dead_net
                     [("POST", "/api/nodes/heartbeat")] [])
    /\ failures_of c' = S (failures_of worn_client)
    /\ request_timestamps c' = [].
Proof.
  apply (overflow_ends_request "POST" "/api/nodes/heartbeat"
           "Cannot connect to host" 0 worn_client dead_world (Q2Qc (1 # 10))
           BackoffFacts.two).
  - cbn. lia.
  - reflexivity.
  - cbn. lia.
  - unfold worn_client. cbn [connection_manager set_manager].
    now rewrite ConnectionManager.after_failures_factor.
  - unfold worn_client. cbn [connection_manager set_manager].
    rewrite ConnectionManager.after_failures_count, length_replicate. left.
    apply (bool_decide_unpack _). vm_compute. exact I.
Defined.

End RequestFacts.

(** ** [DockerEngine]: bookkeeping of tracked containers *)

Module ContainerFacts.

Import Py DockerEngine.

(** [container_stats] has an entry for exactly the tracked containers. *)
Definition in_sync (e : t) : Prop :=
  dom (active_containers e) = dom (container_stats e).

Lemma start_container_in_sync id now ok e log :
  in_sync e -> in_sync (snd (fst (start_container id now ok e log))).
Proof.
  unfold start_container, in_sync. intros Hs.
  destruct (active_containers e !! id), ok; try exact Hs.
  destruct (container_stats e !! id) eqn:Hst; [|exact Hs].
  cbn. rewrite dom_insert_lookup_L by (rewrite Hst; eauto). exact Hs.
Qed.

Lemma stop_container_in_sync id now ok e log :
  in_sync e -> in_sync (snd (fst (stop_container id now ok e log))).
Proof.
  unfold stop_container, in_sync. intros Hs.
  destruct (active_containers e !! id), ok; try exact Hs.
  destruct (container_stats e !! id) eqn:Hst; [|exact Hs].
  cbn. rewrite dom_insert_lookup_L by (rewrite Hst; eauto). exact Hs.
Qed.

Lemma stop_container_active id now ok e log :
  active_containers (snd (fst (stop_container id now ok e log)))
  = active_containers e.
Proof.
  unfold stop_container.
  destruct (active_containers e !! id), ok, (container_stats e !! id);
    reflexivity.
Qed.

Lemma execute_in_container_in_sync id now d e log :
  in_sync e -> in_sync (snd (fst (execute_in_container id now d e log))).
Proof.
  unfold execute_in_container, in_sync. intros Hs.
  destruct (active_containers e !! id); [|exact Hs].
  destruct (container_stats e !! id) eqn:Hst; [|exact Hs].
  cbn. rewrite dom_insert_lookup_L by (rewrite Hst; eauto). exact Hs.
Qed.

Lemma remove_container_in_sync id force now d e log :
  in_sync e -> in_sync (snd (fst (remove_container id force now d e log))).
Proof.
  intros Hs. unfold remove_container.
  destruct (active_containers e !! id); [|exact Hs].
  pose proof (stop_container_in_sync id now (stop_ok d) e log Hs) as Hstop.
  destruct (is_running d).
  - destruct (stop_container id now (stop_ok d) e log) as [[b e1] log1].
    cbn [fst snd] in *. destruct (remove_ok d); [|exact Hstop].
    unfold in_sync in *. cbn. rewrite !dom_delete_L. now rewrite Hstop.
  - destruct (remove_ok d); [|exact Hs].
    unfold in_sync in *. cbn. rewrite !dom_delete_L. now rewrite Hs.
Qed.

Lemma remove_all_in_sync ids now d : forall e log,
  in_sync e -> in_sync (fst (remove_all ids now d e log)).
Proof.
  induction ids as [|id ids IH]; intros e log Hs; [exact Hs|].
  cbn [remove_all].
  pose proof (remove_container_in_sync id true now (d id) e log Hs) as Hrm.
  destruct (remove_container id true now (d id) e log) as [[b e1] log1].
  apply IH, Hrm.
Qed.

Lemma step_in_sync now o e log :
  in_sync e -> in_sync (fst (step now o (e, log))).
Proof.
  intros Hs. destruct o as [task stamp img d|id ok|id ok|id force d|id d|d];
    cbn [step].
  - unfold create_container. case_bool_decide; [exact Hs|].
    destruct d as [id|err]; [|exact Hs].
    unfold in_sync in *. cbn. rewrite !dom_insert_L. now rewrite Hs.
  - pose proof (start_container_in_sync id now ok e log Hs) as H.
    destruct (start_container _ _ _ _ _) as [[r e1] log1]. exact H.
  - pose proof (stop_container_in_sync id now ok e log Hs) as H.
    destruct (stop_container _ _ _ _ _) as [[r e1] log1]. exact H.
  - pose proof (remove_container_in_sync id force now d e log Hs) as H.
    destruct (remove_container _ _ _ _ _ _) as [[r e1] log1]. exact H.
  - pose proof (execute_in_container_in_sync id now d e log Hs) as H.
    destruct (execute_in_container _ _ _ _ _) as [[r e1] log1]. exact H.
  - unfold cleanup.
    pose proof (remove_all_in_sync
      (map fst (map_to_list (active_containers e))) now d e log Hs) as H.
    destruct (remove_all _ now d e log) as [e1 log1]. exact H.
Qed.

Lemma run_in_sync ops : forall e log,
  in_sync e -> in_sync (fst (run ops (e, log))).
Proof.
  induction ops as [|[now o] ops IH]; intros e log Hs; [exact Hs|].
  unfold run. cbn [fold_left].
  pose proof (step_in_sync now o e log Hs) as Hstep.
  destruct (step now o (e, log)) as [e1 log1]. apply IH, Hstep.
Qed.

(** X6: after any history of engine calls the stats table has an entry
    for exactly the tracked containers; so starting a tracked container
    whose daemon start succeeds reports success, and the entry then
    reads "running". *)
Theorem stats_follow_tracked_containers (max : Z) (ops : list (Qc * op)) :
  let e := fst (run ops (init max, [])) in
  dom (active_containers e) = dom (container_stats e)
  /\ (forall id now log,
        is_Some (active_containers e !! id) ->
        exists e',
          start_container id now true e log
          = (Ok true, e', log ++ [ContainerStart id])
          /\ status <$> container_stats e' !! id = Some "running").
Proof.
  intros e.
  assert (Hs : in_sync e) by (apply run_in_sync; reflexivity).
  split; [exact Hs|].
  intros id now log Hid. unfold start_container.
  destruct Hid as [c Hc]. rewrite Hc.
  assert (Hst : is_Some (container_stats e !! id)).
  { apply elem_of_dom. rewrite <- Hs. apply elem_of_dom. eauto. }
  destruct Hst as [s Hst]. rewrite Hst.
  eexists. split; [reflexivity|]. cbn. now rewrite lookup_insert_eq.
Qed.

(** What [remove_container] leaves tracked when the daemon removes. *)
Lemma remove_container_deletes id force now d e log :
  remove_ok d = true ->
  active_containers (snd (fst (remove_container id force now d e log)))
  = delete id (active_containers e).
Proof.
  intros Hok. unfold remove_container.
  destruct (active_containers e !! id) eqn:Hid;
    [|cbn; symmetry; apply delete_id, Hid].
  pose proof (stop_container_active id now (stop_ok d) e log) as Hstop.
  destruct (is_running d).
  - destruct (stop_container id now (stop_ok d) e log) as [[b e1] log1].
    cbn [fst snd] in *. rewrite Hok. cbn. now rewrite Hstop.
  - now rewrite Hok.
Qed.

Lemma remove_all_lookup ids now d : forall e log k,
  (forall id, remove_ok (d id) = true) ->
  active_containers (fst (remove_all ids now d e log)) !! k
  = if decide (k ∈ ids) then None else active_containers e !! k.
Proof.
  induction ids as [|id ids IH]; intros e log k Hok.
  - cbn. case_decide as Hin; [inversion Hin | reflexivity].
  - cbn [remove_all].
    pose proof (remove_container_deletes id true now (d id) e log (Hok id))
      as Hdel.
    destruct (remove_container id true now (d id) e log) as [[b e1] log1].
    cbn [fst snd] in Hdel. rewrite (IH e1 log1 k Hok), Hdel.
    destruct (decide (k = id)) as [->|Hne].
    + rewrite lookup_delete_eq.
      rewrite (decide_True (P := id ∈ id :: ids)) by apply list_elem_of_here.
      now case_decide.
    + rewrite lookup_delete_ne by congruence.
      destruct (decide (k ∈ ids)) as [Hin|Hout].
      * now rewrite decide_True by (apply list_elem_of_further, Hin).
      * rewrite decide_False; [reflexivity|].
        intros Hin. apply elem_of_cons in Hin as [?|?]; contradiction.
Qed.

(** X7: when the daemon carries out every removal, [cleanup] leaves no
    container tracked, whatever was tracked before; its last daemon call
    is the sweep of stale containers. *)
Theorem cleanup_leaves_nothing_tracked
  (now : Qc) (d : string -> removal) (e : t) (log : list daemon_call) :
  (forall id, remove_ok (d id) = true) ->
  active_containers (fst (cleanup now d e log)) = ∅
  /\ live (fst (cleanup now d e log)) = 0%Z
  /\ last (snd (cleanup now d e log)) = Some RemoveStale.
Proof.
  intros Hok. unfold cleanup, live.
  pose proof (fun k => remove_all_lookup
    (map fst (map_to_list (active_containers e))) now d e log k Hok) as Hall.
  destruct (remove_all _ now d e log) as [e1 log1]. cbn [fst snd] in *.
  assert (Hempty : active_containers e1 = ∅).
  { apply map_eq. intros k. rewrite lookup_empty, Hall.
    case_decide as Hin; [reflexivity|].
    destruct (active_containers e !! k) as [c|] eqn:Hk; [|reflexivity].
    exfalso. apply Hin, list_elem_of_fmap. exists (k, c).
    split; [reflexivity|]. now apply elem_of_map_to_list. }
  rewrite Hempty, map_size_empty. split; [reflexivity|].
  split; [reflexivity|]. apply last_snoc.
Qed.

(** X8: a container whose removal the daemon refuses stays tracked (and
    keeps counting against the cap); [remove_container] then returns
    [False]. *)
Theorem failed_removal_keeps_container
  (id : string) (force : bool) (now : Qc) (d : removal) (e : t)
  (log : list daemon_call) :
  is_Some (active_containers e !! id) ->
  remove_ok d = false ->
  fst (fst (remove_container id force now d e log)) = false
  /\ active_containers (snd (fst (remove_container id force now d e log)))
     = active_containers e
  /\ live (snd (fst (remove_container id force now d e log))) = live e.
Proof.
  intros [c Hc] Hfail. unfold remove_container, live. rewrite Hc.
  pose proof (stop_container_active id now (stop_ok d) e log) as Hstop.
  destruct (is_running d).
  - destruct (stop_container id now (stop_ok d) e log) as [[b e1] log1].
    cbn [fst snd] in *. rewrite Hfail. cbn. now rewrite Hstop.
  - now rewrite Hfail.
Qed.

(** X9: calls that name a container the engine does not track never
    reach the daemon and change nothing: [stop_container] and
    [remove_container] answer [True], [start_container] and
    [execute_in_container] raise [ValueError]. *)
Theorem untracked_container_calls
  (id : string) (force ok : bool) (now : Qc) (d : removal) (r : res string)
  (e : t) (log : list daemon_call) :
  active_containers e !! id = None ->
  stop_container id now ok e log = (true, e, log)
  /\ remove_container id force now d e log = (true, e, log)
  /\ start_container id now ok e log
     = (Raise (ValueError ("Container not found: " +:+ id)), e, log)
  /\ execute_in_container id now r e log
     = (Raise (ValueError ("Container not found: " +:+ id)), e, log).
Proof.
  intros Hid.
  unfold stop_container, remove_container, start_container,
    execute_in_container.
  rewrite Hid. repeat split.
Qed.

(** X10: creating a container under a fresh id and removing it again
    gives the engine back as it was, whether or not the container had to
    be stopped first. *)
Theorem create_then_remove_restores
  (task : option string) (stamp img id : string) (now later : Qc)
  (force : bool) (d : removal) (e : t) (log : list daemon_call) :
  (live e < max_containers e)%Z ->
  active_containers e !! id = None ->
  container_stats e !! id = None ->
  remove_ok d = true ->
  let created := create_container task stamp now img (Ok id) e log in
  fst (fst created) = Ok id
  /\ remove_container id force later d (snd (fst created)) (snd created)
       = (true, e,
          snd (remove_container id force later d (snd (fst created))
                 (snd created))).
Proof.
  intros Hroom Ha Hs Hok created. unfold created, create_container, live in *.
  rewrite bool_decide_false by lia. cbn [fst snd].
  split; [reflexivity|].
  unfold remove_container. cbn [active_containers set_tracking].
  rewrite lookup_insert_eq.
  assert (Hback : forall s1,
    set_tracking
      (delete id (<[id := mk_container ("neurogrid-task-" +:+ default stamp task) img]>
                    (active_containers e)))
      (delete id (<[id := s1]> (container_stats e))) e = e).
  { intros s1. rewrite !delete_insert_id by assumption. now destruct e. }
  destruct (is_running d).
  - unfold stop_container. cbn [active_containers set_tracking container_stats].
    rewrite lookup_insert_eq. destruct (stop_ok d).
    + rewrite lookup_insert_eq. cbn [fst snd]. rewrite Hok.
      cbn [active_containers container_stats set_tracking max_containers].
      rewrite insert_insert_eq.
      f_equal. f_equal. apply Hback.
    + cbn [fst snd]. rewrite Hok.
      cbn [active_containers container_stats set_tracking max_containers].
      f_equal. f_equal. apply Hback.
  - rewrite Hok.
    cbn [active_containers container_stats set_tracking max_containers].
    f_equal. f_equal. apply Hback.
Qed.

(** An engine with three tracked containers, and a daemon that does
    what it is asked. *)
Definition full_engine : t := fst (run DockerFacts.three_creates (init 3, [])).

Definition obliging (id : string) : removal := mk_removal true true true.

Lemma cleanup_leaves_nothing_tracked_witness :
  live full_engine = 3%Z
  /\ active_containers (fst (cleanup (Q2Qc 9) obliging full_engine [])) = ∅
  /\ live (fst (cleanup (Q2Qc 9) obliging full_engine [])) = 0%Z
  /\ last (snd (cleanup (Q2Qc 9) obliging full_engine [])) = Some RemoveStale.
Proof.
  split; [vm_compute; reflexivity|].
  apply (cleanup_leaves_nothing_tracked (Q2Qc 9) obliging full_engine []).
  intros id. reflexivity.
Defined.

Lemma failed_removal_keeps_container_witness :
  let d := mk_removal false true false in
  fst (fst (remove_container "c1" true (Q2Qc 9) d full_engine [])) = false
  /\ active_containers
       (snd (fst (remove_container "c1" true (Q2Qc 9) d full_engine [])))
     = active_containers full_engine
  /\ live (snd (fst (remove_container "c1" true (Q2Qc 9) d full_engine [])))
     = live full_engine.
Proof.
  intros d.
  apply (failed_removal_keeps_container "c1" true (Q2Qc 9) d full_engine []).
  - eexists. vm_compute. reflexivity.
  - reflexivity.
Defined.

Lemma untracked_container_calls_witness :
  stop_container "c9" (Q2Qc 9) true full_engine [] = (true, full_engine, [])
  /\ remove_container "c9" false (Q2Qc 9) (obliging "c9") full_engine []
     = (true, full_engine, [])
  /\ start_container "c9" (Q2Qc 9) true full_engine []
     = (Raise (ValueError ("Container not found: " +:+ "c9")), full_engine, [])
  /\ execute_in_container "c9" (Q2Qc 9) (Ok "out") full_engine []
     = (Raise (ValueError ("Container not found: " +:+ "c9")), full_engine, []).
Proof.
  apply (untracked_container_calls "c9" false true (Q2Qc 9) (obliging "c9")
           (Ok "out") full_engine []).
  vm_compute. reflexivity.
Defined.

Lemma create_then_remove_restores_witness :
  let e := init 3 in
  let created :=
    create_container (Some "t1") "1" (Q2Qc 1) "neurogrid/ai-worker:latest"
      (Ok "c1") e [] in
  fst (fst created) = Ok "c1"
  /\ remove_container "c1" true (Q2Qc 2) (obliging "c1") (snd (fst created))
       (snd created)
     = (true, e,
        snd (remove_container "c1" true (Q2Qc 2) (obliging "c1")
               (snd (fst created)) (snd created))).
Proof.
  intros e.
  apply (create_then_remove_restores (Some "t1") "1"
           "neurogrid/ai-worker:latest" "c1" (Q2Qc 1) (Q2Qc 2) true
           (obliging "c1") e []).
  - vm_compute. reflexivity.
  - reflexivity.
  - reflexivity.
  - reflexivity.
Defined.

End ContainerFacts.

(** ** crypto.py: peer encryption, MACs, backups *)

Module CryptoPeers.

Import Py Bytes CryptoLibs CryptoManager.

(** [hmac.new(key, data, hashlib.sha256).hexdigest()] *)
Class MacLib := {
  hmac_sha256_hex : bytes -> bytes -> string
}.

(** What [base64], [str.encode]/[bytes.decode] and the PEM serializers
    give back on their own output. *)
Class CodecLaws (L : Libs) : Prop := {
  b64_roundtrip : forall b, b64decode (b64encode b) = Ok b;
  utf8_roundtrip : forall s, utf8_decode (utf8_encode s) = Ok s;
  pem_private_roundtrip : forall k, load_pem_private (pem_private k) = Some k;
  pem_public_roundtrip : forall k, load_pem_public (pem_public k) = Some k
}.

Section WithLibs.

Context {L : Libs}.

(** [_hybrid_encrypt_for_peer] *)
Definition _hybrid_encrypt_for_peer (e : entropy) (d : bytes)
    (peer_public_key : PubKey) : res bytes * entropy :=
  let '(aes_key, e) := urandom 32 e in
  let '(iv, e) := urandom 16 e in
  let '(ciphertext, tag) := aes_gcm_encrypt aes_key iv d in
  let '(seed, e) := urandom 32 e in
  match rsa_encrypt peer_public_key seed aes_key with
  | Raise err => (Raise err, e)
  | Ok encrypted_key =>
      match to_bytes4 (length encrypted_key) with
      | None => (Raise (Exception "OverflowError"), e)
      | Some len4 => (Ok (len4 ++ encrypted_key ++ iv ++ tag ++ ciphertext), e)
      end
  end.

(** [encrypt_for_peer]: it reads neither the manager's keys nor its
    [encryption_enabled] flag. *)
Definition encrypt_for_peer (e : entropy) (d : data L)
    (peer_public_key : PubKey) : res string * entropy :=
  let data_bytes :=
    match d with
    | DDict o => match json_dumps o with
                 | Ok s => Ok (utf8_encode s)
                 | Raise err => Raise err
                 end
    | DStr s => Ok (utf8_encode s)
    | DBytes b => Ok b
    end in
  match data_bytes with
  | Raise err => (Raise err, e)
  | Ok b =>
      let '(encrypted, e) :=
        if bool_decide (190 < length b)%nat
        then _hybrid_encrypt_for_peer e b peer_public_key
        else let '(seed, e) := urandom 32 e in
             (rsa_encrypt peer_public_key seed b, e) in
      match encrypted with
      | Raise err => (Raise err, e)
      | Ok c => (Ok (b64encode c), e)
      end
  end.

(** The argument of [create_hmac]: [Union[str, bytes]]. *)
Inductive text :=
| TStr (s : string)
| TBytes (b : bytes).

Context {Mac : MacLib}.

(** [create_hmac]: the manager's symmetric key stands in for a key that
    is [None]; an empty key is refused. *)
Definition create_hmac (cm : t L) (d : text) (key : option bytes) : res string :=
  let key := match key with
             | Some k => Some k
             | None => symmetric_key cm
             end in
  match key with
  | Some (k0 :: k) =>
      let d := match d with TStr s => utf8_encode s | TBytes b => b end in
      Ok (hmac_sha256_hex (k0 :: k) d)
  | _ => Raise (RuntimeError "No key available for HMAC")
  end.

(** [verify_hmac]: any exception is logged and answered with [False]. *)
Definition verify_hmac (cm : t L) (d : text) (signature : string)
    (key : option bytes) : bool :=
  match create_hmac cm d key with
  | Ok expected_signature => bool_decide (signature = expected_signature)
  | Raise _ => false
  end.

(** One turn of the loop of [cleanup_old_backups] on the directory
    [backup_<stamp>]: [shutil] is not imported, so the removal of an old
    directory raises [NameError]. *)
Definition remove_if_old (cutoff_time : Qc) (stamp : Z) (f : fs) : res fs :=
  if bool_decide (Q2Qc (inject_Z stamp) < cutoff_time)%Qc
  then Raise (NameError "shutil")
  else Ok f.

(** [cleanup_old_backups]: the bare [except: pass] around each turn
    swallows what the turn raises. *)
Definition cleanup_old_backups (max_age_days : Z) (now : Qc) (f : fs) : fs :=
  let cutoff_time := (now - Q2Qc (inject_Z (max_age_days * 24 * 3600)))%Qc in
  fold_left (fun f stamp =>
               match remove_if_old cutoff_time stamp f with
               | Ok f' => f'
               | Raise _ => f
               end)
            (map fst (map_to_list (backups f))) f.

End WithLibs.

End CryptoPeers.

(** *** An instance of the libraries with codecs that invert *)

Module ToyCodecs.

Import Py Bytes CryptoLibs CryptoPeers.

Definition char0 : Ascii.ascii := Eval cbv in Ascii.ascii_of_nat 48.
Definition char1 : Ascii.ascii := Eval cbv in Ascii.ascii_of_nat 49.

Fixpoint pos_bits (p : positive) : string :=
  match p with
  | xH => EmptyString
  | xO p => String char0 (pos_bits p)
  | xI p => String char1 (pos_bits p)
  end.

Fixpoint bits_pos (s : string) : positive :=
  match s with
  | EmptyString => xH
  | String c s => if Ascii.eqb c char0 then xO (bits_pos s) else xI (bits_pos s)
  end.

Lemma bits_pos_bits p : bits_pos (pos_bits p) = p.
Proof. induction p as [p IH|p IH|]; cbn; now rewrite ?IH. Qed.

(** "base64": the digits of the code of the byte list. *)
Definition toy_b64encode (b : bytes) : string := pos_bits (encode b).

Definition toy_b64decode (s : string) : res bytes :=
  match decode (bits_pos s) with
  | Some b => Ok b
  | None => Raise (ValueError "Incorrect padding")
  end.

(** "UTF-8": one byte per character. *)
Definition toy_utf8_encode (s : string) : bytes :=
  map (fun a => Z.of_nat (Ascii.nat_of_ascii a)) (String.list_ascii_of_string s).

Definition toy_utf8_decode (b : bytes) : res string :=
  Ok (String.string_of_list_ascii (map (fun z => Ascii.ascii_of_nat (Z.to_nat z)) b)).

(** "JSON": the texts that open with a brace are objects. *)
Definition toy_json_loads (s : string) : option string :=
  if String.prefix "{" s then Some s else None.

#[global] Instance coded : Libs := {|
  PrivKey := unit;
  PubKey := unit;
  PyObj := string;
  Token := gmap string jvalue * string;
  public_key_of := fun _ => tt;
  rsa_generate := fun e => (tt, e);
  rsa_encrypt := ToyLibs.toy_rsa_encrypt;
  rsa_decrypt := ToyLibs.toy_rsa_decrypt;
  aes_gcm_encrypt := ToyLibs.toy_aes_encrypt;
  aes_gcm_decrypt := ToyLibs.toy_aes_decrypt;
  pem_private := fun _ => [45%Z];
  pem_public := fun _ => [43%Z];
  load_pem_private := fun b => if bool_decide (b = [45%Z]) then Some tt else None;
  load_pem_public := fun b => if bool_decide (b = [43%Z]) then Some tt else None;
  jwt_encode := fun claims key => (claims, key);
  jwt_decode := ToyLibs.toy_jwt_decode;
  json_dumps := fun o => Ok o;
  json_loads := toy_json_loads;
  b64encode := toy_b64encode;
  b64decode := toy_b64decode;
  utf8_encode := toy_utf8_encode;
  utf8_decode := toy_utf8_decode
|}.

#[global] Instance coded_cipher_laws : CipherLaws coded.
Proof.
  split.
  - intros priv seed m Hm.
    exact (@rsa_roundtrip ToyLibs.toy ToyLibs.toy_cipher_laws priv seed m Hm).
  - intros key iv m Hk Hi.
    exact (@aes_roundtrip ToyLibs.toy ToyLibs.toy_cipher_laws key iv m Hk Hi).
Qed.

#[global] Instance coded_jwt_laws : JwtLaws coded.
Proof.
  split. intros claims key now exp Hexp Hlt.
  exact (@decode_expired ToyLibs.toy ToyLibs.toy_jwt_laws claims key now exp
           Hexp Hlt).
Qed.

#[global] Instance coded_codec_laws : CodecLaws coded.
Proof.
  split.
  - intros b. cbn. unfold toy_b64decode, toy_b64encode.
    now rewrite bits_pos_bits, decode_encode.
  - intros s. cbn. unfold toy_utf8_decode, toy_utf8_encode.
    rewrite map_map. f_equal.
    rewrite <- (String.string_of_list_ascii_of_string s) at 2. f_equal.
    induction (String.list_ascii_of_string s) as [|a l IH]; [reflexivity|].
    cbn. now rewrite Nat2Z.id, Ascii.ascii_nat_embedding, IH.
  - intros []. reflexivity.
  - intros []. reflexivity.
Qed.

(** "HMAC": key and data side by side. *)
#[global] Instance toy_mac : MacLib := {|
  hmac_sha256_hex := fun key d => toy_b64encode (key ++ d)
|}.

End ToyCodecs.

(** *** Round trips, persistence of keys, and what is never cleaned *)

Module CryptoPeerFacts.

Import Py Bytes CryptoLibs CryptoManager CryptoPeers.

Section WithLibs.

Context {L : Libs}.

(** X11: [cleanup_old_backups] removes nothing: every turn that finds a
    backup old enough fails on the missing [shutil], and the failure is
    swallowed; the directory looks the same afterwards, however old its
    backups are. *)
Theorem cleanup_old_backups_removes_nothing
  (max_age_days : Z) (now : Qc) (f : fs) :
  cleanup_old_backups max_age_days now f = f.
Proof.
  unfold cleanup_old_backups.
  generalize (now - Q2Qc (inject_Z (max_age_days * 24 * 3600)))%Qc.
  intros cutoff. generalize (map fst (map_to_list (backups f))).
  intros stamps. revert f.
  induction stamps as [|stamp stamps IH]; intros f; [reflexivity|].
  cbn [fold_left]. unfold remove_if_old. case_bool_decide; apply IH.
Qed.

(** X12: on a writable key directory [_load_or_generate_symmetric_key]
    returns a 32-byte key that is then in [symmetric.key]; a later call
    (a restart) returns that key again, whatever the randomness on
    offer, and draws none of it. *)
Theorem symmetric_key_is_persisted (f : fs) (e : entropy) :
  writable f = true ->
  let out := _load_or_generate_symmetric_key f e in
  length (fst (fst out)) = 32%nat
  /\ files (snd (fst out)) !! "symmetric.key" = Some (fst (fst out))
  /\ (forall e2,
        _load_or_generate_symmetric_key (snd (fst out)) e2
        = (fst (fst out), snd (fst out), e2)).
Proof.
  intros Hw out. unfold out, _load_or_generate_symmetric_key. rewrite Hw.
  assert (Hgen : forall key,
    length key = 32%nat ->
    files (write_files {[ "symmetric.key" := key ]} f) !! "symmetric.key"
    = Some key).
  { intros key _. cbn. apply lookup_union_Some_l, lookup_singleton_eq. }
  destruct (files f !! "symmetric.key") as [key_data|] eqn:Hfile.
  - case_bool_decide as Hlen.
    + cbn [fst snd]. split; [exact Hlen|]. split; [exact Hfile|].
      intros e2. rewrite Hfile. now rewrite bool_decide_true by exact Hlen.
    + destruct (urandom 32 e) as [key e1] eqn:Hk. cbn [fst snd].
      assert (Hklen : length key = 32%nat)
        by (pose proof (urandom_length 32 e) as H; now rewrite Hk in H).
      split; [exact Hklen|]. split; [apply Hgen, Hklen|].
      intros e2. rewrite (Hgen key Hklen).
      now rewrite bool_decide_true by exact Hklen.
  - destruct (urandom 32 e) as [key e1] eqn:Hk. cbn [fst snd].
    assert (Hklen : length key = 32%nat)
      by (pose proof (urandom_length 32 e) as H; now rewrite Hk in H).
    split; [exact Hklen|]. split; [apply Hgen, Hklen|].
    intros e2. rewrite (Hgen key Hklen).
    now rewrite bool_decide_true by exact Hklen.
Qed.

(** X13: a caller's claims win over the standard ones: with an ["exp"]
    of its own that is already past, the token [create_jwt_token] issues
    is refused from the start, whatever [expiry_hours] says. *)
Theorem caller_expiry_overrides
  {HJ : JwtLaws L}
  (cm : t L) (payload : gmap string jvalue) (hours : option Z)
  (exp now : Qc) :
  payload !! "exp" = Some (JNum exp) ->
  (exp < now)%Qc ->
  (exists claims,
     create_jwt_token cm payload hours now = jwt_encode claims (jwt_secret cm)
     /\ (forall k v, payload !! k = Some v -> claims !! k = Some v)
     /\ claims !! "iat" = Some (default (JNum now) (payload !! "iat")))
  /\ verify_jwt_token cm (create_jwt_token cm payload hours now) now = Ok None.
Proof.
  intros Hexp Hpast. split.
  - unfold create_jwt_token. eexists. split; [reflexivity|]. split.
    + intros k v Hk. now apply lookup_union_Some_l.
    + destruct (payload !! "iat") as [v|] eqn:Hiat; cbn.
      * now apply lookup_union_Some_l.
      * rewrite lookup_union_r by exact Hiat. apply lookup_insert_eq.
  - apply TokenFacts.verify_jwt_token_none.
    unfold create_jwt_token.
    apply (decode_expired _ (jwt_secret cm) now exp); [|exact Hpast].
    now apply lookup_union_Some_l.
Qed.

Context {HC : CipherLaws L}.

(** X14: with a 32-byte symmetric key, [_decrypt_symmetric] gives back
    what [_encrypt_symmetric] was given; the ciphertext is a 16-byte IV,
    the 16-byte tag and the AES-GCM output, in this order. *)
Theorem symmetric_roundtrip
  (cm : t L) (key : bytes) (e : entropy) (x : bytes) :
  symmetric_key cm = Some key ->
  length key = 32%nat ->
  exists iv,
    length iv = 16%nat
    /\ length (snd (aes_gcm_encrypt key iv x)) = 16%nat
    /\ fst (_encrypt_symmetric cm e x)
       = Ok (iv ++ snd (aes_gcm_encrypt key iv x)
                ++ fst (aes_gcm_encrypt key iv x))
    /\ _decrypt_symmetric cm
         (iv ++ snd (aes_gcm_encrypt key iv x) ++ fst (aes_gcm_encrypt key iv x))
       = Ok x.
Proof.
  intros Hkey Hlen. unfold _encrypt_symmetric, _decrypt_symmetric.
  rewrite Hkey. destruct key as [|k0 k]; [discriminate|].
  destruct (urandom 16 e) as [iv e1] eqn:Hiv.
  assert (Hivlen : length iv = 16%nat)
    by (pose proof (urandom_length 16 e) as H; now rewrite Hiv in H).
  destruct (aes_roundtrip (k0 :: k) iv x Hlen Hivlen) as [Htag Hdec].
  exists iv.
  destruct (aes_gcm_encrypt (k0 :: k) iv x) as [ciphertext tag].
  cbn [fst snd] in *.
  split; [exact Hivlen|]. split; [exact Htag|].
  split; [reflexivity|].
  rewrite (CryptoFacts.slice_app_l iv _ 16 Hivlen).
  rewrite (CryptoFacts.slice_app_skip iv _ 16 32 Hivlen).
  replace (32 - 16)%nat with 16%nat by lia.
  rewrite (CryptoFacts.take_app_exact tag _ 16 Htag).
  replace (iv ++ tag ++ ciphertext) with ((iv ++ tag) ++ ciphertext)
    by now rewrite <- app_assoc.
  replace 32%nat with (length (iv ++ tag)) by (rewrite length_app; lia).
  rewrite drop_app_length. exact Hdec.
Qed.

Lemma symmetric_ciphertext_decrypts
  (cm : t L) (key : bytes) (e : entropy) (x : bytes) :
  symmetric_key cm = Some key ->
  length key = 32%nat ->
  exists c e', _encrypt_symmetric cm e x = (Ok c, e')
               /\ _decrypt_symmetric cm c = Ok x.
Proof.
  intros Hkey Hlen. unfold _encrypt_symmetric, _decrypt_symmetric.
  rewrite Hkey. destruct key as [|k0 k]; [discriminate|].
  destruct (urandom 16 e) as [iv e1] eqn:Hiv.
  assert (Hivlen : length iv = 16%nat)
    by (pose proof (urandom_length 16 e) as H; now rewrite Hiv in H).
  destruct (aes_roundtrip (k0 :: k) iv x Hlen Hivlen) as [Htag Hdec].
  destruct (aes_gcm_encrypt (k0 :: k) iv x) as [ciphertext tag].
  cbn [fst snd] in *. eexists _, _. split; [reflexivity|].
  rewrite (CryptoFacts.slice_app_l iv _ 16 Hivlen).
  rewrite (CryptoFacts.slice_app_skip iv _ 16 32 Hivlen).
  replace (32 - 16)%nat with 16%nat by lia.
  rewrite (CryptoFacts.take_app_exact tag _ 16 Htag).
  replace (iv ++ tag ++ ciphertext) with ((iv ++ tag) ++ ciphertext)
    by now rewrite <- app_assoc.
  replace 32%nat with (length (iv ++ tag)) by (rewrite length_app; lia).
  rewrite drop_app_length. exact Hdec.
Qed.

(** The bytes [encrypt_for_peer] produces for a peer's public key are
    the ones that peer's [_decrypt_asymmetric] reads. *)
Lemma peer_ciphertext_decrypts
  (peer : t L) (priv : PrivKey) (e : entropy) (b : bytes) :
  private_key peer = Some priv ->
  exists c e',
    (if bool_decide (190 < length b)%nat
     then _hybrid_encrypt_for_peer e b (public_key_of priv)
     else let '(seed, e) := urandom 32 e in
          (rsa_encrypt (public_key_of priv) seed b, e)) = (Ok c, e')
    /\ _decrypt_asymmetric peer c = Ok b.
Proof.
  intros Hpriv. unfold _decrypt_asymmetric. rewrite Hpriv.
  case_bool_decide as Hsize.
  - unfold _hybrid_encrypt_for_peer.
    destruct (urandom 32 e) as [aes_key e1] eqn:Hk.
    destruct (urandom 16 e1) as [iv e2] eqn:Hi.
    assert (Hklen : length aes_key = 32%nat)
      by (pose proof (urandom_length 32 e) as H; now rewrite Hk in H).
    assert (Hilen : length iv = 16%nat)
      by (pose proof (urandom_length 16 e1) as H; now rewrite Hi in H).
    destruct (aes_roundtrip aes_key iv b Hklen Hilen) as [Htag Haes].
    destruct (aes_gcm_encrypt aes_key iv b) as [ciphertext tag].
    cbn [fst snd] in Htag, Haes.
    destruct (urandom 32 e2) as [seed e3].
    destruct (rsa_roundtrip priv seed aes_key) as (wrapped & Hw & Hwlen & Hdec);
      [lia|].
    rewrite Hw.
    assert (Hlen4 : exists len4, to_bytes4 (length wrapped) = Some len4)
      by (rewrite Hwlen; eexists; reflexivity).
    destruct Hlen4 as [len4 Hlen4]. rewrite Hlen4.
    pose proof (to_bytes4_length _ _ Hlen4) as H4.
    eexists _, _. split; [reflexivity|].
    rewrite bool_decide_true by (rewrite !length_app; lia).
    rewrite (CryptoFacts.hybrid_decrypt_layout priv len4 wrapped iv tag
               ciphertext aes_key); auto.
  - destruct (urandom 32 e) as [seed e1].
    destruct (rsa_roundtrip priv seed b) as (c & Hc & Hclen & Hdec); [lia|].
    exists c, e1. split; [now rewrite Hc|].
    rewrite bool_decide_false by lia. exact Hdec.
Qed.

Context {HK : CodecLaws L}.

(** What [decrypt_data] makes of a decrypted text: the parsed JSON value
    when the text parses, the text itself otherwise. *)
Definition parsed (s : string) : plain L :=
  match json_loads s with
  | Some o => PObj o
  | None => PStr s
  end.

(** X15: with encryption on and a 32-byte symmetric key, [decrypt_data]
    undoes [encrypt_data] up to JSON parsing: a dict comes back as the
    parse of its serialization, and a string comes back parsed when it
    happens to be JSON text, as itself otherwise. *)
Theorem encrypt_data_decrypt_data
  (cm : t L) (key : bytes) (e : entropy) (s : string) (o : PyObj) :
  encryption_enabled cm = true ->
  symmetric_key cm = Some key ->
  length key = 32%nat ->
  (exists token,
     fst (encrypt_data cm e (DStr s) Symmetric) = Ok token
     /\ decrypt_data cm token Symmetric = Ok (parsed s))
  /\ (json_dumps o = Ok s ->
      exists token,
        fst (encrypt_data cm e (DDict o) Symmetric) = Ok token
        /\ decrypt_data cm token Symmetric = Ok (parsed s)).
Proof.
  intros Hon Hkey Hlen.
  destruct (symmetric_ciphertext_decrypts cm key e (utf8_encode s) Hkey Hlen)
    as (c & e' & Henc & Hdec).
  assert (Hback : decrypt_data cm (b64encode c) Symmetric = Ok (parsed s)).
  { unfold decrypt_data, parsed. rewrite Hon. cbn [negb].
    rewrite b64_roundtrip, Hdec, utf8_roundtrip.
    now destruct (json_loads s). }
  split.
  - exists (b64encode c). split; [|exact Hback].
    unfold encrypt_data. rewrite Hon. cbn [negb]. now rewrite Henc.
  - intros Hdumps. exists (b64encode c). split; [|exact Hback].
    unfold encrypt_data. rewrite Hon. cbn [negb]. rewrite Hdumps.
    now rewrite Henc.
Qed.

(** X16: what [encrypt_for_peer] produces under a peer's public key,
    that peer's [decrypt_data(..., 'asymmetric')] reads back (parsed
    when it is JSON text), whatever the size of the text; the sender
    needs no key of its own. *)
Theorem encrypt_for_peer_reaches_peer
  (peer : t L) (priv : PrivKey) (e : entropy) (s : string) :
  encryption_enabled peer = true ->
  private_key peer = Some priv ->
  exists token,
    fst (encrypt_for_peer e (DStr s) (public_key_of priv)) = Ok token
    /\ decrypt_data peer token Asymmetric = Ok (parsed s).
Proof.
  intros Hon Hpriv.
  destruct (peer_ciphertext_decrypts peer priv e (utf8_encode s) Hpriv)
    as (c & e' & Henc & Hdec).
  exists (b64encode c). split.
  - unfold encrypt_for_peer. now rewrite Henc.
  - unfold decrypt_data, parsed. rewrite Hon. cbn [negb].
    rewrite b64_roundtrip, Hdec, utf8_roundtrip.
    now destruct (json_loads s).
Qed.

(** A pair whose PEM files are in the directory is what a call loads. *)
Lemma rsa_keys_reload (f : fs) (private : PrivKey) (public : PubKey)
    (e : entropy) :
  files f !! "private.pem" = Some (pem_private private) ->
  files f !! "public.pem" = Some (pem_public public) ->
  _load_or_generate_rsa_keys f e = ((private, public), f, e).
Proof.
  intros Hpriv Hpub. unfold _load_or_generate_rsa_keys.
  now rewrite Hpriv, Hpub, pem_private_roundtrip, pem_public_roundtrip.
Qed.

(** The two ways a call ends on a writable directory. *)
Lemma rsa_keys_outcome (f : fs) (e : entropy) :
  writable f = true ->
  (exists priv_pem pub_pem private public,
     files f !! "private.pem" = Some priv_pem
     /\ files f !! "public.pem" = Some pub_pem
     /\ load_pem_private priv_pem = Some private
     /\ load_pem_public pub_pem = Some public
     /\ _load_or_generate_rsa_keys f e = ((private, public), f, e))
  \/ (exists private e1,
        _load_or_generate_rsa_keys f e
        = ((private, public_key_of private),
           write_files {[ "private.pem" := pem_private private;
                          "public.pem" := pem_public (public_key_of private) ]}
                       f,
           e1)).
Proof.
  intros Hw. unfold _load_or_generate_rsa_keys. rewrite Hw.
  destruct (files f !! "private.pem") as [priv_pem|];
    [destruct (files f !! "public.pem") as [pub_pem|];
     [destruct (load_pem_private priv_pem) as [private|] eqn:Hlp;
      [destruct (load_pem_public pub_pem) as [public|] eqn:Hlq|]|]|];
    try (right; destruct (rsa_generate e) as [private' e1];
         now exists private', e1).
  left. now exists priv_pem, pub_pem, private, public.
Qed.

(** X17: on a writable key directory the RSA pair
    [_load_or_generate_rsa_keys] returns is the pair a later call loads
    from the PEM files, without drawing randomness; and a pair that had
    to be generated because no private key file existed is a matching
    pair. *)
Theorem rsa_keys_are_persisted (f : fs) (e : entropy) :
  writable f = true ->
  let out := _load_or_generate_rsa_keys f e in
  (forall e2,
     _load_or_generate_rsa_keys (snd (fst out)) e2
     = (fst (fst out), snd (fst out), e2))
  /\ (files f !! "private.pem" = None ->
      snd (fst (fst out)) = public_key_of (fst (fst (fst out)))).
Proof.
  intros Hw out. unfold out.
  destruct (rsa_keys_outcome f e Hw)
    as [(priv_pem & pub_pem & private & public & Hp & Hq & Hlp & Hlq & ->)
       |(private & e1 & ->)];
    cbn [fst snd].
  - split; [|rewrite Hp; discriminate].
    intros e2. unfold _load_or_generate_rsa_keys.
    now rewrite Hp, Hq, Hlp, Hlq.
  - split; [|reflexivity].
    intros e2. apply rsa_keys_reload; unfold write_files; cbn [files].
    + apply lookup_union_Some_l, lookup_insert_eq.
    + apply lookup_union_Some_l.
      rewrite lookup_insert_ne by discriminate. apply lookup_singleton_eq.
Qed.

Context {Mac : MacLib}.

(** X18: [verify_hmac] accepts a signature exactly when [create_hmac]
    returns it for the same data and key; where [create_hmac] raises for
    want of a key, [verify_hmac] answers [False] for every signature. *)
Theorem verify_hmac_accepts_own_mac
  (cm : t L) (d : text) (signature : string) (key : option bytes) :
  (verify_hmac cm d signature key = true
   <-> create_hmac cm d key = Ok signature)
  /\ (key = Some []
      \/ (key = None
          /\ (symmetric_key cm = None \/ symmetric_key cm = Some [])) ->
      create_hmac cm d key = Raise (RuntimeError "No key available for HMAC")
      /\ verify_hmac cm d signature key = false).
Proof.
  split.
  - unfold verify_hmac. destruct (create_hmac cm d key) as [expected|err].
    + rewrite bool_decide_eq_true. split; [now intros -> | now intros [= ->]].
    + split; discriminate.
  - unfold verify_hmac, create_hmac.
    intros [-> | [-> [-> | ->]]]; split; reflexivity.
Qed.

End WithLibs.

Definition coded_manager : t ToyCodecs.coded :=
  mk true (Some (replicate 32 7%Z)) (Some tt) (Some tt) "secret" 1.

Definition empty_dir : fs := mk_fs ∅ ∅ true.

Lemma symmetric_key_is_persisted_witness :
  let out := _load_or_generate_symmetric_key empty_dir CryptoFacts.e0 in
  length (fst (fst out)) = 32%nat
  /\ files (snd (fst out)) !! "symmetric.key" = Some (fst (fst out))
  /\ (forall e2,
        _load_or_generate_symmetric_key (snd (fst out)) e2
        = (fst (fst out), snd (fst out), e2)).
Proof.
  exact (symmetric_key_is_persisted empty_dir CryptoFacts.e0 eq_refl).
Defined.

Definition stale_claims : gmap string jvalue :=
  {[ "node_id" := JStr "n1"; "exp" := JNum (Q2Qc 5) ]}.

Lemma caller_expiry_overrides_witness :
  (exists claims,
     create_jwt_token coded_manager stale_claims (Some 24%Z) (Q2Qc 10)
     = jwt_encode claims "secret"
     /\ (forall k v, stale_claims !! k = Some v -> claims !! k = Some v)
     /\ claims !! "iat" = Some (JNum (Q2Qc 10)))
  /\ verify_jwt_token coded_manager
       (create_jwt_token coded_manager stale_claims (Some 24%Z) (Q2Qc 10))
       (Q2Qc 10) = Ok None.
Proof.
  exact (caller_expiry_overrides coded_manager stale_claims (Some 24%Z)
           (Q2Qc 5) (Q2Qc 10) eq_refl eq_refl).
Defined.

Lemma symmetric_roundtrip_witness :
  let key := replicate 32 7%Z in
  exists iv,
    length iv = 16%nat
    /\ length (snd (aes_gcm_encrypt key iv [1; 2; 3]%Z)) = 16%nat
    /\ fst (_encrypt_symmetric coded_manager CryptoFacts.e0 [1; 2; 3]%Z)
       = Ok (iv ++ snd (aes_gcm_encrypt key iv [1; 2; 3]%Z)
                ++ fst (aes_gcm_encrypt key iv [1; 2; 3]%Z))
    /\ _decrypt_symmetric coded_manager
         (iv ++ snd (aes_gcm_encrypt key iv [1; 2; 3]%Z)
             ++ fst (aes_gcm_encrypt key iv [1; 2; 3]%Z))
       = Ok [1; 2; 3]%Z.
Proof.
  exact (symmetric_roundtrip coded_manager (replicate 32 7%Z) CryptoFacts.e0
           [1; 2; 3]%Z eq_refl eq_refl).
Defined.

Lemma encrypt_data_decrypt_data_witness :
  (exists token,
     fst (encrypt_data coded_manager CryptoFacts.e0 (DStr "{}") Symmetric)
     = Ok token
     /\ decrypt_data coded_manager token Symmetric = Ok (PObj "{}"))
  /\ (exists token,
       fst (encrypt_data coded_manager CryptoFacts.e0 (DStr "done") Symmetric)
       = Ok token
       /\ decrypt_data coded_manager token Symmetric = Ok (PStr "done")).
Proof.
  split.
  - exact (proj1 (encrypt_data_decrypt_data coded_manager (replicate 32 7%Z)
                    CryptoFacts.e0 "{}" "{}" eq_refl eq_refl eq_refl)).
  - exact (proj1 (encrypt_data_decrypt_data coded_manager (replicate 32 7%Z)
                    CryptoFacts.e0 "done" "{}" eq_refl eq_refl eq_refl)).
Defined.

Lemma encrypt_for_peer_reaches_peer_witness :
  exists token,
    fst (encrypt_for_peer CryptoFacts.e0 (DStr "result") tt) = Ok token
    /\ decrypt_data coded_manager token Asymmetric = Ok (PStr "result").
Proof.
  exact (encrypt_for_peer_reaches_peer coded_manager tt CryptoFacts.e0
           "result" eq_refl eq_refl).
Defined.

Lemma rsa_keys_are_persisted_witness :
  let out := _load_or_generate_rsa_keys (L := ToyCodecs.coded) empty_dir
               CryptoFacts.e0 in
  (forall e2,
     _load_or_generate_rsa_keys (snd (fst out)) e2
     = (fst (fst out), snd (fst out), e2))
  /\ (files empty_dir !! "private.pem" = None ->
      snd (fst (fst out)) = public_key_of (fst (fst (fst out)))).
Proof.
  exact (rsa_keys_are_persisted (L := ToyCodecs.coded) empty_dir
           CryptoFacts.e0 eq_refl).
Defined.

End CryptoPeerFacts.

(** ** [NodeAgent]: validation, acceptance, cancellation, counters *)

Module TaskFacts.

Import Py NodeAgent.

(** The task names a model type the node supports. *)
Definition model_supported (a : t) (task : task_data) : Prop :=
  exists model_type,
    task !! "model_type" = Some (VStr model_type)
    /\ model_type ∈ supported_models (cfg a).

(** The VRAM the task asks for; none asked counts as 0. *)
Definition required_vram (task : task_data) : value :=
  default (VInt 0) (task !! "required_vram_gb").

(** The comparison [required_vram > max_vram_gb] can be made and is
    false: a number not above the ceiling (a bool counting as 0 or 1),
    minus infinity, or a NaN, with which every comparison is false. *)
Definition within_ceiling (a : t) (task : task_data) : Prop :=
  match as_number (required_vram task) with
  | Some (Finite q) => (q <= PyNum.value_of (max_vram_gb (cfg a)))%Qc
  | Some NegInf | Some NotANumber => True
  | Some PosInf | None => False
  end.

Lemma not_above_iff (ceiling q : Qc) :
  negb (bool_decide (ceiling < q)%Qc) = true <-> (q <= ceiling)%Qc.
Proof.
  rewrite negb_true_iff, bool_decide_eq_false. split.
  - apply Qcnot_lt_le.
  - intros Hle Hlt. exact (Qclt_not_le _ _ Hlt Hle).
Qed.

(** Only a string equals a string. *)
Lemma py_eq_str (v : value) (s : string) :
  py_eq v (VStr s) = true <-> v = VStr s.
Proof.
  destruct v; cbn; try (split; [discriminate | intros [=]]).
  rewrite String.eqb_eq. split; [now intros -> | now intros [= ->]].
Qed.

Lemma py_in_spec (v : value) (models : list string) :
  py_in v models = true <-> exists model, v = VStr model /\ model ∈ models.
Proof.
  unfold py_in. rewrite existsb_exists. split.
  - intros (model & Hin & Heq). exists model.
    split; [now apply py_eq_str | now apply list_elem_of_In].
  - intros (model & -> & Hin). exists model.
    split; [now apply list_elem_of_In | now apply py_eq_str].
Qed.

Lemma model_supported_spec (a : t) (task : task_data) :
  py_in (default VNone (task !! "model_type")) (supported_models (cfg a)) = true
  <-> model_supported a task.
Proof.
  rewrite py_in_spec. unfold model_supported. split.
  - intros (model & Hv & Hin). exists model. split; [|exact Hin].
    destruct (task !! "model_type"); cbn in Hv; [now subst | discriminate].
  - intros (model & Hv & Hin). exists model. now rewrite Hv.
Qed.

(** X19: [_validate_task] answers [True] exactly for a task whose
    [model_type] is a string among [supported_models] and whose
    [required_vram_gb] (0 when absent) compares as not above
    [max_vram_gb]: a number up to the ceiling, the ceiling itself
    included, a bool, minus infinity or a NaN. It raises exactly when the
    model type is supported and [required_vram_gb] is not a number. It
    never changes the agent. *)
Theorem validate_task_accepts_exactly (a : t) (w : world) (task : task_data) :
  snd (_validate_task task (a, w)) = (a, w)
  /\ (fst (_validate_task task (a, w)) = Ok true
      <-> model_supported a task /\ within_ceiling a task)
  /\ ((exists e, fst (_validate_task task (a, w)) = Raise e)
      <-> model_supported a task /\ as_number (required_vram task) = None).
Proof.
  split; [apply AgentFacts.validate_task_state|].
  pose proof (model_supported_spec a task) as Hmodel.
  unfold _validate_task, within_ceiling, required_vram, py_gt.
  AgentFacts.run_M.
  destruct (py_in _ _); cbn [negb].
  2:{ split; (split; [try discriminate; intros [e [=]]
                     | intros [Hs _]; apply Hmodel in Hs; discriminate]). }
  assert (Hs : model_supported a task) by now apply Hmodel.
  destruct (as_number (default (VInt 0) (task !! "required_vram_gb")))
    as [[q| | |]|]; cbn.
  - split.
    + split.
      * intros [= Hq]. split; [exact Hs | now apply not_above_iff].
      * intros [_ Hq]. f_equal. now apply not_above_iff.
    + split; [intros [e [=]] | intros [_ [=]]].
  - split; [split; [discriminate | intros [_ []]]|].
    split; [intros [e [=]] | intros [_ [=]]].
  - split; [split; [auto | reflexivity]|].
    split; [intros [e [=]] | intros [_ [=]]].
  - split; [split; [auto | reflexivity]|].
    split; [intros [e [=]] | intros [_ [=]]].
  - split; [split; [discriminate | intros [_ []]]|].
    split; [auto | eauto].
Qed.

(** X20: an idle agent answers a task that fails validation with
    [task_rejected], reason "Task validation failed", and stays idle:
    the slot is not taken and nothing is scheduled. If that send raises,
    the handler tries once more, with the exception's text as reason. *)
Theorem invalid_task_is_rejected
  (a : t) (w : world) (task : task_data) (task_id : value) :
  busy a = false ->
  task !! "id" = Some task_id ->
  fst (_validate_task task (a, w)) = Ok false ->
  let out := _handle_task_assignment task (a, w) in
  fst (snd out) = a
  /\ pending (snd (snd out)) = pending w
  /\ trace (snd (snd out))
     = trace w ++
       (if ws_up w (sends w)
        then [Sent (task_rejected task_id "Task validation failed")]
        else [SendFailed (task_rejected task_id "Task validation failed");
              if ws_up w (S (sends w))
              then Sent (task_rejected task_id (str ConnectionClosed))
              else SendFailed (task_rejected task_id (str ConnectionClosed))]).
Proof.
  intros Hidle Hid Hvalid out. unfold out.
  rewrite (AgentFacts.idle_assignment_steps a w task task_id false Hidle Hid Hvalid).
  AgentFacts.run_M.
  destruct (ws_up w (sends w)); cbn; [repeat split|].
  destruct (ws_up w (S (sends w))); cbn; rewrite <- app_assoc; repeat split.
Qed.

(** X21: an idle agent that gets a valid task over a live websocket takes
    the slot, acknowledges, and schedules the execution, in this order;
    the task is then the current one. *)
Theorem valid_task_is_accepted
  (a : t) (w : world) (task : task_data) (task_id : value) :
  busy a = false ->
  task !! "id" = Some task_id ->
  fst (_validate_task task (a, w)) = Ok true ->
  ws_up w (sends w) = true ->
  _handle_task_assignment task (a, w)
  = (Ok tt,
     (with_task (Some task) a,
      {| trace := trace w ++ [SlotTaken task; Sent (task_accepted task_id);
                              Spawned task];
         ws_up := ws_up w; sends := S (sends w); work := work w;
         pending := pending w ++ [task] |})).
Proof.
  intros Hidle Hid Hvalid Hup.
  rewrite (AgentFacts.idle_assignment_steps a w task task_id true Hidle Hid Hvalid).
  AgentFacts.run_M. rewrite Hup. cbn. rewrite <- !app_assoc. reflexivity.
Qed.

(** X22: when the acknowledgement cannot be sent, the task is not
    executed, yet the slot taken for it is not given back: the agent is
    left busy with a task nobody runs, and answers later assignments
    with "Node busy". *)
Theorem failed_acknowledgement_keeps_slot
  (a : t) (w : world) (task : task_data) (task_id : value) :
  busy a = false ->
  task !! "id" = Some task_id ->
  fst (_validate_task task (a, w)) = Ok true ->
  ws_up w (sends w) = false ->
  let out := _handle_task_assignment task (a, w) in
  fst (snd out) = with_task (Some task) a
  /\ busy (fst (snd out)) = true
  /\ pending (snd (snd out)) = pending w
  /\ trace (snd (snd out))
     = trace w ++
       [SlotTaken task; SendFailed (task_accepted task_id);
        if ws_up w (S (sends w))
        then Sent (task_rejected task_id (str ConnectionClosed))
        else SendFailed (task_rejected task_id (str ConnectionClosed))].
Proof.
  intros Hidle Hid Hvalid Hdown out. unfold out.
  rewrite (AgentFacts.idle_assignment_steps a w task task_id true Hidle Hid Hvalid).
  AgentFacts.run_M. rewrite Hdown. cbn.
  assert (Hbusy : negb (bool_decide (task = ∅)) = true).
  { rewrite negb_true_iff, bool_decide_eq_false. intros ->.
    now rewrite lookup_empty in Hid. }
  destruct (ws_up w (S (sends w))); cbn; rewrite <- !app_assoc;
    (split; [reflexivity|]); (split; [exact Hbusy|]); split; reflexivity.
Qed.

(** X23: a cancellation whose [task_id] equals the id of the current
    task, as Python's [==] has it (1 and 1.0 are equal, "1" is neither),
    clears the slot and nothing else: no message is sent and the scheduled
    coroutine stays where it is; any other cancellation does nothing. *)
Theorem cancellation_clears_bookkeeping_only
  (a : t) (w : world) (current payload : task_data) (current_id : value) :
  current_task a = Some current ->
  current !! "id" = Some current_id ->
  _handle_task_cancellation payload (a, w)
  = if py_eq current_id (default VNone (payload !! "task_id"))
    then (Ok tt,
          (with_task None a,
           {| trace := trace w ++ [SlotReleased]; ws_up := ws_up w;
              sends := sends w; work := work w; pending := pending w |}))
    else (Ok tt, (a, w)).
Proof.
  intros Hcur Hid. unfold _handle_task_cancellation, busy.
  AgentFacts.run_M. rewrite Hcur.
  rewrite (AgentFacts.task_with_id_nonempty current current_id Hid), Hid. cbn.
  now destruct (py_eq current_id (default VNone (payload !! "task_id"))).
Qed.

(** X24: an assignment without an id gets no reply at all, busy or not:
    the handler raises [KeyError] before anything is sent, and the agent
    and the websocket are as before. *)
Theorem assignment_without_id_gets_no_reply
  (a : t) (w : world) (task : task_data) :
  task !! "id" = None ->
  _handle_task_assignment task (a, w) = (Raise (KeyError "id"), (a, w)).
Proof.
  intros Hid. unfold _handle_task_assignment. AgentFacts.run_M.
  rewrite Hid. now destruct (busy a).
Qed.

Definition is_sent_result (ev : event) : bool :=
  match ev with Sent (task_result _ _) => true | _ => false end.

Definition is_sent_error (ev : event) : bool :=
  match ev with Sent (task_error _ _) => true | _ => false end.

(** X25: the counters follow the reports that went out: a run of
    [_execute_task] adds to [tasks_completed] the number of [task_result]
    messages it sent and to [tasks_failed] the number of [task_error]
    messages it sent, one in all at most; a report the websocket did not
    take is not counted. *)
Theorem counters_follow_reports
  (a : t) (w : world) (task : task_data) (task_id : value) :
  task !! "id" = Some task_id ->
  let out := _execute_task task (a, w) in
  let new := drop (length (trace w)) (trace (snd (snd out))) in
  tasks_completed (fst (snd out))
  = (tasks_completed a + length (List.filter is_sent_result new))%nat
  /\ tasks_failed (fst (snd out))
     = (tasks_failed a + length (List.filter is_sent_error new))%nat
  /\ (length (List.filter is_sent_result new)
      + length (List.filter is_sent_error new) <= 1)%nat.
Proof.
  intros Hid out new. unfold new, out, _execute_task. AgentFacts.run_M.
  rewrite Hid. cbn.
  destruct (ws_up w (sends w)); cbn;
    destruct (task !! "model"); cbn;
    try (destruct (work w task); cbn);
    try (destruct (ws_up w (S (sends w))); cbn);
    try (destruct (ws_up w (S (S (sends w)))); cbn);
    rewrite <- ?app_assoc; rewrite drop_app_length; cbn;
    repeat split; lia.
Qed.

(** X26: a task without a ["model"] entry is reported as failed with the
    text of the [KeyError], without the worker being consulted; the slot
    is released and the failure counted. *)
Theorem task_without_model_fails
  (a : t) (w : world) (task : task_data) (task_id : value) :
  task !! "id" = Some task_id ->
  task !! "model" = None ->
  ws_up w (sends w) = true ->
  ws_up w (S (sends w)) = true ->
  _execute_task task (a, w)
  = (Ok tt,
     ({| cfg := cfg a; current_task := None;
         tasks_completed := tasks_completed a;
         tasks_failed := S (tasks_failed a) |},
      {| trace := trace w ++ [Sent (task_status task_id "running");
                              Sent (task_error task_id "'model'");
                              SlotReleased];
         ws_up := ws_up w; sends := S (S (sends w)); work := work w;
         pending := pending w |})).
Proof.
  intros Hid Hmodel Hup1 Hup2. unfold _execute_task. AgentFacts.run_M.
  rewrite Hid. cbn. rewrite Hup1. cbn. rewrite Hmodel. cbn. rewrite Hup2. cbn.
  rewrite <- !app_assoc. reflexivity.
Qed.

(** A task for a model type the node does not serve; a websocket that
    is down; a task that names no model. *)
Definition image_task : task_data :=
  {[ "id" := VStr "t3"; "model" := VStr "sd"; "model_type" := VStr "image" ]}.

Definition mute_world : world :=
  mk_world [] (fun _ => false) 0 (fun _ => Ok "out") [].

Definition bare_task : task_data := {[ "id" := VStr "t4" ]}.

Lemma invalid_task_is_rejected_witness :
  let out := _handle_task_assignment image_task
               (AgentFacts.idle_agent, AgentFacts.calm_world) in
  fst (snd out) = AgentFacts.idle_agent
  /\ pending (snd (snd out)) = []
  /\ trace (snd (snd out))
     = [] ++ [Sent (task_rejected (VStr "t3") "Task validation failed")].
Proof.
  exact (invalid_task_is_rejected AgentFacts.idle_agent AgentFacts.calm_world
           image_task (VStr "t3") eq_refl eq_refl eq_refl).
Defined.

Lemma valid_task_is_accepted_witness :
  _handle_task_assignment AgentFacts.task1
    (AgentFacts.idle_agent, AgentFacts.calm_world)
  = (Ok tt,
     (with_task (Some AgentFacts.task1) AgentFacts.idle_agent,
      mk_world ([] ++ [SlotTaken AgentFacts.task1;
                       Sent (task_accepted (VStr "t1"));
                       Spawned AgentFacts.task1])
               (fun _ => true) 1 (fun _ => Ok "out")
               ([] ++ [AgentFacts.task1]))).
Proof.
  exact (valid_task_is_accepted AgentFacts.idle_agent AgentFacts.calm_world
           AgentFacts.task1 (VStr "t1") eq_refl eq_refl eq_refl eq_refl).
Defined.

Lemma failed_acknowledgement_keeps_slot_witness :
  let out := _handle_task_assignment AgentFacts.task1
               (AgentFacts.idle_agent, mute_world) in
  fst (snd out) = with_task (Some AgentFacts.task1) AgentFacts.idle_agent
  /\ busy (fst (snd out)) = true
  /\ pending (snd (snd out)) = []
  /\ trace (snd (snd out))
     = [] ++ [SlotTaken AgentFacts.task1;
              SendFailed (task_accepted (VStr "t1"));
              SendFailed (task_rejected (VStr "t1") (str ConnectionClosed))].
Proof.
  exact (failed_acknowledgement_keeps_slot AgentFacts.idle_agent mute_world
           AgentFacts.task1 (VStr "t1") eq_refl eq_refl eq_refl eq_refl).
Defined.

(** An agent at work on a task whose id is the number 7. *)
Definition numbered_task : task_data :=
  {[ "id" := VInt 7; "model" := VStr "text"; "model_type" := VStr "text" ]}.

Definition numbered_agent : t :=
  mk AgentFacts.node_config (Some numbered_task) 0 0.

Lemma cancellation_clears_bookkeeping_only_witness :
  let cancel_float : task_data := {[ "task_id" := VNum (Q2Qc 7) ]} in
  let cancel_text : task_data := {[ "task_id" := VStr "7" ]} in
  _handle_task_cancellation cancel_float (numbered_agent, AgentFacts.calm_world)
  = (Ok tt,
     (with_task None numbered_agent,
      mk_world ([] ++ [SlotReleased]) (fun _ => true) 0 (fun _ => Ok "out") []))
  /\ _handle_task_cancellation cancel_text
       (numbered_agent, AgentFacts.calm_world)
     = (Ok tt, (numbered_agent, AgentFacts.calm_world)).
Proof.
  intros cancel_float cancel_text. split.
  - exact (cancellation_clears_bookkeeping_only numbered_agent
             AgentFacts.calm_world numbered_task cancel_float (VInt 7)
             eq_refl eq_refl).
  - exact (cancellation_clears_bookkeeping_only numbered_agent
             AgentFacts.calm_world numbered_task cancel_text (VInt 7)
             eq_refl eq_refl).
Defined.

Lemma assignment_without_id_gets_no_reply_witness :
  _handle_task_assignment (∅ : task_data)
    (AgentFacts.busy_agent, AgentFacts.calm_world)
  = (Raise (KeyError "id"), (AgentFacts.busy_agent, AgentFacts.calm_world)).
Proof.
  exact (assignment_without_id_gets_no_reply AgentFacts.busy_agent
           AgentFacts.calm_world ∅ eq_refl).
Defined.

Lemma counters_follow_reports_witness :
  let out := _execute_task AgentFacts.task1
               (AgentFacts.busy_agent, AgentFacts.calm_world) in
  let new := drop 0 (trace (snd (snd out))) in
  tasks_completed (fst (snd out))
  = (0 + length (List.filter is_sent_result new))%nat
  /\ tasks_failed (fst (snd out))
     = (0 + length (List.filter is_sent_error new))%nat
  /\ (length (List.filter is_sent_result new)
      + length (List.filter is_sent_error new) <= 1)%nat.
Proof.
  exact (counters_follow_reports AgentFacts.busy_agent AgentFacts.calm_world
           AgentFacts.task1 (VStr "t1") eq_refl).
Defined.

Lemma task_without_model_fails_witness :
  _execute_task bare_task (AgentFacts.busy_agent, AgentFacts.calm_world)
  = (Ok tt,
     (mk AgentFacts.node_config None 0 1,
      mk_world ([] ++ [Sent (task_status (VStr "t4") "running");
                       Sent (task_error (VStr "t4") "'model'");
                       SlotReleased])
               (fun _ => true) 2 (fun _ => Ok "out") [])).
Proof.
  exact (task_without_model_fails AgentFacts.busy_agent AgentFacts.calm_world
           bare_task (VStr "t4") eq_refl eq_refl eq_refl eq_refl).
Defined.

End TaskFacts.
